(** * SNPsea: a shallow embedding of the statistical engine

    The definitions below follow [src/common.h] and [src/data.cpp].
    Unsigned 64-bit integers ([ulong], [size_t]) are integers in [Z] reduced
    modulo [2^64] after every arithmetic operation; signed [long] values are
    plain integers in [Z] inside the range the program keeps them in.  A
    finite [double] is a dyadic rational, so doubles that the program only
    compares, adds, multiplies and divides are rationals in [Q]; where a
    logarithm is taken the value is a real number in [R]. *)

From Stdlib Require Import ZArith QArith Qabs Reals Lra Lia List Ascii String.
From Stdlib Require Lqa OrderedTypeEx.
From stdpp Require Import gmap strings list fin_maps sorting.

Local Open Scope Z_scope.

(** ** Machine integers *)

Module Ulong.

Definition modulus : Z := 2 ^ 64.

(** Reduction of an integer to the range of [unsigned long]. *)
Definition wrap (z : Z) : Z := z mod modulus.

Definition add (a b : Z) : Z := wrap (a + b).
Definition sub (a b : Z) : Z := wrap (a - b).
Definition mul (a b : Z) : Z := wrap (a * b).

End Ulong.

(** ** [iterations] (common.h)

    The [while] loop doubles [start] modulo [2^64]; after 64 doublings
    [start] is [0] and the loop state no longer changes, so a run that has
    not left the loop after 65 rounds never does.  [None] stands for that
    run. *)

Fixpoint iterations_loop (fuel : nat) (start sum max : Z) (result : list Z)
  : option (list Z) :=
  if Ulong.add sum (Ulong.mul start 2) <? max then
    match fuel with
    | O => None
    | S fuel' =>
        let start' := Ulong.mul start 2 in
        iterations_loop fuel' start' (Ulong.add sum start') max
                        (result ++ [start'])
    end
  else Some (result ++ [Ulong.sub max sum]).

Definition iterations (start max : Z) : option (list Z) :=
  let max := Z.max start max in
  iterations_loop 65 start start max [start].

Definition Zsum (l : list Z) : Z := fold_right Z.add 0 l.

(** The doubling prefix [100, 200, ..., 100 * 2^k]. *)
Definition doubling (start : Z) (k : nat) : list Z :=
  map (fun i => start * 2 ^ Z.of_nat i) (seq 0 (S k)).


(** ** Sets of names ([std::set<std::string>])

    A [std::set] iterates in ascending order of its keys, and the loops of
    the program depend on that order, so a set of names is the
    duplicate-free ascending list of its elements. *)

Module NameSet.

Definition t := list string.

Definition empty : t := [].

Definition count (x : string) (s : t) : Z :=
  if existsb (String.eqb x) s then 1 else 0.

Fixpoint insert (x : string) (s : t) : t :=
  match s with
  | [] => [x]
  | y :: s' =>
      match String.compare x y with
      | Lt => x :: y :: s'
      | Eq => y :: s'
      | Gt => y :: insert x s'
      end
  end.

Definition of_list (l : list string) : t := fold_left (fun s x => insert x s) l empty.

(** [std::set_difference] on two sets: the elements of [a] that are not
    in [b], in the order of [a]. *)
Definition set_difference (a b : t) : t :=
  List.filter (fun x => count x b =? 0) a.

Definition size (s : t) : Z := Z.of_nat (length s).

End NameSet.

(** ** Genomic intervals and the interval index *)

Record genomic_interval := {
  chrom : string;
  start : Z;
  end_ : Z
}.

(** [Interval<ulong>] of IntervalTree.h: a closed range with a payload,
    here the row index of a gene in the matrix. *)
Record Interval := {
  i_start : Z;
  i_stop : Z;
  value : Z
}.

(** Modelled from the spec: IntervalTree.h is ext/intervaltree, outside
    the sources.  Section 4.A: "given chrom, start, end, return all
    (row_index) whose interval intersects.  Intersection is inclusive of
    endpoints".  A tree is the sequence of intervals it was built from,
    and [findOverlapping] appends the intersecting ones to the vector it
    is given. *)
Definition IntervalTree := list Interval.

(** Modelled from the spec: the intersection test of the tree, inclusive
    of the endpoints. *)
Definition overlaps (qstart qstop : Z) (i : Interval) : bool :=
  (qstart <=? i_stop i) && (i_start i <=? qstop).

(** Modelled from the spec: the query [findOverlapping(start, stop,
    overlapping)] of IntervalTree.h. *)
Definition findOverlapping (t : IntervalTree) (qstart qstop : Z)
    (overlapping : list Interval) : list Interval :=
  overlapping ++ List.filter (overlaps qstart qstop) t.

(** [operator[]] of an [unordered_map] yields a value-initialised entry for
    a missing key. *)
Definition default_interval : genomic_interval :=
  {| chrom := ""; start := 0; end_ := 0 |}.

Definition interval_of (snp_intervals : gmap string genomic_interval)
    (snp : string) : genomic_interval :=
  default default_interval (snp_intervals !! snp).

Definition tree_of (gene_interval_tree : gmap string IntervalTree)
    (c : string) : IntervalTree :=
  default [] (gene_interval_tree !! c).

(** ** [snp_geneset] (data.cpp)

    The function is given with the sequence of queries it sends to the
    interval tree, first to last. *)

Record query := {
  q_chrom : string;
  q_start : Z;
  q_stop : Z
}.

Section Resolver.

Variable _snp_intervals : gmap string genomic_interval.
Variable _gene_interval_tree : gmap string IntervalTree.

Definition snp_geneset_traced (snp : string) (slop : Z)
  : list query * list Z :=
  let snp_interval := interval_of _snp_intervals snp in
  let tree := tree_of _gene_interval_tree (chrom snp_interval) in
  let q1 := {| q_chrom := chrom snp_interval;
               q_start := start snp_interval;
               q_stop := end_ snp_interval |} in
  let gene_intervals :=
    findOverlapping tree (start snp_interval) (end_ snp_interval) [] in
  let '(queries, gene_intervals) :=
    if Z.of_nat (length gene_intervals) =? 0 then
      let lo := Z.max 1 (Ulong.sub (start snp_interval) slop) in
      let hi := Ulong.add (end_ snp_interval) slop in
      ([q1; {| q_chrom := chrom snp_interval; q_start := lo; q_stop := hi |}],
       findOverlapping tree lo hi gene_intervals)
    else ([q1], gene_intervals) in
  let indices :=
    if 0 <? Z.of_nat (length gene_intervals)
    then map value gene_intervals else [] in
  (queries, indices).

Definition snp_geneset (snp : string) (slop : Z) : list Z :=
  snd (snp_geneset_traced snp slop).

(** ** [overlap_genes] (data.cpp) *)

Record overlap_state := {
  absent_snp_names : NameSet.t;
  naked_snp_names : NameSet.t;
  genesets : gmap string (list Z);
  geneset_sizes : list Z
}.

Definition overlap_step (slop : Z) (st : overlap_state) (snp : string)
  : overlap_state :=
  if decide (_snp_intervals !! snp = None) then
    {| absent_snp_names := NameSet.insert snp (absent_snp_names st);
       naked_snp_names := naked_snp_names st;
       genesets := genesets st;
       geneset_sizes := geneset_sizes st |}
  else
    let gene_ids := snp_geneset snp slop in
    if 0 <? Z.of_nat (length gene_ids) then
      {| absent_snp_names := absent_snp_names st;
         naked_snp_names := naked_snp_names st;
         genesets := <[snp := gene_ids]> (genesets st);
         geneset_sizes := geneset_sizes st |}
    else
      {| absent_snp_names := absent_snp_names st;
         naked_snp_names := NameSet.insert snp (naked_snp_names st);
         genesets := genesets st;
         geneset_sizes := geneset_sizes st |}.

(** [naked] is the member [_user_naked_snp_names], which the function
    extends without clearing. *)
Definition overlap_genes (snp_names : NameSet.t) (naked : NameSet.t)
    (slop : Z) : overlap_state :=
  fold_left (overlap_step slop) snp_names
    {| absent_snp_names := NameSet.empty;
       naked_snp_names := naked;
       genesets := ∅;
       geneset_sizes := [] |}.

End Resolver.

(** ** [merge_user_snps] (data.cpp) *)

(** [std::set_union] on two ascending ranges. *)
Fixpoint set_union (a : list Z) : list Z -> list Z :=
  match a with
  | [] => fun b => b
  | x :: a' =>
      fix go (b : list Z) : list Z :=
        match b with
        | [] => x :: a'
        | y :: b' =>
            if y <? x then y :: go b'
            else if x <? y then x :: set_union a' (y :: b')
            else x :: set_union a' b'
        end
  end.

(** [std::sort] on gene indices. *)
Definition sort_genes (l : list Z) : list Z := merge_sort Z.le l.

(** [s.find(",") != std::string::npos] *)
Fixpoint has_comma (s : string) : bool :=
  match s with
  | EmptyString => false
  | String c s' => Ascii.eqb c ","%char || has_comma s'
  end.

Record merge_inner := {
  merged_snp : string;
  genes_a : list Z;
  inner_merged_snps : NameSet.t
}.

Record merge_state := {
  new_snp_names : NameSet.t;
  new_genesets : gmap string (list Z);
  new_geneset_sizes : list Z;
  merged_snps : NameSet.t;
  count_merged : Z
}.

Section Merge.

Variable snp_names : NameSet.t.
Variable user_genesets : gmap string (list Z).

Definition merge_inner_step (a : string) (st : merge_inner) (b : string)
  : merge_inner :=
  if String.eqb a b then st
  else
    match user_genesets !! b with
    | None => st
    | Some gb =>
        if 0 <? NameSet.count b (inner_merged_snps st) then st
        else
          let genes_b := sort_genes gb in
          let genes_ab := set_union (genes_a st) genes_b in
          if Z.of_nat (length genes_ab)
             <? Z.of_nat (length (genes_a st)) + Z.of_nat (length genes_b)
          then
            {| merged_snp := merged_snp st ++ "," ++ b;
               genes_a := genes_ab;
               inner_merged_snps :=
                 NameSet.insert b (NameSet.insert a (inner_merged_snps st)) |}
          else st
    end.

Definition merge_outer_step (st : merge_state) (a : string) : merge_state :=
  match user_genesets !! a with
  | None => st
  | Some ga =>
      if 0 <? NameSet.count a (merged_snps st) then st
      else
        let inner :=
          fold_left (merge_inner_step a) snp_names
            {| merged_snp := a;
               genes_a := sort_genes ga;
               inner_merged_snps := merged_snps st |} in
        {| new_snp_names := NameSet.insert (merged_snp inner) (new_snp_names st);
           new_genesets :=
             <[merged_snp inner := genes_a inner]> (new_genesets st);
           new_geneset_sizes :=
             new_geneset_sizes st ++ [Z.of_nat (length (genes_a inner))];
           merged_snps := inner_merged_snps inner;
           count_merged :=
             if has_comma (merged_snp inner)
             then count_merged st + 1 else count_merged st |}
  end.

(** The final state holds the three values the function assigns back to
    its reference arguments: [new_snp_names], [new_genesets] and
    [new_geneset_sizes]. *)
Definition merge_user_snps : merge_state :=
  fold_left merge_outer_step snp_names
    {| new_snp_names := NameSet.empty;
       new_genesets := ∅;
       new_geneset_sizes := [];
       merged_snps := NameSet.empty;
       count_merged := 0 |}.

End Merge.

(** Two genesets share a row index. *)
Definition share_gene (g1 g2 : list Z) : Prop := exists r, r ∈ g1 /\ r ∈ g2.

(** ** The gene matrix ([Eigen::MatrixXd])

    A matrix is the list of its columns, each column the list of its
    entries from row 0 down (Eigen stores matrices column by column).
    Entries are finite doubles taken as rationals; an operation that
    would produce a non-finite entry (a division by zero) or read outside
    the matrix yields [None]. *)

Abbreviation VectorXd := (list Q).
Abbreviation MatrixXd := (list (list Q)).

Definition cols (m : MatrixXd) : nat := length m.

Definition wf_matrix (R : nat) (m : MatrixXd) : Prop :=
  Forall (fun c => length c = R) m.

Definition coeff (m : MatrixXd) (r c : nat) : option Q :=
  col ← m !! c; col !! r.

Definition Qsum (v : VectorXd) : Q := fold_right Qplus 0%Q v.

Definition dot (a b : VectorXd) : Q := Qsum (zip_with Qmult a b).

(** [is_binary] (common.h) *)
Definition is_binary (x : VectorXd) : bool :=
  forallb (fun v => negb (negb (Qeq_bool v 0) && negb (Qeq_bool v 1))) x.

(** Number of nonzero rows of a column. *)
Definition count_nonzero (x : VectorXd) : Z :=
  Z.of_nat (length (List.filter (fun v => negb (Qeq_bool v 0)) x)).

(** ** [read_bed_interval_tree] (data.cpp) *)

Record BEDRow := {
  name : string;
  i : genomic_interval
}.

Definition uint_wrap (z : Z) : Z := z mod 2 ^ 32.

Record bed_tree_state := {
  intervals : gmap string (list Interval);
  bed_genes : NameSet.t;
  skipped_genes : Z
}.

Section ReadBedIntervalTree.

Variable row_names : list string.

Definition row_names_set : NameSet.t := NameSet.of_list row_names.

(** [index[row_names.at(i)] = i] for [i] from 0 upwards. *)
Definition index : gmap string Z :=
  fold_left (fun m '(k, n) => <[n := Z.of_nat k]> m)
            (imap (fun k n => (k, n)) row_names) ∅.

Definition bed_step (st : bed_tree_state) (row : BEDRow) : bed_tree_state :=
  if negb (NameSet.count (name row) row_names_set =? 0) then
    let c := chrom (i row) in
    let iv := {| i_start := start (i row);
                 i_stop := end_ (i row);
                 value := default 0 (index !! name row) |} in
    {| intervals := <[c := default [] (intervals st !! c) ++ [iv]]> (intervals st);
       bed_genes := NameSet.insert (name row) (bed_genes st);
       skipped_genes := skipped_genes st |}
  else
    {| intervals := intervals st;
       bed_genes := bed_genes st;
       skipped_genes := Ulong.add (skipped_genes st) 1 |}.

(** Returns [nrows] and the per-chromosome trees. *)
Definition read_bed_interval_tree (bed : list BEDRow)
  : Z * gmap string IntervalTree :=
  let st := fold_left bed_step bed
              {| intervals := ∅; bed_genes := NameSet.empty;
                 skipped_genes := 0 |} in
  let missing_genes := NameSet.set_difference row_names_set (bed_genes st) in
  let nrows :=
    uint_wrap (Ulong.sub (Z.of_nat (length row_names))
                         (NameSet.size missing_genes)) in
  (nrows, intervals st).

End ReadBedIntervalTree.

(** ** Binary mode: the cached column sums and probabilities
    (constructor [snpsea::snpsea], data.cpp) *)

(** Modelled from the spec: snpsea.h, which declares the members
    [_binary_sums] and [_binary_probs], is not among the sources.
    Section 3: "per-column sum[c] (count of nonzero rows) and
    prob[c] = sum[c]/R"; here one double per column, as the assignments
    in the constructor produce them. *)
Record binary_cache := {
  _binary_sums : list Q;
  _binary_probs : option (list Q)
}.

Definition binary_sums (m : MatrixXd) : list Q := map Qsum m.

(** [_binary_sums / _nrows]: not finite when [_nrows] is 0. *)
Definition binary_probs (sums : list Q) (nrows : Z) : option (list Q) :=
  if nrows =? 0 then None
  else Some (map (fun s => (s / inject_Z nrows)%Q) sums).

Definition cache_binary (m : MatrixXd) (nrows : Z) : binary_cache :=
  let sums := binary_sums m in
  {| _binary_sums := sums; _binary_probs := binary_probs sums nrows |}.

(** ** [removeColumns] and [unsafeRemoveColumns] (common.h) *)

(** [std::unique] on a sorted range. *)
Fixpoint unique (l : list nat) : list nat :=
  match l with
  | [] => []
  | x :: l' =>
      match l' with
      | [] => [x]
      | y :: _ => if Nat.eqb x y then unique l' else x :: unique l'
      end
  end.

(** [m.block(0, idx, rows, nC) = m.block(0, idx + 1, rows, nC).eval()]:
    the [nC] columns after [idx] move one place to the left; both blocks
    must lie inside the matrix. *)
Definition shift_block (m : MatrixXd) (idx nC : nat) : option MatrixXd :=
  if (idx + 1 + nC <=? length m)%nat then
    Some (take idx m ++ take nC (drop (idx + 1) m) ++ drop (idx + nC) m)
  else None.

(** The loop of [unsafeRemoveColumns], over the indices from the largest
    down, [k] counting from 1. *)
Fixpoint unsafe_remove_loop (idxs_rev : list nat) (k : Z) (m : MatrixXd)
  : option MatrixXd :=
  match idxs_rev with
  | [] => Some m
  | it :: rest =>
      let nC := Ulong.sub (Ulong.sub (Z.of_nat (cols m)) (Z.of_nat it)) k in
      if 0 <? nC then
        m' ← shift_block m it (Z.to_nat nC);
        unsafe_remove_loop rest (k + 1) m'
      else unsafe_remove_loop rest (k + 1) m
  end.

(** [conservativeResize(NoChange, m.cols() - idxs.size())] keeps the
    leading columns. *)
Definition unsafeRemoveColumns (idxs : list nat) (m : MatrixXd)
  : option MatrixXd :=
  m' ← unsafe_remove_loop (rev idxs) 1 m;
  if (length idxs <=? cols m')%nat
  then Some (take (cols m' - length idxs) m') else None.

Definition removeColumns (idxsToRemove : list nat) (m : MatrixXd)
  : option MatrixXd :=
  let idxs := unique (merge_sort Nat.le idxsToRemove) in
  unsafeRemoveColumns idxs m.

(** ** [condition] (data.cpp) *)

(** [std::find(v.begin(), v.end(), x) - v.begin()]: the first position of
    [x], or the length of [v]. *)
Fixpoint find_index (v : list string) (x : string) : nat :=
  match v with
  | [] => O
  | y :: v' => if String.eqb y x then O else S (find_index v' x)
  end.

(** [a - (a.dot(b) / b.dot(b)) * b] *)
Definition subtract_projection (b a : VectorXd) : VectorXd :=
  let s := (dot a b / dot b b)%Q in
  zip_with (fun x y => (x - s * y)%Q) a b.

(** One round of the outer loop: the columns [0 .. ncolnames - 1] lose
    their projection on a copy of column [col_index]. *)
Definition condition_column (ncolnames : nat) (matrix : MatrixXd)
    (col_index : nat) : option MatrixXd :=
  b ← matrix !! col_index;
  if (ncolnames <=? cols matrix)%nat then
    if Qeq_bool (dot b b) 0 then None
    else Some (imap (fun col a => if (col <? ncolnames)%nat
                                  then subtract_projection b a else a)
                    matrix)
  else None.

Fixpoint condition_loop (_col_names : list string) (names : list string)
    (idxs : list nat) (matrix : MatrixXd) : option (list nat * MatrixXd) :=
  match names with
  | [] => Some (idxs, matrix)
  | col_name :: rest =>
      let col_index := find_index _col_names col_name in
      matrix' ← condition_column (length _col_names) matrix col_index;
      condition_loop _col_names rest (idxs ++ [col_index]) matrix'
  end.

(** [new_col_names.erase(new_col_names.begin() + idx)] for every index,
    largest first. *)
Fixpoint erase_names (idxs_desc : list nat) (names : list string)
  : option (list string) :=
  match idxs_desc with
  | [] => Some names
  | idx :: rest =>
      if (idx <? length names)%nat
      then erase_names rest (delete idx names) else None
  end.

(** Returns the conditioned matrix and the new [_col_names]. *)
Definition condition (matrix : MatrixXd) (_col_names : list string)
    (col_names : NameSet.t) : option (MatrixXd * list string) :=
  '(idxs, matrix1) ← condition_loop _col_names col_names [] matrix;
  matrix2 ← removeColumns idxs matrix1;
  new_col_names ← erase_names (rev (merge_sort Nat.le idxs)) _col_names;
  Some (matrix2, new_col_names).

(** ** [rankdata] (common.h) and the ranking step of the constructor *)

Abbreviation argsort_pair := (nat * Q)%type.

Definition argsort_desc (left right : argsort_pair) : bool :=
  match (left.2 ?= right.2)%Q with Gt => true | _ => false end.

(** [std::sort(data.begin(), data.end(), argsort_desc)], as an insertion
    sort; the order among equal values is not fixed by [std::sort]. *)
Fixpoint sort_insert (p : argsort_pair) (l : list argsort_pair)
  : list argsort_pair :=
  match l with
  | [] => [p]
  | q :: l' => if argsort_desc q p then q :: sort_insert p l' else p :: q :: l'
  end.

Definition sort_desc (l : list argsort_pair) : list argsort_pair :=
  fold_right sort_insert [] l.

(** [while (i + reps < data.size() && val(i) == val(i + reps)) ++reps],
    counted on the elements after position [i]. *)
Fixpoint more_reps (v : Q) (rest : list argsort_pair) : nat :=
  match rest with
  | [] => O
  | p :: rest' => if Qeq_bool v p.2 then S (more_reps v rest') else O
  end.

(** The average rank [(2.0 * i + reps - 1.0) / 2.0 + 1.0]. *)
Definition mean_rank (i reps : nat) : Q :=
  ((2 * inject_Z (Z.of_nat i) + inject_Z (Z.of_nat reps) - 1) / 2 + 1)%Q.

(** The loop [for (i = 0; i < data.size(); i += reps)].  Every round
    moves [i] forward by [reps >= 1], so [data.size()] rounds are enough;
    [fuel] counts them. *)
Fixpoint rank_loop (fuel : nat) (i : nat) (data : list argsort_pair)
    (indices : VectorXd) : VectorXd :=
  match fuel with
  | O => indices
  | S fuel' =>
      match data !! i with
      | None => indices
      | Some p =>
          let reps := S (more_reps p.2 (drop (S i) data)) in
          let indices' :=
            fold_left (fun ind j =>
                         match data !! (i + j)%nat with
                         | Some q => <[q.1 := mean_rank i reps]> ind
                         | None => ind
                         end)
                      (seq 0 reps) indices in
          rank_loop fuel' (i + reps)%nat data indices'
      end
  end.

(** The ranks, given the outcome [data] of the sort.  The vector
    [indices] starts out with unspecified contents, here zeros. *)
Definition rank_sorted (data : list argsort_pair) : VectorXd :=
  rank_loop (length data) 0 data (replicate (length data) 0%Q).

Definition rankdata (x : VectorXd) : VectorXd :=
  rank_sorted (sort_desc (imap (fun k v => (k, v)) x)).

(** [_gene_matrix.col(i) = rankdata(_gene_matrix.col(i)) / _nrows] for
    every column. *)
Definition rank_columns (m : MatrixXd) (nrows : Z) : option MatrixXd :=
  if nrows =? 0 then None
  else Some (map (fun c => map (fun v => (v / inject_Z nrows)%Q) (rankdata c)) m).

(** ** Outcomes of a call

    [OutOfRange] is the [std::out_of_range] exception of [vector::at];
    [Diverge] is a loop that never ends. *)

Inductive outcome (A : Type) : Type :=
| Ok (a : A)
| OutOfRange
| Diverge.

Arguments Ok {A} a.
Arguments OutOfRange {A}.
Arguments Diverge {A}.

(** ** The random number generator

    [std::mt19937] with [std::uniform_int_distribution<ulong>(a, b)]: a
    state of some type [G] and a draw that yields a value of the closed
    range [a .. b] and the next state. *)

Class UniformSource (G : Type) := {
  uniform_int : Z -> Z -> G -> Z * G
}.

(** The draws stay inside the range they are asked for. *)
Definition uniform_in_range (G : Type) `{UniformSource G} : Prop :=
  forall a b g, a <= b -> a <= (uniform_int a b g).1 <= b.

(** A linear congruential generator serves as a concrete source. *)
Definition lcg_next (g : Z) : Z :=
  (g * 6364136223846793005 + 1442695040888963407) mod 2 ^ 64.

Definition lcg_draw (a b g : Z) : Z * Z :=
  (a + g mod (Z.max 1 (b - a + 1)), lcg_next g).

#[export] Instance lcg_source : UniformSource Z :=
  {| uniform_int := lcg_draw |}.

(** ** [bin_genesets] (data.cpp) *)

(** Modelled from the spec: snpsea.h, which declares [_geneset_bins], is
    not among the sources.  Section 3: "Bin table.  Mapping
    k in [1..MAX_GENES] -> list of genesets".  [bin_of] is
    [_geneset_bins[s]], which is empty for a key without an entry. *)
Definition bin_of (bins : gmap Z (list (list Z))) (s : Z) : list (list Z) :=
  default [] (bins !! s).

Section Bins.

Variable _snp_intervals : gmap string genomic_interval.
Variable _gene_interval_tree : gmap string IntervalTree.
Variable _null_snp_names : NameSet.t.

Definition bin_step (slop max_genes : Z) (bins : gmap Z (list (list Z)))
    (item : string * genomic_interval) : gmap Z (list (list Z)) :=
  let snp := item.1 in
  if NameSet.count snp _null_snp_names =? 0 then bins
  else
    let geneset := snp_geneset _snp_intervals _gene_interval_tree snp slop in
    let n_genes := Z.of_nat (length geneset) in
    if 0 <? n_genes then
      let n_genes := if max_genes <? n_genes then max_genes else n_genes in
      <[n_genes := bin_of bins n_genes ++ [geneset]]> bins
    else bins.

(** The loop runs over the entries of [_snp_intervals] in the order of
    the hash table, here the order of [map_to_list]. *)
Definition bin_genesets (slop max_genes : Z) : gmap Z (list (list Z)) :=
  fold_left (bin_step slop max_genes) (map_to_list _snp_intervals) ∅.

End Bins.

(** ** [matched_genesets] (data.cpp) *)

Section Sampler.

Context {G : Type} `{UniformSource G}.

Variable _geneset_bins : gmap Z (list (list Z)).

(** The upper bound handed to the distribution,
    [_geneset_bins[s].size() - 1] in unsigned arithmetic. *)
Definition draw_bound (s : Z) : Z :=
  Ulong.sub (Z.of_nat (length (bin_of _geneset_bins s))) 1.

Fixpoint matched_genesets_from (sizes : list Z) (genesets : list (list Z))
    (g : G) : outcome (list (list Z)) * G :=
  match sizes with
  | [] => (Ok genesets, g)
  | s :: rest =>
      let '(r, g') := uniform_int 0 (draw_bound s) g in
      match bin_of _geneset_bins s !! Z.to_nat r with
      | Some geneset => matched_genesets_from rest (genesets ++ [geneset]) g'
      | None => (OutOfRange, g')
      end
  end.

Definition matched_genesets (_user_geneset_sizes : list Z) (g : G)
  : outcome (list (list Z)) * G :=
  matched_genesets_from _user_geneset_sizes [] g.

End Sampler.

(** ** [score_quantitative_single] (data.cpp)

    The minimum percentile and the argument of the logarithm are computed
    on rationals; the logarithm is the real one.  [NonFinite] stands for
    an infinity or a NaN. *)

Inductive double_val : Type :=
| Finite (x : R)
| NonFinite.

Definition dadd (a b : double_val) : double_val :=
  match a, b with
  | Finite x, Finite y => Finite (x + y)%R
  | _, _ => NonFinite
  end.

(** [-log(x)]: infinite at 0, NaN below. *)
Definition neg_log (x : Q) : double_val :=
  match (0 ?= x)%Q with
  | Lt => Finite (- ln (Q2R x))%R
  | _ => NonFinite
  end.

Definition Qminimum (a b : Q) : Q :=
  match (b ?= a)%Q with Lt => b | _ => a end.

Section Scoring.

Variable _gene_matrix : MatrixXd.

(** The inner loop: [percentile = std::min(percentile, M(gene_id, col))]. *)
Fixpoint min_percentile (col : nat) (geneset : list Z) (percentile : Q)
  : option Q :=
  match geneset with
  | [] => Some percentile
  | gene_id :: rest =>
      v ← coeff _gene_matrix (Z.to_nat gene_id) col;
      min_percentile col rest (Qminimum percentile v)
  end.

Fixpoint score_quantitative_single_loop (col : nat)
    (genesets : list (list Z)) (score : double_val) : option double_val :=
  match genesets with
  | [] => Some score
  | geneset :: rest =>
      percentile ← min_percentile col geneset 1%Q;
      match (percentile ?= 1)%Q with
      | Lt =>
          let arg := (1 - (1 - percentile) ^ Z.of_nat (length geneset))%Q in
          score_quantitative_single_loop col rest (dadd score (neg_log arg))
      | _ => score_quantitative_single_loop col rest score
      end
  end.

(** [std::isfinite(score) ? score : 0.0] *)
Definition finite_or_zero (score : double_val) : R :=
  match score with
  | Finite x => x
  | NonFinite => 0%R
  end.

Definition score_quantitative_single (col : nat) (genesets : list (list Z))
  : option R :=
  finite_or_zero <$> score_quantitative_single_loop col genesets (Finite 0).

End Scoring.

(** ** [calculate_pvalues] (data.cpp)

    The state threaded through the function is the generator and the rows
    written to the output stream so far; a row stays written when a later
    step throws.  The worker threads of a batch are run one after the
    other. *)

Record pvalue_row := {
  condition_name : string;
  pvalue : Q;
  nulls_observed : Z;
  nulls_tested : Z;
  replicate_column : option Z
}.

Record sched_state (G : Type) := {
  generator : G;
  stream : list pvalue_row
}.

Arguments generator {G} _.
Arguments stream {G} _.

Definition Sched (G A : Type) : Type :=
  sched_state G -> outcome A * sched_state G.

Definition sched_ret {G A} (a : A) : Sched G A := fun st => (Ok a, st).

Definition sched_bind {G A B} (m : Sched G A) (k : A -> Sched G B)
  : Sched G B :=
  fun st =>
    match m st with
    | (Ok a, st') => k a st'
    | (OutOfRange, st') => (OutOfRange, st')
    | (Diverge, st') => (Diverge, st')
    end.

Definition sched_throw {G A} : Sched G A := fun st => (OutOfRange, st).
Definition sched_diverge {G A} : Sched G A := fun st => (Diverge, st).

Definition sched_write {G} (row : pvalue_row) : Sched G unit :=
  fun st => (Ok tt, {| generator := generator st;
                       stream := stream st ++ [row] |}).

Notation "x <- m ;; k" := (sched_bind m (fun x => k))
  (at level 100, m at next level, right associativity).

(** The four scoring functions a run chooses from. *)
Inductive scorer : Type :=
| ScoreBinarySingle
| ScoreBinaryTotal
| ScoreQuantitativeSingle
| ScoreQuantitativeTotal.

Definition select_score_function (score_method : string)
    (_binary_gene_matrix : bool) : scorer :=
  if String.eqb score_method "single" then
    if _binary_gene_matrix then ScoreBinarySingle else ScoreQuantitativeSingle
  else if String.eqb score_method "total" then
    if _binary_gene_matrix then ScoreBinaryTotal else ScoreQuantitativeTotal
  else ScoreQuantitativeSingle.

Section Scheduler.

Context {G : Type} `{UniformSource G}.

(** The double each scoring function returns: always finite, so a
    rational. *)
Variable call_score : scorer -> nat -> list (list Z) -> Q.

Variable _geneset_bins : gmap Z (list (list Z)).
Variable _user_geneset_sizes : list Z.
Variable _col_names : list string.
Variable _binary_gene_matrix : bool.

Definition draw_matched : Sched G (list (list Z)) :=
  fun st =>
    let '(r, g) := matched_genesets _geneset_bins _user_geneset_sizes
                                    (generator st) in
    (r, {| generator := g; stream := stream st |}).

(** [_col_names.at(col)] *)
Definition col_name_at (col : nat) : Sched G string :=
  match _col_names !! col with
  | Some n => sched_ret n
  | None => sched_throw
  end.

(** The [count] draws of one batch; returns the exceedances added to
    [nulls_observed]. *)
Fixpoint run_batch (score_function : scorer) (col : nat) (user_score : Q)
    (count : nat) (observed : Z) : Sched G Z :=
  match count with
  | O => sched_ret observed
  | S count' =>
      genesets <- draw_matched ;;
      run_batch score_function col user_score count'
        (if Qle_bool user_score (call_score score_function col genesets)
         then observed + 1 else observed)
  end.

(** The loop over the batch sizes, left at the first batch after which
    [nulls_observed >= min_observations]. *)
Fixpoint run_batches (score_function : scorer) (col : nat) (user_score : Q)
    (min_observations : Z) (counts : list Z)
    (nulls_observed nulls_tested : Z) : Sched G (Z * Z) :=
  match counts with
  | [] => sched_ret (nulls_observed, nulls_tested)
  | count :: rest =>
      nulls_observed' <-
        run_batch score_function col user_score (Z.to_nat count)
                  nulls_observed ;;
      let nulls_tested' := nulls_tested + count in
      if min_observations <=? nulls_observed'
      then sched_ret (nulls_observed', nulls_tested')
      else run_batches score_function col user_score min_observations rest
                       nulls_observed' nulls_tested'
  end.

Definition replicate_field (replicates replicate : Z) : option Z :=
  if 1 <? replicates then Some replicate else None.

(** The body of the loop over the columns. *)
Definition calculate_column (score_function : scorer)
    (genesets : list (list Z)) (min_observations max_iterations : Z)
    (replicates replicate : Z) (col : nat) : Sched G unit :=
  let user_score := call_score score_function col genesets in
  if Qle_bool user_score 0 then
    n <- col_name_at col ;;
    sched_write {| condition_name := n; pvalue := 1%Q;
                   nulls_observed := 0; nulls_tested := 0;
                   replicate_column := replicate_field replicates replicate |}
  else
    match iterations 100 (Ulong.wrap max_iterations) with
    | None => sched_diverge
    | Some counts =>
        r <- run_batches score_function col user_score min_observations
                         counts 0 0 ;;
        let pvalue := ((inject_Z r.1 + 1) / (inject_Z r.2 + 1))%Q in
        n <- col_name_at col ;;
        sched_write {| condition_name := n; pvalue := pvalue;
                       nulls_observed := r.1; nulls_tested := r.2;
                       replicate_column :=
                         replicate_field replicates replicate |}
    end.

Fixpoint calculate_columns (body : nat -> Sched G unit) (columns : list nat)
  : Sched G unit :=
  match columns with
  | [] => sched_ret tt
  | col :: rest => _ <- body col ;; calculate_columns body rest
  end.

(** [replicate] is the value of the static counter after its increment;
    [ncols] is [_gene_matrix.cols()]. *)
Definition calculate_pvalues (score_method : string)
    (genesets : list (list Z)) (min_observations max_iterations : Z)
    (replicates replicate : Z) (ncols : nat) : Sched G unit :=
  let score_function :=
    select_score_function score_method _binary_gene_matrix in
  calculate_columns
    (calculate_column score_function genesets min_observations
                      max_iterations replicates replicate)
    (seq 0 ncols).

End Scheduler.

(** ** The constructor [snpsea::snpsea] (data.cpp)

    A step of the constructor either goes on with a value or ends the
    process with [exit(EXIT_FAILURE)] after writing lines to the error
    output. *)

Inductive run (A : Type) : Type :=
| Continue (a : A)
| Exit_failure (cerr : list string).

Arguments Continue {A} a.
Arguments Exit_failure {A} cerr.

Definition run_bind {A B} (m : run A) (k : A -> run B) : run B :=
  match m with
  | Continue a => k a
  | Exit_failure cerr => Exit_failure cerr
  end.

Notation "x <-- m ;; k" := (run_bind m (fun x => k))
  (at level 100, m at next level, right associativity).

(** The contents of the input files, as the readers see them.  A file
    that cannot be opened is [None].  For a list of names the content is
    the sequence of cells that [read_names] inserts into its set; for a
    BED file, the rows; for the GCT file, its three header items and the
    parsed table. *)

Record gct_file := {
  gct_magic : string;
  gct_rows : Z;
  gct_cols : Z;
  gct_row_names : list string;
  gct_col_names : list string;
  gct_data : MatrixXd
}.

Record input_files := {
  null_snps_file : string;
  null_snps_content : option (list string);
  condition_file : string;
  condition_content : option (list string);
  snp_intervals_file : string;
  snp_intervals_content : option (list BEDRow);
  gene_matrix_file : string;
  gene_matrix_content : option gct_file;
  gene_intervals_file : string;
  gene_intervals_content : option (list BEDRow)
}.

(** The members of the object once the files are read; each has the type
    of the reference argument it is passed as. *)
Record loaded := {
  _null_snp_names : NameSet.t;
  _condition_names : NameSet.t;
  _snp_intervals : gmap string genomic_interval;
  _row_names : list string;
  _col_names : list string;
  _gene_matrix : MatrixXd;
  _nrows : Z;
  _gene_interval_tree : gmap string IntervalTree
}.

Definition cannot_open {A} (filename : string) : run A :=
  Exit_failure [("ERROR: Cannot open " ++ filename)%string].

Definition read_names (filename : string) (content : option (list string))
  : run NameSet.t :=
  match content with
  | None => cannot_open filename
  | Some cells =>
      let names := NameSet.of_list cells in
      if NameSet.size names =? 0
      then Exit_failure [("ERROR: No SNPs found in " ++ filename)%string]
      else Continue names
  end.

Definition read_bed_intervals (filename : string)
    (content : option (list BEDRow)) : run (gmap string genomic_interval) :=
  match content with
  | None => cannot_open filename
  | Some rows =>
      Continue (fold_left (fun m row => <[name row := i row]> m) rows ∅)
  end.

Definition read_gct (filename : string) (content : option gct_file)
  : run (list string * list string * MatrixXd) :=
  match content with
  | None => cannot_open filename
  | Some f =>
      if negb (String.prefix "#1.2" (gct_magic f)) then
        Exit_failure [("ERROR: Not a GCT file " ++ filename)%string]
      else if (gct_rows f <=? 0) || (gct_cols f <=? 0) then
        Exit_failure [("ERROR: Line 2 of GCT file is malformed " ++ filename)%string]
      else Continue (gct_row_names f, gct_col_names f, gct_data f)
  end.

Definition read_gene_intervals (filename : string)
    (content : option (list BEDRow)) (row_names : list string)
  : run (Z * gmap string IntervalTree) :=
  match content with
  | None => cannot_open filename
  | Some rows => Continue (read_bed_interval_tree row_names rows)
  end.

(** [report_missing_conditions] (data.cpp) *)
Definition report_missing_conditions (condition_names : NameSet.t)
    (col_names : list string) : run unit :=
  if NameSet.size condition_names =? 0 then Continue tt
  else
    let _col_names_set := NameSet.of_list col_names in
    let _condition_difference :=
      NameSet.set_difference condition_names _col_names_set in
    if 0 <? NameSet.size _condition_difference then
      Exit_failure
        ("ERROR: Conditions not found in --gene-matrix file:"
           :: _condition_difference)
    else Continue tt.

(** The part of the constructor between the log lines "Reading files ..."
    and "done.". *)
Definition read_files (files : input_files) : run loaded :=
  null_names <-- read_names (null_snps_file files) (null_snps_content files) ;;
  condition_names <--
    (if (0 <? Z.of_nat (String.length (condition_file files)))
     then read_names (condition_file files) (condition_content files)
     else Continue NameSet.empty) ;;
  snp_intervals <--
    read_bed_intervals (snp_intervals_file files)
                       (snp_intervals_content files) ;;
  gct <-- read_gct (gene_matrix_file files) (gene_matrix_content files) ;;
  let '(row_names, col_names, gene_matrix) := gct in
  tree <-- read_gene_intervals (gene_intervals_file files)
                               (gene_intervals_content files) row_names ;;
  Continue {| _null_snp_names := null_names;
              _condition_names := condition_names;
              _snp_intervals := snp_intervals;
              _row_names := row_names;
              _col_names := col_names;
              _gene_matrix := gene_matrix;
              _nrows := tree.1;
              _gene_interval_tree := tree.2 |}.

Section Constructor.

(** What the constructor does after [report_missing_conditions]: mode
    detection, conditioning, normalisation and ranking, binning, the
    overlap and merge of the user's SNPs, the reports, and the two uses
    of [calculate_pvalues]. *)
Context {Outputs : Type}.
Variable analysis : loaded -> run Outputs.

Definition snpsea (files : input_files) : run Outputs :=
  l <-- read_files files ;;
  _ <-- report_missing_conditions (_condition_names l) (_col_names l) ;;
  analysis l.

End Constructor.

(** The normalisation [_gene_matrix.array().colwise() /
    _gene_matrix.rowwise().norm().eval().array()]: every column is
    divided, entry by entry, by the vector of the row norms.  A Euclidean
    norm has no rational value in general, so the function [norm] that
    yields the norm of a row is taken as given.  A row of norm 0 makes the
    entries non-finite. *)

Definition rows (m : MatrixXd) : nat :=
  match m with
  | [] => O
  | c :: _ => length c
  end.

Definition row_of (m : MatrixXd) (r : nat) : list Q :=
  omap (fun c : VectorXd => c !! r) m.

Definition normalize (norm : list Q -> Q) (m : MatrixXd) : option MatrixXd :=
  let norms := map (fun r => norm (row_of m r)) (seq 0 (rows m)) in
  if existsb (fun n => Qeq_bool n 0) norms then None
  else Some (map (fun c => zip_with Qdiv c norms) m).

(** The preparation of the matrix that follows
    [report_missing_conditions] in the constructor. *)

Inductive prepared : Type :=
| BinaryMatrix (m : MatrixXd) (cache : binary_cache)
| QuantitativeMatrix (m : MatrixXd) (col_names : list string).

Definition prepare_matrix (norm : list Q -> Q) (l : loaded)
  : option prepared :=
  col0 ← _gene_matrix l !! O;
  if is_binary col0 then
    Some (BinaryMatrix (_gene_matrix l) (cache_binary (_gene_matrix l) (_nrows l)))
  else
    '(m1, names) ← condition (_gene_matrix l) (_col_names l) (_condition_names l);
    m2 ← normalize norm m1;
    m3 ← rank_columns m2 (_nrows l);
    Some (QuantitativeMatrix m3 names).

(** ** The cap on the sizes of the user's genesets (constructor)

    [for (auto & size : _user_geneset_sizes) if (size > MAX_GENES)
    size = MAX_GENES;] *)

Definition MAX_GENES : Z := 10.

Definition cap_sizes (max_genes : Z) (sizes : list Z) : list Z :=
  map (fun size => if max_genes <? size then max_genes else size) sizes.

(** ** [split_string] (common.h)

    [std::getline(stream, item, delim)] takes the characters up to the
    next delimiter, which it drops, or up to the end of the input; it
    fails, and ends the loop, when the input is already at its end.  An
    item that the delimiter ends is therefore kept, also when it is
    empty, and nothing follows a delimiter that is the last character. *)

Fixpoint split_from (delim : ascii) (s : string) (item : string)
  : list string :=
  match s with
  | EmptyString => [item]
  | String c s' =>
      if Ascii.eqb c delim then
        item :: match s' with
                | EmptyString => []
                | String _ _ => split_from delim s' EmptyString
                end
      else split_from delim s' (item ++ String c EmptyString)
  end.

Definition split_string (s : string) (delim : ascii) : list string :=
  match s with
  | EmptyString => []
  | String _ _ => split_from delim s EmptyString
  end.

(** ** [report_user_snp_genes] (data.cpp)

    A line of [snp_genes.txt]; [None] is printed as [NA]. *)

Record snp_genes_row := {
  sg_chrom : option string;
  sg_start : option Z;
  sg_end : option Z;
  sg_snp : string;
  sg_n_genes : option Z;
  sg_genes : option (list string)
}.

Section ReportUserSnpGenes.

Variable _snp_intervals : gmap string genomic_interval.
Variable _row_names : list string.
Variable _user_absent_snp_names : NameSet.t.
Variable _user_naked_snp_names : NameSet.t.
Variable _user_snp_names : NameSet.t.
Variable _user_genesets : gmap string (list Z).

(** One round of the loop over the SNPs of a merged locus; [start == 0]
    and [end == 0] stand for "not set yet". *)
Definition merged_interval_step (acc : genomic_interval)
    (merged_snp : string) : genomic_interval :=
  let snp_interval := interval_of _snp_intervals merged_snp in
  {| chrom := chrom snp_interval;
     start := if (start acc =? 0) || (start snp_interval <? start acc)
              then start snp_interval else start acc;
     end_ := if (end_ acc =? 0) || (end_ acc <? end_ snp_interval)
             then end_ snp_interval else end_ acc |}.

Definition merged_interval (parts : list string) : genomic_interval :=
  fold_left merged_interval_step parts
            {| chrom := ""; start := 0; end_ := 0 |}.

Definition user_snp_interval (snp : string) : genomic_interval :=
  if has_comma snp then merged_interval (split_string snp ","%char)
  else interval_of _snp_intervals snp.

(** [_row_names.at(geneset.at(i))] for every [i]. *)
Fixpoint gene_names (geneset : list Z) : outcome (list string) :=
  match geneset with
  | [] => Ok []
  | gene_id :: rest =>
      match _row_names !! Z.to_nat gene_id with
      | None => OutOfRange
      | Some n =>
          match gene_names rest with
          | Ok names => Ok (n :: names)
          | OutOfRange => OutOfRange
          | Diverge => Diverge
          end
      end
  end.

Definition absent_row (snp : string) : snp_genes_row :=
  {| sg_chrom := None; sg_start := None; sg_end := None; sg_snp := snp;
     sg_n_genes := None; sg_genes := None |}.

Definition naked_row (snp : string) : snp_genes_row :=
  let snp_interval := interval_of _snp_intervals snp in
  {| sg_chrom := Some (chrom snp_interval);
     sg_start := Some (start snp_interval);
     sg_end := Some (end_ snp_interval);
     sg_snp := snp; sg_n_genes := Some 0; sg_genes := None |}.

Definition user_row (snp : string) : outcome snp_genes_row :=
  let iv := user_snp_interval snp in
  let geneset := default [] (_user_genesets !! snp) in
  match gene_names geneset with
  | Ok names =>
      Ok {| sg_chrom := Some (chrom iv); sg_start := Some (start iv);
            sg_end := Some (end_ iv); sg_snp := snp;
            sg_n_genes := Some (Z.of_nat (length geneset));
            sg_genes := Some names |}
  | OutOfRange => OutOfRange
  | Diverge => Diverge
  end.

(** The rows for the user's SNPs, up to the first exception. *)
Fixpoint user_rows (snps : list string) (written : list snp_genes_row)
  : list snp_genes_row * outcome unit :=
  match snps with
  | [] => (written, Ok tt)
  | snp :: rest =>
      match user_row snp with
      | Ok row => user_rows rest (written ++ [row])
      | OutOfRange => (written, OutOfRange)
      | Diverge => (written, Diverge)
      end
  end.

(** The lines written after the header, and how the call ends. *)
Definition report_user_snp_genes : list snp_genes_row * outcome unit :=
  user_rows _user_snp_names
            (map absent_row _user_absent_snp_names
             ++ map naked_row _user_naked_snp_names).

End ReportUserSnpGenes.

(** ** [report_scores] (data.cpp), quantitative matrix

    The body of the loop over the columns for one SNP, in the branch
    taken when the matrix is not binary.  [_row_names[gene_id]] is the
    unchecked access; [None] stands for a read outside the matrix or the
    vector. *)

Section ReportScores.

Variable _gene_matrix : MatrixXd.
Variable _row_names : list string.

Fixpoint min_gene_loop (col : nat) (geneset : list Z) (percentile : Q)
    (min_gene : string) : option (Q * string) :=
  match geneset with
  | [] => Some (percentile, min_gene)
  | gene_id :: rest =>
      v ← coeff _gene_matrix (Z.to_nat gene_id) col;
      match (v ?= percentile)%Q with
      | Lt =>
          n ← _row_names !! Z.to_nat gene_id;
          min_gene_loop col rest v n
      | _ => min_gene_loop col rest percentile min_gene
      end
  end.

(** Returns the columns [gene] and [score] of the line. *)
Definition report_score_quantitative (col : nat) (geneset : list Z)
  : option (string * Q) :=
  '(percentile, min_gene) ← min_gene_loop col geneset 1%Q "";
  let score :=
    match (percentile ?= 1)%Q with
    | Lt => (1 - (1 - percentile) ^ Z.of_nat (length geneset))%Q
    | _ => 1%Q
    end in
  Some (min_gene, score).

End ReportScores.

(** ** Reading a list of names: [Row::readNextRow] (common.h) and the
    loop of [read_names] (data.cpp)

    A line is cut at the tabs, and the blanks and carriage returns are
    taken out of every cell.  [None] stands for a read outside a row:
    [row[0]] on a row without cells, or [row[snp_col]] on a row that is
    too short. *)

Fixpoint remove_char (c : ascii) (s : string) : string :=
  match s with
  | EmptyString => EmptyString
  | String x s' =>
      if Ascii.eqb x c then remove_char c s' else String x (remove_char c s')
  end.

Definition readNextRow (line : string) : list string :=
  map (fun cell => remove_char "013"%char (remove_char " "%char cell))
      (split_string line "009"%char).

(** [row[0][0] == '#'] *)
Definition is_comment_cell (cell : string) : bool :=
  match cell with
  | EmptyString => false
  | String c _ => Ascii.eqb c "#"%char
  end.

Definition is_snp_label (cell : string) : bool :=
  String.eqb cell "SNP" || String.eqb cell "snp"
  || String.eqb cell "name" || String.eqb cell "marker".

(** The first position at or after [k] of a cell that names the column
    with the SNPs. *)
Fixpoint find_snp_label (row : list string) (k : nat) : option nat :=
  match row with
  | [] => None
  | cell :: rest =>
      if is_snp_label cell then Some k else find_snp_label rest (S k)
  end.

Record names_state := {
  found_snp : bool;
  snp_col : nat;
  inserted : list string
}.

Definition read_names_row (st : names_state) (row : list string)
  : option names_state :=
  first ← row !! O;
  if is_comment_cell first then Some st
  else if negb (found_snp st) then
    match find_snp_label row O with
    | Some k =>
        Some {| found_snp := true; snp_col := k; inserted := inserted st |}
    | None =>
        cell ← row !! snp_col st;
        Some {| found_snp := false; snp_col := snp_col st;
                inserted := inserted st ++ [cell] |}
    end
  else
    cell ← row !! snp_col st;
    Some {| found_snp := true; snp_col := snp_col st;
            inserted := inserted st ++ [cell] |}.

Fixpoint read_names_rows (rows : list (list string)) (st : names_state)
  : option names_state :=
  match rows with
  | [] => Some st
  | row :: rest =>
      st' ← read_names_row st row;
      read_names_rows rest st'
  end.

(** The cells that the loop inserts into the set, in the order of the
    lines of the file. *)
Definition read_names_cells (lines : list string) : option (list string) :=
  inserted <$> read_names_rows (map readNextRow lines)
                 {| found_snp := false; snp_col := 0; inserted := [] |}.

(** ** [random_snps] and [random_genesets] (data.cpp)

    The loop [while (names.size() < n)] has no bound on its rounds, so
    the function is given with a number of rounds it may take;
    [MoreRounds] says that the loop has not ended within them.  The
    comparison is between two unsigned numbers, the [int] [n] being
    converted.  [null_snps[r]] is the unchecked access;
    [OutsideVector] stands for a read outside the vector.  The static
    vector [null_snps] is the content of [_null_snp_names] in ascending
    order. *)

Inductive rounds (A : Type) : Type :=
| Done (a : A)
| OutsideVector
| MoreRounds.

Arguments Done {A} a.
Arguments OutsideVector {A}.
Arguments MoreRounds {A}.

Section RandomSnps.

Context {G : Type} `{UniformSource G}.

Variable _snp_intervals : gmap string genomic_interval.
Variable _gene_interval_tree : gmap string IntervalTree.
Variable _null_snp_names : NameSet.t.

Fixpoint random_snps_loop (fuel : nat) (n : Z) (slop : Z)
    (names : NameSet.t) (g : G) : rounds NameSet.t * G :=
  if NameSet.size names <? Ulong.wrap n then
    match fuel with
    | O => (MoreRounds, g)
    | S fuel' =>
        let null_snps := _null_snp_names in
        let '(r, g') :=
          uniform_int 0 (Ulong.sub (Z.of_nat (length null_snps)) 1) g in
        match null_snps !! Z.to_nat r with
        | None => (OutsideVector, g')
        | Some snp =>
            if decide (_snp_intervals !! snp = None) then
              random_snps_loop fuel' n slop names g'
            else
              let geneset :=
                snp_geneset _snp_intervals _gene_interval_tree snp slop in
              if Z.of_nat (length geneset) =? 0 then
                random_snps_loop fuel' n slop names g'
              else random_snps_loop fuel' n slop (NameSet.insert snp names) g'
        end
    end
  else (Done names, g).

(** [n] is the number that follows "random" in the file name. *)
Definition random_snps (fuel : nat) (n : Z) (slop : Z) (g : G)
  : rounds NameSet.t * G :=
  random_snps_loop fuel n slop NameSet.empty g.

Definition random_genesets (fuel : nat) (n : Z) (slop : Z) (g : G)
  : rounds (list (list Z)) * G :=
  match random_snps fuel n slop g with
  | (Done snps, g') =>
      (Done (List.filter
               (fun geneset => 0 <? Z.of_nat (length geneset))
               (map (fun snp => snp_geneset _snp_intervals
                                            _gene_interval_tree snp slop)
                    snps)),
       g')
  | (OutsideVector, g') => (OutsideVector, g')
  | (MoreRounds, g') => (MoreRounds, g')
  end.

End RandomSnps.

(** ** Notions used in the properties *)

(** The writes of one group of [rank_loop]: [indices[ord(i + j)] = r]. *)
Definition group_step (data : list (nat * Q)) (i : nat) (r : Q)
    (ind : VectorXd) (j : nat) : VectorXd :=
  match data !! (i + j)%nat with
  | Some q => <[q.1 := r]> ind
  | None => ind
  end.

(** What [rank_loop] has settled for the positions below [i]: the element
    at position [p] got the average rank of a group of equal values
    around [p]. *)
Definition settled (data : list (nat * Q)) (p : nat) (r : Q) : Prop :=
  exists i0 reps : nat,
    r = mean_rank i0 reps
    /\ (i0 <= p < i0 + reps)%nat /\ (i0 + reps <= length data)%nat
    /\ forall p' q0 q', (i0 <= p' < i0 + reps)%nat ->
                        data !! i0 = Some q0 -> data !! p' = Some q' ->
                        (q0.2 == q'.2)%Q.

Definition ranked_below (data : list (nat * Q)) (i : nat) (ind : VectorXd)
  : Prop :=
  length ind = length data
  /\ forall p q, (p < i)%nat -> data !! p = Some q ->
                 exists r, ind !! q.1 = Some r /\ settled data p r.

(** The positions [desc], largest first, deleted one after the other. *)
Fixpoint erase_positions {A : Type} (desc : list nat) (l : list A) : list A :=
  match desc with
  | [] => l
  | idx :: rest => erase_positions rest (delete idx l)
  end.

(** A strictly descending list of numbers below [n]. *)
Inductive descending_below : nat -> list nat -> Prop :=
| descending_nil (n : nat) : descending_below n []
| descending_cons (n idx : nat) (rest : list nat) :
    (idx < n)%nat -> descending_below idx rest ->
    descending_below n (idx :: rest).

(** What C1 says of a row, with the bound the code keeps. *)
Definition row_ok (bound : Z) (r : pvalue_row) : Prop :=
  (pvalue r == (inject_Z (nulls_observed r) + 1)
               / (inject_Z (nulls_tested r) + 1))%Q
  /\ 0 <= nulls_observed r <= nulls_tested r
  /\ nulls_tested r <= bound.

(** ** Sample inputs *)

(** A run on one column: one bin with one geneset, a score of 1 for every
    set of genesets. *)
Definition sample_bins : gmap Z (list (list Z)) := {[ 1 := [[0]] ]}.

Definition sample_score (_ : scorer) (_ : nat) (_ : list (list Z)) : Q := 1%Q.

Definition sample_run (min_observations max_iterations : Z)
  : outcome unit * sched_state Z :=
  calculate_pvalues sample_score sample_bins [1] ["c0"%string] false
    "single" [[0]] min_observations max_iterations 1 0 1
    {| generator := 42; stream := [] |}.

(** A SNP at chr1:1000-2000 and a gene at chr1:100-500, row 7 of the
    matrix. *)
Definition sample_snp_intervals : gmap string genomic_interval :=
  {[ "rs1"%string := {| chrom := "chr1"; start := 1000; end_ := 2000 |} ]}.

Definition sample_gene_tree : gmap string IntervalTree :=
  {[ "chr1"%string := [ {| i_start := 100; i_stop := 500; value := 7 |} ] ]}.

(** Three SNPs: rs3 shares gene 1 with rs1 and gene 2 with rs2. *)
Definition sample_user_genesets : gmap string (list Z) :=
  {[ "rs1"%string := [1]; "rs2"%string := [2]; "rs3"%string := [1; 2] ]}.

Definition sample_merge : merge_state :=
  merge_user_snps ["rs1"; "rs2"; "rs3"]%string sample_user_genesets.

(** One column of ranked values and one geneset with row 0. *)
Definition sample_ranked : MatrixXd := [[1 # 4; 2 # 4; 3 # 4; 4 # 4]]%Q.

(** A binary run: two genes, two conditions, and an interval for the
    first gene only.  Column 0 holds zeros and ones, column 1 does not. *)
Definition sample_binary_files : input_files :=
  {| null_snps_file := "null.txt";
     null_snps_content := Some ["rs1"%string];
     condition_file := "";
     condition_content := None;
     snp_intervals_file := "snps.bed";
     snp_intervals_content :=
       Some [ {| name := "rs1";
                 i := {| chrom := "chr1"; start := 1000; end_ := 2000 |} |} ];
     gene_matrix_file := "matrix.gct";
     gene_matrix_content :=
       Some {| gct_magic := "#1.2"; gct_rows := 2; gct_cols := 2;
               gct_row_names := ["g1"; "g2"]%string;
               gct_col_names := ["c0"; "c1"]%string;
               gct_data := [[0; 1]; [2; 0]]%Q |};
     gene_intervals_file := "genes.bed";
     gene_intervals_content :=
       Some [ {| name := "g1";
                 i := {| chrom := "chr1"; start := 100; end_ := 500 |} |} ] |}.

Definition sample_binary_loaded : loaded :=
  {| _null_snp_names := ["rs1"%string];
     _condition_names := [];
     _snp_intervals := sample_snp_intervals;
     _row_names := ["g1"; "g2"]%string;
     _col_names := ["c0"; "c1"]%string;
     _gene_matrix := [[0; 1]; [2; 0]]%Q;
     _nrows := 1;
     _gene_interval_tree :=
       {[ "chr1"%string := [ {| i_start := 100; i_stop := 500; value := 0 |} ] ]} |}.

(** The binary run again, now with a conditions file that names a column
    the matrix has and one it does not have. *)
Definition sample_condition_files : input_files :=
  {| null_snps_file := null_snps_file sample_binary_files;
     null_snps_content := null_snps_content sample_binary_files;
     condition_file := "conditions.txt";
     condition_content := Some ["c1"; "liver"]%string;
     snp_intervals_file := snp_intervals_file sample_binary_files;
     snp_intervals_content := snp_intervals_content sample_binary_files;
     gene_matrix_file := gene_matrix_file sample_binary_files;
     gene_matrix_content := gene_matrix_content sample_binary_files;
     gene_intervals_file := gene_intervals_file sample_binary_files;
     gene_intervals_content := gene_intervals_content sample_binary_files |}.

Definition sample_condition_loaded : loaded :=
  {| _null_snp_names := _null_snp_names sample_binary_loaded;
     _condition_names := ["c1"; "liver"]%string;
     _snp_intervals := _snp_intervals sample_binary_loaded;
     _row_names := _row_names sample_binary_loaded;
     _col_names := _col_names sample_binary_loaded;
     _gene_matrix := _gene_matrix sample_binary_loaded;
     _nrows := _nrows sample_binary_loaded;
     _gene_interval_tree := _gene_interval_tree sample_binary_loaded |}.

(** A quantitative run without conditions: two genes with the same
    values (3, 4), whose Euclidean norm is 5. *)
Definition sample_tied_loaded : loaded :=
  {| _null_snp_names := ["rs1"%string];
     _condition_names := [];
     _snp_intervals := sample_snp_intervals;
     _row_names := ["g1"; "g2"]%string;
     _col_names := ["c0"; "c1"]%string;
     _gene_matrix := [[3; 3]; [4; 4]]%Q;
     _nrows := 2;
     _gene_interval_tree := sample_gene_tree |}.

(** Three conditions on two genes, conditioned on B. *)
Definition sample_quantitative : MatrixXd := [[1; 0]; [1; 1]; [0; 2]]%Q.

(** ** Further notions used in the properties *)

(** Every size the user's loci have has a bin with genesets in it. *)
Definition bins_cover (_geneset_bins : gmap Z (list (list Z)))
    (_user_geneset_sizes : list Z) : Prop :=
  Forall (fun s => bin_of _geneset_bins s <> []
                   /\ Z.of_nat (length (bin_of _geneset_bins s)) < 2 ^ 64)
         _user_geneset_sizes.

(** A list of genesets with one geneset from the bin of every size. *)
Definition matched_draw (_geneset_bins : gmap Z (list (list Z)))
    (_user_geneset_sizes : list Z) (drawn : list (list Z)) : Prop :=
  Forall2 (fun s geneset => geneset ∈ bin_of _geneset_bins s)
          _user_geneset_sizes drawn.

(** A score that sets the genesets [[7]] apart from all others. *)
Definition sample_specific_score (_ : scorer) (_ : nat) (gs : list (list Z))
  : Q :=
  if decide (gs = [[7]]) then 1%Q else (1 # 2)%Q.

(** An interval of the tree of chromosome [c] stands for a row of the BED
    file, and the position it carries holds the name of that row. *)
Definition from_row (row_names : list string) (bed : list BEDRow)
    (c : string) (iv : Interval) : Prop :=
  0 <= value iv
  /\ exists row, row ∈ bed /\ chrom (i row) = c
                 /\ row_names !! Z.to_nat (value iv) = Some (name row)
                 /\ i_start iv = start (i row) /\ i_stop iv = end_ (i row).

(** No two SNPs of the list that have genesets share a gene. *)
Definition loci_disjoint (snp_names : NameSet.t)
    (user_genesets : gmap string (list Z)) : Prop :=
  forall a b ga gb,
    a ∈ snp_names -> b ∈ snp_names -> a <> b ->
    user_genesets !! a = Some ga -> user_genesets !! b = Some gb ->
    ~ share_gene ga gb.

(** Two SNPs with one gene each, not the same gene. *)
Definition sample_disjoint_genesets : gmap string (list Z) :=
  {[ "rs1"%string := [1]; "rs2"%string := [2] ]}.

(** The name of a merged locus: [merged_snp += "," + b] for every SNP
    that joins the locus of [a]. *)
Definition join_snps (a : string) (bs : list string) : string :=
  fold_left (fun acc b => (acc ++ "," ++ b)%string) bs a.

(** Two SNPs on chr1 whose intervals overlap. *)
Definition sample_locus_intervals : gmap string genomic_interval :=
  {[ "rs1"%string := {| chrom := "chr1"; start := 1000; end_ := 2000 |};
     "rs3"%string := {| chrom := "chr1"; start := 500; end_ := 1500 |} ]}.

(** The number of entries of [x] that are larger than [v], and the number
    of entries that are equal to [v]. *)
Definition is_above (v w : Q) : bool :=
  match (v ?= w)%Q with Lt => true | _ => false end.

Definition count_above (v : Q) (x : list Q) : nat :=
  length (List.filter (is_above v) x).

Definition count_equal (v : Q) (x : list Q) : nat :=
  length (List.filter (Qeq_bool v) x).

(** The outcome of the sort: no element is larger than one before it. *)
Definition descending (data : list (nat * Q)) : Prop :=
  StronglySorted (fun a b => (b.2 <= a.2)%Q) data.

(** The positions [i0 .. i0 + reps - 1] hold one value, and the positions
    next to them on either side hold another. *)
Definition full_group (data : list (nat * Q)) (i0 reps : nat) : Prop :=
  (1 <= reps)%nat /\ (i0 + reps <= length data)%nat
  /\ (forall p' q0 q', (i0 <= p' < i0 + reps)%nat ->
                       data !! i0 = Some q0 -> data !! p' = Some q' ->
                       (q0.2 == q'.2)%Q)
  /\ (forall q0 q', data !! i0 = Some q0 ->
                    data !! (i0 + reps)%nat = Some q' -> ~ (q0.2 == q'.2)%Q)
  /\ (forall q0 q', (0 < i0)%nat -> data !! i0 = Some q0 ->
                    data !! (i0 - 1)%nat = Some q' -> ~ (q0.2 == q'.2)%Q).

(** What [rank_loop] has done when it is about to start a group at
    position [i]. *)
Definition grouped_below (data : list (nat * Q)) (i : nat) (ind : VectorXd)
  : Prop :=
  length ind = length data
  /\ (forall p q, (p < i)%nat -> data !! p = Some q ->
                  exists i0 reps,
                    ind !! q.1 = Some (mean_rank i0 reps)
                    /\ (i0 <= p < i0 + reps)%nat /\ (i0 + reps <= i)%nat
                    /\ full_group data i0 reps)
  /\ (forall q q', (0 < i)%nat -> data !! i = Some q ->
                   data !! (i - 1)%nat = Some q' -> ~ (q.2 == q'.2)%Q).

(** The elements of [l], in order, without those at the positions listed
    in [idxs]; [k] is the position of the head of [l]. *)
Fixpoint without_positions {A : Type} (k : nat) (idxs : list nat)
    (l : list A) : list A :=
  match l with
  | [] => []
  | c :: l' =>
      if decide (k ∈ idxs) then without_positions (S k) idxs l'
      else c :: without_positions (S k) idxs l'
  end.

(** A score in the making that is not negative: a finite value that is
    at least 0, or a value that is not finite. *)
Definition nonnegative_score (score : double_val) : Prop :=
  match score with
  | Finite x => (0 <= x)%R
  | NonFinite => True
  end.

(** The cells at position [k] of the rows that are not comments. *)
Definition data_cells (k : nat) (rows : list (list string)) : list string :=
  omap (fun row : list string =>
          first ← row !! O;
          if is_comment_cell first then None else row !! k)
       rows.

(** A null SNP that [random_snps] may pick: it has an interval and
    overlaps at least one gene. *)
Definition eligible (_snp_intervals : gmap string genomic_interval)
    (_gene_interval_tree : gmap string IntervalTree)
    (_null_snp_names : NameSet.t) (slop : Z) (snp : string) : Prop :=
  snp ∈ _null_snp_names
  /\ is_Some (_snp_intervals !! snp)
  /\ snp_geneset _snp_intervals _gene_interval_tree snp slop <> [].

(** The ascending order of a [std::set] of names. *)
Definition name_lt (x y : string) : Prop := String.compare x y = Lt.

(** The row that [calculate_pvalues] writes for a column on which the
    user's SNPs score 0. *)
Definition untested_row (replicates replicate : Z) (n : string)
  : pvalue_row :=
  {| condition_name := n; pvalue := 1%Q; nulls_observed := 0;
     nulls_tested := 0;
     replicate_column := replicate_field replicates replicate |}.

(** The binary run with a conditions file whose one name, [c1], is a
    column of the matrix. *)
Definition sample_covered_files : input_files :=
  {| null_snps_file := null_snps_file sample_binary_files;
     null_snps_content := null_snps_content sample_binary_files;
     condition_file := "conditions.txt";
     condition_content := Some ["c1"%string];
     snp_intervals_file := snp_intervals_file sample_binary_files;
     snp_intervals_content := snp_intervals_content sample_binary_files;
     gene_matrix_file := gene_matrix_file sample_binary_files;
     gene_matrix_content := gene_matrix_content sample_binary_files;
     gene_intervals_file := gene_intervals_file sample_binary_files;
     gene_intervals_content := gene_intervals_content sample_binary_files |}.

Definition sample_covered_loaded : loaded :=
  {| _null_snp_names := _null_snp_names sample_binary_loaded;
     _condition_names := ["c1"%string];
     _snp_intervals := _snp_intervals sample_binary_loaded;
     _row_names := _row_names sample_binary_loaded;
     _col_names := _col_names sample_binary_loaded;
     _gene_matrix := _gene_matrix sample_binary_loaded;
     _nrows := _nrows sample_binary_loaded;
     _gene_interval_tree := _gene_interval_tree sample_binary_loaded |}.

(** Vectors over exact arithmetic: equality entry by entry, sum, and
    multiple. *)
Definition veq (u v : VectorXd) : Prop := Forall2 Qeq u v.

Definition vadd (u v : VectorXd) : VectorXd := zip_with Qplus u v.

Definition vscale (c : Q) (v : VectorXd) : VectorXd := Qmult c <$> v.

(** The linear combinations, with [R] rows, of the vectors [vs]. *)
Inductive in_span (R : nat) (vs : list VectorXd) : VectorXd -> Prop :=
  | span_zero : in_span R vs (replicate R 0%Q)
  | span_gen (v : VectorXd) : v ∈ vs -> in_span R vs v
  | span_add (u v : VectorXd) :
      in_span R vs u -> in_span R vs v -> in_span R vs (vadd u v)
  | span_scale (c : Q) (v : VectorXd) :
      in_span R vs v -> in_span R vs (vscale c v)
  | span_eq (u v : VectorXd) : in_span R vs u -> veq u v -> in_span R vs v.

(** No vector of [bs] is a linear combination of the vectors [before]
    and of those that precede it in [bs]. *)
Fixpoint independent_from (R : nat) (before bs : list VectorXd) : Prop :=
  match bs with
  | [] => True
  | b :: rest =>
      ~ in_span R before b /\ independent_from R (before ++ [b]) rest
  end.

(** The columns that [condition] reads under the condition names, in the
    order of the set. *)
Definition condition_columns (matrix : MatrixXd) (_col_names : list string)
    (col_names : NameSet.t) : list VectorXd :=
  omap (fun n => matrix !! find_index _col_names n) col_names.

(** Three samples in three conditions, two of them conditioned on. *)
Definition sample_conditioned : MatrixXd :=
  [[1; 0; 0]; [1; 1; 0]; [0; 1; 1]]%Q.

(** A matrix whose third column is twice the second. *)
Definition sample_collinear : MatrixXd := [[1; 1]; [1; 0]; [2; 0]]%Q.

(** * Properties *)

(** ** Machine integers *)

Lemma Ulong_wrap_small z : 0 <= z < Ulong.modulus -> Ulong.wrap z = z.
Proof. intros H. unfold Ulong.wrap. now apply Z.mod_small. Qed.

Lemma Ulong_wrap_range z : 0 <= Ulong.wrap z < Ulong.modulus.
Proof. unfold Ulong.wrap. apply Z.mod_pos_bound. reflexivity. Qed.

Lemma Ulong_modulus_val : Ulong.modulus = 18446744073709551616.
Proof. reflexivity. Qed.

(** ** Sets of names *)

Section NameSetFacts.

Lemma NameSet_insert_elem (x y : string) (s : NameSet.t) :
  y ∈ NameSet.insert x s <-> y = x \/ y ∈ s.
Proof.
  induction s as [|z s IH]; cbn [NameSet.insert].
  - rewrite list_elem_of_singleton, elem_of_nil. tauto.
  - destruct (String.compare x z) eqn:Hc.
    + apply String.compare_eq_iff in Hc. subst z.
      rewrite elem_of_cons. tauto.
    + rewrite !elem_of_cons. tauto.
    + rewrite !elem_of_cons, IH. tauto.
Qed.

Lemma NameSet_of_list_from (l : list string) :
  forall (s : NameSet.t) (y : string),
    y ∈ fold_left (fun s x => NameSet.insert x s) l s <-> y ∈ l \/ y ∈ s.
Proof.
  induction l as [|x l IH]; intros s y; cbn [fold_left].
  - rewrite elem_of_nil. tauto.
  - rewrite IH, NameSet_insert_elem, elem_of_cons. tauto.
Qed.

Lemma NameSet_of_list_elem (l : list string) (y : string) :
  y ∈ NameSet.of_list l <-> y ∈ l.
Proof.
  unfold NameSet.of_list. rewrite NameSet_of_list_from.
  unfold NameSet.empty. rewrite elem_of_nil. tauto.
Qed.

Lemma NameSet_count_zero (x : string) (s : NameSet.t) :
  (NameSet.count x s =? 0)%Z = true <-> x ∉ s.
Proof.
  unfold NameSet.count.
  destruct (existsb (String.eqb x) s) eqn:He.
  - apply existsb_exists in He as (y & Hy & Heq).
    apply String.eqb_eq in Heq. subst y.
    apply list_elem_of_In in Hy. split; [discriminate | tauto].
  - split; [|reflexivity]. intros _ Hin.
    apply list_elem_of_In in Hin.
    assert (existsb (String.eqb x) s = true); [|congruence].
    apply existsb_exists. exists x. split; [exact Hin|].
    apply String.eqb_refl.
Qed.

Lemma NameSet_set_difference_elem (a b : NameSet.t) (x : string) :
  x ∈ NameSet.set_difference a b <-> x ∈ a /\ x ∉ b.
Proof.
  unfold NameSet.set_difference.
  rewrite !list_elem_of_In, filter_In, <- !list_elem_of_In.
  rewrite NameSet_count_zero. tauto.
Qed.

Lemma NameSet_insert_length (x : string) (s : NameSet.t) :
  (length (NameSet.insert x s) <= S (length s))%nat.
Proof.
  induction s as [|z s IH]; cbn [NameSet.insert length]; [lia|].
  destruct (String.compare x z); cbn [length]; lia.
Qed.

Lemma NameSet_of_list_length (l : list string) :
  (length (NameSet.of_list l) <= length l)%nat.
Proof.
  unfold NameSet.of_list.
  enough (forall s, (length (fold_left (fun s x => NameSet.insert x s) l s)
                     <= length l + length s)%nat) as Hg.
  { specialize (Hg NameSet.empty). cbn [NameSet.empty length] in Hg. lia. }
  induction l as [|x l IH]; intros s; cbn [fold_left length]; [lia|].
  specialize (IH (NameSet.insert x s)).
  pose proof (NameSet_insert_length x s). lia.
Qed.

End NameSetFacts.

(** ** The batch sizes *)

Section IterationsFacts.

Local Open Scope Z_scope.

Lemma Zsum_app l1 l2 : Zsum (l1 ++ l2) = Zsum l1 + Zsum l2.
Proof.
  unfold Zsum. induction l1 as [|x l1 IH]; simpl; [reflexivity|].
  rewrite IH. lia.
Qed.

Lemma doubling_S start k :
  doubling start (S k) = doubling start k ++ [start * 2 ^ Z.of_nat (S k)].
Proof.
  unfold doubling. rewrite (seq_S (S k) 0), map_app. reflexivity.
Qed.

Lemma Zsum_doubling start k :
  Zsum (doubling start k) = start * (2 ^ (Z.of_nat k + 1) - 1).
Proof.
  induction k as [|k IH].
  - unfold doubling, Zsum. simpl. lia.
  - rewrite doubling_S, Zsum_app, IH. unfold Zsum at 1. simpl fold_right.
    replace (Z.of_nat (S k) + 1) with (Z.of_nat (S k) + 1)%Z by reflexivity.
    rewrite Nat2Z.inj_succ.
    rewrite !Z.pow_add_r, !Z.pow_succ_r by lia. lia.
Qed.

(** While the running sum stays below [2^63], at most 55 doublings of
    100 have happened. *)
Lemma doublings_bounded (k : nat) :
  100 * (2 ^ (Z.of_nat k + 1) - 1) < 2 ^ 63 -> (k <= 55)%nat.
Proof.
  intros Hlt.
  destruct (le_gt_dec k 55) as [Hk|Hk]; [exact Hk|exfalso].
  assert (2 ^ 57 <= 2 ^ (Z.of_nat k + 1)) by (apply Z.pow_le_mono_r; lia).
  assert (2 ^ 57 = 144115188075855872) by reflexivity.
  assert (2 ^ 63 = 9223372036854775808) by reflexivity.
  lia.
Qed.

Lemma pow2_le_57 (k : nat) : (k <= 55)%nat -> 0 < 2 ^ (Z.of_nat k + 1) <= 2 ^ 56.
Proof.
  intros Hk. split.
  - apply Z.pow_pos_nonneg; lia.
  - apply Z.pow_le_mono_r; lia.
Qed.

Lemma iterations_loop_spec (fuel k : nat) (max : Z) :
  (65 <= fuel + k)%nat ->
  100 * (2 ^ (Z.of_nat k + 1) - 1) <= max < 2 ^ 63 ->
  exists (k' : nat) (last : Z),
    iterations_loop fuel (100 * 2 ^ Z.of_nat k)
                    (100 * (2 ^ (Z.of_nat k + 1) - 1)) max (doubling 100 k)
    = Some (doubling 100 k' ++ [last])
    /\ 0 <= last <= 2 * (100 * 2 ^ Z.of_nat k')
    /\ Zsum (doubling 100 k' ++ [last]) = max.
Proof.
  revert k. induction fuel as [|fuel IH]; intros k Hfuel [Hsum Hmax].
  - assert (k <= 55)%nat by (apply doublings_bounded; lia). lia.
  - assert (Hk : (k <= 55)%nat) by (apply doublings_bounded; lia).
    pose proof (pow2_le_57 k Hk) as [Hpos Hle].
    assert (H56 : 2 ^ 56 = 72057594037927936) by reflexivity.
    assert (H63 : 2 ^ 63 = 9223372036854775808) by reflexivity.
    assert (Hp : 2 ^ (Z.of_nat k + 1) = 2 * 2 ^ Z.of_nat k)
      by (rewrite Z.pow_add_r by lia; lia).
    assert (Hmul : Ulong.mul (100 * 2 ^ Z.of_nat k) 2
                   = 100 * 2 ^ Z.of_nat (S k)).
    { unfold Ulong.mul. rewrite Ulong_wrap_small.
      - rewrite Nat2Z.inj_succ, Z.pow_succ_r by lia. lia.
      - rewrite Ulong_modulus_val. lia. }
    assert (Hadd : Ulong.add (100 * (2 ^ (Z.of_nat k + 1) - 1))
                             (100 * 2 ^ Z.of_nat (S k))
                   = 100 * (2 ^ (Z.of_nat (S k) + 1) - 1)).
    { unfold Ulong.add. rewrite Ulong_wrap_small.
      - rewrite !Nat2Z.inj_succ, !Z.pow_add_r, !Z.pow_succ_r by lia. lia.
      - rewrite Ulong_modulus_val, Nat2Z.inj_succ, Z.pow_succ_r by lia. lia. }
    cbn [iterations_loop]. rewrite Hmul, Hadd.
    destruct (Z.ltb_spec (100 * (2 ^ (Z.of_nat (S k) + 1) - 1)) max) as [Hc|Hc].
    + rewrite <- doubling_S.
      apply (IH (S k)); lia.
    + exists k, (max - 100 * (2 ^ (Z.of_nat k + 1) - 1)).
      unfold Ulong.sub. rewrite Ulong_wrap_small
        by (rewrite Ulong_modulus_val; lia).
      split; [reflexivity|]. split.
      * revert Hc. rewrite !Nat2Z.inj_succ, !Z.pow_add_r, !Z.pow_succ_r by lia.
        lia.
      * rewrite Zsum_app, Zsum_doubling. unfold Zsum. simpl. lia.
Qed.

End IterationsFacts.

(** The shape of the batches for a limit that a positive [long] holds. *)
Lemma iterations_shape (max_iterations : Z) :
  1 <= max_iterations < 2 ^ 63 ->
  exists (k : nat) (last : Z),
    iterations 100 max_iterations = Some (doubling 100 k ++ [last])
    /\ 0 <= last <= 2 * (100 * 2 ^ Z.of_nat k)
    /\ Zsum (doubling 100 k ++ [last]) = Z.max 100 max_iterations.
Proof.
  intros Hrange. unfold iterations.
  apply (iterations_loop_spec 65 0 (Z.max 100 max_iterations)).
  - lia.
  - change (2 ^ (Z.of_nat 0 + 1)) with 2.
    assert (2 ^ 63 = 9223372036854775808) by reflexivity. lia.
Qed.

(** C2 (as the code has it).  For every [max_iterations] a positive [long]
    can hold, [iterations(100, max_iterations)] returns the batches
    [100, 200, ..., 100 * 2^k] followed by one last batch that is at most
    twice its predecessor (it may be 0), and the batches add up to
    [max(100, max_iterations)]: to at most [max_iterations] exactly when
    [max_iterations] is at least 100. *)
Theorem iterations_batches (max_iterations : Z) :
  1 <= max_iterations < 2 ^ 63 ->
  exists (k : nat) (last : Z),
    iterations 100 max_iterations = Some (doubling 100 k ++ [last])
    /\ 0 <= last <= 2 * (100 * 2 ^ Z.of_nat k)
    /\ Zsum (doubling 100 k ++ [last]) = Z.max 100 max_iterations
    /\ (Zsum (doubling 100 k ++ [last]) <= max_iterations
        <-> 100 <= max_iterations).
Proof.
  intros Hrange.
  destruct (iterations_shape max_iterations Hrange)
    as (k & last & Hrun & Hlast & Hsum).
  exists k, last. split; [exact Hrun|]. split; [exact Hlast|].
  split; [exact Hsum|]. rewrite Hsum. lia.
Qed.

Lemma iterations_batches_witness :
  1 <= 1000 < 2 ^ 63 /\
  exists (k : nat) (last : Z),
    iterations 100 1000 = Some (doubling 100 k ++ [last])
    /\ 0 <= last <= 2 * (100 * 2 ^ Z.of_nat k)
    /\ Zsum (doubling 100 k ++ [last]) = Z.max 100 1000
    /\ (Zsum (doubling 100 k ++ [last]) <= 1000 <-> 100 <= 1000).
Proof.
  split; [split; [lia | reflexivity] |].
  apply (iterations_batches 1000). split; [lia | reflexivity].
Defined.

(** C2 fails below 100: for [max_iterations = 1] the batches are
    [100; 0], which add up to 100. *)
Lemma iterations_sum_counterexample :
  1 <= 1 /\
  exists l, iterations 100 1 = Some l /\ l = [100; 0] /\ ~ Zsum l <= 1.
Proof.
  split; [lia|]. exists [100; 0]. split; [reflexivity|].
  split; [reflexivity|]. unfold Zsum. simpl. lia.
Qed.

(** ** The permutation scheduler *)

Lemma lcg_in_range : uniform_in_range Z.
Proof.
  intros a b g Hab. cbn [uniform_int lcg_source]. unfold lcg_draw. cbn [fst].
  pose proof (Z.mod_pos_bound g (Z.max 1 (b - a + 1))). lia.
Qed.

Section SchedulerFacts.

Context {G : Type} `{UniformSource G}.

Variable call_score : scorer -> nat -> list (list Z) -> Q.
Variable _geneset_bins : gmap Z (list (list Z)).
Variable _user_geneset_sizes : list Z.
Variable _col_names : list string.
Variable _binary_gene_matrix : bool.

Local Abbreviation run_batch' := (run_batch call_score _geneset_bins _user_geneset_sizes).
Local Abbreviation run_batches' :=
  (run_batches call_score _geneset_bins _user_geneset_sizes).
Local Abbreviation calculate_column' :=
  (calculate_column call_score _geneset_bins _user_geneset_sizes _col_names).

Lemma draw_matched_stream (st : sched_state G) :
  stream (draw_matched _geneset_bins _user_geneset_sizes st).2 = stream st.
Proof.
  unfold draw_matched.
  destruct (matched_genesets _ _ _) as [r g]. reflexivity.
Qed.

(** A batch writes nothing and adds between 0 and [count] exceedances. *)
Lemma run_batch_spec sf col us (count : nat) :
  forall observed (st : sched_state G),
    stream (run_batch' sf col us count observed st).2 = stream st
    /\ forall o, (run_batch' sf col us count observed st).1 = Ok o ->
                 observed <= o <= observed + Z.of_nat count.
Proof.
  induction count as [|count IH]; intros observed st.
  - cbn. split; [reflexivity|]. intros o [= <-]. lia.
  - cbn [run_batch]. unfold sched_bind.
    pose proof (draw_matched_stream st) as Hd.
    destruct (draw_matched _ _ st) as [[gs| |] st1]; cbn [snd] in Hd.
    + destruct (IH (if Qle_bool us (call_score sf col gs)
                    then observed + 1 else observed) st1) as [Hs Ho].
      split; [congruence|].
      intros o Heq. specialize (Ho o Heq).
      destruct (Qle_bool us (call_score sf col gs)); lia.
    + cbn. split; [assumption | discriminate].
    + cbn. split; [assumption | discriminate].
Qed.

(** The batches write nothing; the counters grow together and
    [nulls_tested] by no more than the sum of the batch sizes. *)
Lemma run_batches_spec sf col us min_observations (counts : list Z) :
  Forall (fun c => 0 <= c) counts ->
  forall o0 t0 (st : sched_state G),
    stream (run_batches' sf col us min_observations counts o0 t0 st).2
    = stream st
    /\ forall r,
        (run_batches' sf col us min_observations counts o0 t0 st).1 = Ok r ->
        o0 <= r.1 /\ r.1 - o0 <= r.2 - t0 /\ r.2 - t0 <= Zsum counts.
Proof.
  induction 1 as [|count counts Hc Hcs IH]; intros o0 t0 st.
  - cbn. split; [reflexivity|]. intros r [= <-]. cbn. unfold Zsum. cbn. lia.
  - cbn [run_batches]. unfold sched_bind.
    destruct (run_batch_spec sf col us (Z.to_nat count) o0 st) as [Hs Ho].
    destruct (run_batch' sf col us (Z.to_nat count) o0 st)
      as [[o1| |] st1]; cbn [fst snd] in *.
    + specialize (Ho o1 eq_refl). rewrite Z2Nat.id in Ho by assumption.
      destruct (min_observations <=? o1).
      * cbn. split; [assumption|]. intros r [= <-]. cbn.
        unfold Zsum in *. cbn. pose proof (Forall_forall (fun c => 0 <= c) counts).
        assert (0 <= fold_right Z.add 0 counts).
        { clear -Hcs. induction Hcs; cbn; lia. }
        lia.
      * destruct (IH o1 (t0 + count) st1) as [Hs' Hr].
        split; [congruence|]. intros r Heq. specialize (Hr r Heq).
        unfold Zsum in *. cbn. lia.
    + split; [assumption | discriminate].
    + split; [assumption | discriminate].
Qed.

Lemma col_name_at_stream col (st : sched_state G) :
  (col_name_at _col_names col st).2 = st.
Proof. unfold col_name_at. destruct (_col_names !! col); reflexivity. Qed.

Lemma iterations_nonneg (max_iterations : Z) counts :
  1 <= max_iterations < 2 ^ 63 ->
  iterations 100 (Ulong.wrap max_iterations) = Some counts ->
  Forall (fun c => 0 <= c) counts /\ Zsum counts = Z.max 100 max_iterations.
Proof.
  intros Hrange.
  assert (2 ^ 63 = 9223372036854775808) by reflexivity.
  rewrite Ulong_wrap_small by (rewrite Ulong_modulus_val; lia).
  destruct (iterations_shape max_iterations Hrange)
    as (k & last & Hrun & Hlast & Hsum).
  rewrite Hrun. intros Heq.
  assert (counts = doubling 100 k ++ [last]) as -> by congruence.
  split; [|exact Hsum].
  apply Forall_app_2.
  - unfold doubling. apply Forall_forall. intros x Hx.
    apply list_elem_of_In, in_map_iff in Hx. destruct Hx as (j & <- & _).
    assert (0 < 2 ^ Z.of_nat j) by (apply Z.pow_pos_nonneg; lia). lia.
  - repeat constructor. lia.
Qed.

(** One column adds at most one row, and a row it adds is as C1 has it,
    up to the bound. *)
Lemma calculate_column_rows sf genesets min_observations max_iterations
    replicates replicate col (st : sched_state G) :
  1 <= max_iterations < 2 ^ 63 ->
  exists rows,
    stream (calculate_column' sf genesets min_observations max_iterations
                             replicates replicate col st).2
    = stream st ++ rows
    /\ Forall (row_ok (Z.max 100 max_iterations)) rows.
Proof.
  intros Hrange. unfold calculate_column.
  destruct (Qle_bool (call_score sf col genesets) 0).
  - unfold sched_bind. pose proof (col_name_at_stream col st) as Hn.
    destruct (col_name_at _col_names col st) as [[n| |] st1];
      cbn [snd] in Hn; subst st1.
    + eexists [_]. split; [reflexivity|]. repeat constructor; cbn; lia.
    + exists []. rewrite app_nil_r. split; [reflexivity | constructor].
    + exists []. rewrite app_nil_r. split; [reflexivity | constructor].
  - destruct (iterations 100 (Ulong.wrap max_iterations)) as [counts|] eqn:Hit.
    + destruct (iterations_nonneg max_iterations counts Hrange Hit)
        as [Hpos Hsum].
      unfold sched_bind.
      destruct (run_batches_spec sf col (call_score sf col genesets)
                  min_observations counts Hpos 0 0 st) as [Hs Hr].
      destruct (run_batches' sf col (call_score sf col genesets)
                  min_observations counts 0 0 st) as [[r| |] st1];
        cbn [fst snd] in *.
      * specialize (Hr r eq_refl).
        pose proof (col_name_at_stream col st1) as Hn.
        destruct (col_name_at _col_names col st1) as [[n| |] st2];
          cbn [snd] in Hn; subst st2.
        -- eexists [_]. cbn [sched_write snd stream]. rewrite Hs.
           split; [reflexivity|]. repeat constructor; cbn; lia.
        -- exists []. rewrite app_nil_r. split; [assumption | constructor].
        -- exists []. rewrite app_nil_r. split; [assumption | constructor].
      * exists []. rewrite app_nil_r. split; [assumption | constructor].
      * exists []. rewrite app_nil_r. split; [assumption | constructor].
    + exists []. rewrite app_nil_r. split; [reflexivity | constructor].
Qed.

Lemma calculate_columns_rows (body : nat -> Sched G unit) (P : pvalue_row -> Prop) :
  (forall col st, exists rows,
      stream (body col st).2 = stream st ++ rows /\ Forall P rows) ->
  forall columns st,
    Forall P (stream st) ->
    Forall P (stream (calculate_columns body columns st).2).
Proof.
  intros Hbody columns.
  induction columns as [|col columns IH]; intros st Hst; [exact Hst|].
  cbn [calculate_columns]. unfold sched_bind.
  destruct (Hbody col st) as (rows & Hrows & Hok).
  destruct (body col st) as [[[]| |] st1]; cbn [snd] in *.
  - apply IH. rewrite Hrows. apply Forall_app. split; assumption.
  - rewrite Hrows. apply Forall_app. split; assumption.
  - rewrite Hrows. apply Forall_app. split; assumption.
Qed.

End SchedulerFacts.

(** C1 (as the code has it).  Every row that [calculate_pvalues] writes,
    the row of the [user_score <= 0] short cut included, has
    [pvalue = (nulls_observed + 1) / (nulls_tested + 1)] and
    [0 <= nulls_observed <= nulls_tested <= max(100, max_iterations)];
    the last bound is [max_iterations] once that is 100 or more. *)
Theorem calculate_pvalues_rows {G : Type} `{UniformSource G}
    (call_score : scorer -> nat -> list (list Z) -> Q)
    (_geneset_bins : gmap Z (list (list Z))) (_user_geneset_sizes : list Z)
    (_col_names : list string) (_binary_gene_matrix : bool)
    (score_method : string) (genesets : list (list Z))
    (min_observations max_iterations replicates replicate : Z) (ncols : nat)
    (st : sched_state G) :
  1 <= max_iterations < 2 ^ 63 ->
  Forall (row_ok (Z.max 100 max_iterations)) (stream st) ->
  Forall (row_ok (Z.max 100 max_iterations))
         (stream (calculate_pvalues call_score _geneset_bins
                    _user_geneset_sizes _col_names _binary_gene_matrix
                    score_method genesets min_observations max_iterations
                    replicates replicate ncols st).2).
Proof.
  intros Hrange Hst. unfold calculate_pvalues.
  apply calculate_columns_rows; [|exact Hst].
  intros col st'. apply calculate_column_rows. exact Hrange.
Qed.

Lemma calculate_pvalues_rows_witness :
  1 <= 1000 < 2 ^ 63 /\
  Forall (row_ok (Z.max 100 1000)) (stream (sample_run 25 1000).2).
Proof.
  assert (Hr : 1 <= 1000 < 2 ^ 63) by (split; [lia | reflexivity]).
  split; [exact Hr|].
  apply (calculate_pvalues_rows sample_score sample_bins [1] ["c0"%string]
           false "single" [[0]] 25 1000 1 0 1
           {| generator := 42; stream := [] |} Hr).
  constructor.
Defined.

(** The sample run with [max_iterations = 1000]: every null set scores as
    much as the user's, so the first batch ends the test of the column. *)
Example sample_run_row :
  stream (sample_run 25 1000).2
  = [ {| condition_name := "c0"; pvalue := 101 # 101;
         nulls_observed := 100; nulls_tested := 100;
         replicate_column := None |} ].
Proof. vm_compute. reflexivity. Qed.

(** C1 fails below 100: with [max_iterations = 50] and
    [min_observations = 25] the first batch already tests 100 null sets. *)
Lemma nulls_tested_counterexample :
  exists row,
    sample_run 25 50 = (Ok tt, {| generator := generator (sample_run 25 50).2;
                                  stream := [row] |})
    /\ nulls_tested row = 100
    /\ ~ nulls_tested row <= 50.
Proof.
  eexists. split; [vm_compute; reflexivity|]. split; [reflexivity|]. cbn. lia.
Qed.

(** ** The size-matched sampler *)

Section SamplerFacts.

Context {G : Type} `{UniformSource G}.

Variable _geneset_bins : gmap Z (list (list Z)).

Lemma draw_bound_empty (s : Z) :
  bin_of _geneset_bins s = [] -> draw_bound _geneset_bins s = 2 ^ 64 - 1.
Proof. intros Hs. unfold draw_bound. rewrite Hs. reflexivity. Qed.

Lemma draw_bound_nonempty (s : Z) :
  bin_of _geneset_bins s <> [] ->
  Z.of_nat (length (bin_of _geneset_bins s)) < 2 ^ 64 ->
  draw_bound _geneset_bins s = Z.of_nat (length (bin_of _geneset_bins s)) - 1.
Proof.
  intros Hne Hlt. unfold draw_bound, Ulong.sub.
  destruct (bin_of _geneset_bins s) as [|x l]; [congruence|].
  apply Ulong_wrap_small. cbn [length] in *. unfold Ulong.modulus. lia.
Qed.

(** With an empty bin among the sizes the loop ends in the exception,
    whatever it has collected before. *)
Lemma matched_genesets_from_empty_bin (sizes : list Z) :
  (exists s, s ∈ sizes /\ bin_of _geneset_bins s = []) ->
  forall acc g,
    (matched_genesets_from _geneset_bins sizes acc g).1 = OutOfRange.
Proof.
  induction sizes as [|s0 sizes IH]; intros (s & Hin & Hempty) acc g.
  - inversion Hin.
  - cbn [matched_genesets_from].
    destruct (uniform_int 0 (draw_bound _geneset_bins s0) g) as [r g'].
    destruct (bin_of _geneset_bins s0 !! Z.to_nat r) as [geneset|] eqn:Hlook;
      [|reflexivity].
    apply IH. exists s. split; [|exact Hempty].
    apply elem_of_cons in Hin as [->|Hin]; [|exact Hin].
    rewrite Hempty in Hlook. discriminate.
Qed.

(** With every bin in use non-empty the call returns one geneset per
    size, each taken from the bin of that size. *)
Lemma matched_genesets_from_ok (sizes : list Z) :
  uniform_in_range G ->
  Forall (fun s => bin_of _geneset_bins s <> []
                   /\ Z.of_nat (length (bin_of _geneset_bins s)) < 2 ^ 64)
         sizes ->
  forall acc g, exists drawn,
    (matched_genesets_from _geneset_bins sizes acc g).1 = Ok (acc ++ drawn)
    /\ Forall2 (fun s geneset => geneset ∈ bin_of _geneset_bins s) sizes drawn.
Proof.
  intros Hrange.
  induction 1 as [|s sizes [Hne Hlt] Hall IH]; intros acc g.
  - exists []. rewrite app_nil_r. split; [reflexivity | constructor].
  - cbn [matched_genesets_from].
    pose proof (Hrange 0 (draw_bound _geneset_bins s) g) as Hr.
    rewrite (draw_bound_nonempty s Hne Hlt) in *.
    destruct (uniform_int 0 _ g) as [r g']. cbn [fst] in Hr.
    assert (Hpos : 0 < Z.of_nat (length (bin_of _geneset_bins s))).
    { destruct (bin_of _geneset_bins s); [congruence | cbn; lia]. }
    destruct (lookup_lt_is_Some_2 (bin_of _geneset_bins s) (Z.to_nat r))
      as [geneset Hlook]; [lia|].
    rewrite Hlook.
    destruct (IH (acc ++ [geneset]) g') as (drawn & Hrun & Hin).
    exists (geneset :: drawn). rewrite Hrun, <- app_assoc. split; [reflexivity|].
    constructor; [|exact Hin]. eapply list_elem_of_lookup_2. exact Hlook.
Qed.

End SamplerFacts.

(** C10.  When some size among the user's (clamped) geneset sizes has an
    empty bin, [matched_genesets] returns no genesets: it ends in the
    [std::out_of_range] of [vector::at], and the upper bound given to the
    distribution for such a size is [2^64 - 1]. *)
Theorem matched_genesets_empty_bin {G : Type} `{UniformSource G}
    (_geneset_bins : gmap Z (list (list Z))) (_user_geneset_sizes : list Z)
    (g : G) :
  (exists s, s ∈ _user_geneset_sizes /\ bin_of _geneset_bins s = []) ->
  (matched_genesets _geneset_bins _user_geneset_sizes g).1 = OutOfRange
  /\ forall s, s ∈ _user_geneset_sizes -> bin_of _geneset_bins s = [] ->
               draw_bound _geneset_bins s = 18446744073709551615.
Proof.
  intros Hempty. split.
  - unfold matched_genesets. now apply matched_genesets_from_empty_bin.
  - intros s _ Hs. now apply draw_bound_empty.
Qed.

Lemma matched_genesets_empty_bin_witness :
  (exists s, s ∈ [1; 2] /\ bin_of sample_bins s = []) /\
  (matched_genesets sample_bins [1; 2] 42).1 = OutOfRange.
Proof.
  assert (Hex : exists s, s ∈ [1; 2] /\ bin_of sample_bins s = []).
  { exists 2. split; [|reflexivity]. apply elem_of_cons. right.
    apply elem_of_cons. left. reflexivity. }
  split; [exact Hex|].
  exact (proj1 (matched_genesets_empty_bin sample_bins [1; 2] 42 Hex)).
Defined.

(** ** The SNP to geneset resolver *)

Section ResolverFacts.

Variable _snp_intervals : gmap string genomic_interval.
Variable _gene_interval_tree : gmap string IntervalTree.

(** The first query is the SNP's own interval, and a second query is
    sent exactly when the first finds no gene. *)
Lemma snp_geneset_queries (snp : string) (slop : Z) (iv : genomic_interval) :
  _snp_intervals !! snp = Some iv ->
  let tree := tree_of _gene_interval_tree (chrom iv) in
  let exact := {| q_chrom := chrom iv; q_start := start iv; q_stop := end_ iv |} in
  let widened := {| q_chrom := chrom iv;
                    q_start := Z.max 1 (Ulong.sub (start iv) slop);
                    q_stop := Ulong.add (end_ iv) slop |} in
  (snp_geneset_traced _snp_intervals _gene_interval_tree snp slop).1
  = if decide (findOverlapping tree (start iv) (end_ iv) [] = [])
    then [exact; widened] else [exact].
Proof.
  intros Hiv tree exact widened. unfold snp_geneset_traced, interval_of.
  rewrite Hiv. change (default default_interval (Some iv)) with iv.
  subst tree exact widened.
  destruct (findOverlapping _ (start iv) (end_ iv) []) as [|x l] eqn:Hq.
  - rewrite decide_True by reflexivity. reflexivity.
  - rewrite decide_False by discriminate. reflexivity.
Qed.

(** When [slop] does not exceed [start], the low end of the second query
    is [start - slop] raised to 1. *)
Lemma widened_low_end_no_wrap (s slop : Z) :
  0 <= slop <= s -> s < 2 ^ 64 ->
  Z.max 1 (Ulong.sub s slop) = Z.max 1 (s - slop).
Proof.
  intros Hr Hs. unfold Ulong.sub. rewrite Ulong_wrap_small; [reflexivity|].
  unfold Ulong.modulus. lia.
Qed.

(** When [slop] exceeds [start], the subtraction wraps and the low end
    lies far above every coordinate. *)
Lemma widened_low_end_wraps (s slop : Z) :
  0 <= s < slop -> slop < 2 ^ 64 ->
  Z.max 1 (Ulong.sub s slop) = 2 ^ 64 - (slop - s).
Proof.
  intros Hr Hs. unfold Ulong.sub, Ulong.wrap, Ulong.modulus.
  replace (s - slop) with (2 ^ 64 - (slop - s) + (-1) * 2 ^ 64) by lia.
  rewrite Z.mod_add by lia. rewrite Z.mod_small by lia. lia.
Qed.

End ResolverFacts.

(** C5 at a SNP whose start is below the slop: the second query has
    [2^64 - 249000] as its low end, not 1, and misses the gene that the
    range [1 .. 252000] contains. *)
Theorem snp_geneset_slop_wraps :
  snp_geneset_traced sample_snp_intervals sample_gene_tree "rs1" 250000
  = ([ {| q_chrom := "chr1"; q_start := 1000; q_stop := 2000 |};
       {| q_chrom := "chr1"; q_start := 18446744073709302616;
          q_stop := 252000 |} ],
     [])
  /\ map value (findOverlapping (tree_of sample_gene_tree "chr1")
                                (Z.max 1 (1000 - 250000)) (2000 + 250000) [])
     = [7].
Proof. split; vm_compute; reflexivity. Qed.

(** ** Merging the user's SNPs *)

(** C3 at three SNPs.  The pass for rs1 meets rs2 before rs3 has brought
    gene 2 in, and the pass for rs2 skips the two merged SNPs: the loci
    "rs1,rs3" and "rs2" both leave the function, and both hold gene 2. *)
Theorem merge_user_snps_shared_gene :
  new_snp_names sample_merge = ["rs1,rs3"; "rs2"]%string
  /\ new_genesets sample_merge !! "rs1,rs3"%string = Some [1; 2]
  /\ new_genesets sample_merge !! "rs2"%string = Some [2]
  /\ new_geneset_sizes sample_merge = [2; 1]
  /\ share_gene [1; 2] [2].
Proof.
  repeat split; try (vm_compute; reflexivity).
  exists 2. split.
  - apply elem_of_cons. right. apply elem_of_cons. now left.
  - apply elem_of_cons. now left.
Qed.

(** ** Scoring in quantitative mode *)

Lemma sample_ranked_loop :
  score_quantitative_single_loop sample_ranked 0 [[0]] (Finite 0)
  = Some (Finite (0 + - ln (Q2R (1 # 4)))).
Proof.
  cbn [score_quantitative_single_loop min_percentile sample_ranked coeff
       length].
  reflexivity.
Qed.

Lemma Q2R_quarter : Q2R (1 # 4) = (1 / 4)%R.
Proof. unfold Q2R. cbn [Qnum Qden]. lra. Qed.

(** C7 (as the code has it).  On the column [1/4, 2/4, 3/4, 4/4] and the
    geneset {row 0} the score is [-log(1 - (1 - 1/4)^1) = -log(1/4)],
    that is [log 4]. *)
Theorem score_quantitative_single_trivial :
  score_quantitative_single sample_ranked 0 [[0]] = Some (- ln (1 / 4))%R
  /\ (- ln (1 / 4) = ln 4)%R.
Proof.
  split.
  - unfold score_quantitative_single. rewrite sample_ranked_loop.
    cbn [fmap option_fmap option_map finite_or_zero].
    rewrite Q2R_quarter. f_equal. lra.
  - rewrite <- ln_Rinv by lra. f_equal. lra.
Qed.

(** C7 as stated fails: the score is not [-log(3/4)]. *)
Lemma score_quantitative_single_counterexample :
  score_quantitative_single sample_ranked 0 [[0]] <> Some (- ln (3 / 4))%R.
Proof.
  unfold score_quantitative_single. rewrite sample_ranked_loop.
  cbn [fmap option_fmap option_map finite_or_zero].
  rewrite Q2R_quarter. intros Heq.
  assert (Hlt : (ln (1 / 4) < ln (3 / 4))%R) by (apply ln_increasing; lra).
  injection Heq as Heq. lra.
Qed.

(** ** Binary mode *)

Lemma count_nonzero_cons (v : Q) (x : VectorXd) :
  count_nonzero (v :: x)
  = ((if Qeq_bool v 0 then 0 else 1) + count_nonzero x)%Z.
Proof.
  unfold count_nonzero. cbn [List.filter].
  destruct (Qeq_bool v 0); cbn [negb length]; lia.
Qed.

(** On a column of zeros and ones the sum of the entries counts the
    nonzero rows. *)
Lemma binary_column_sum (x : VectorXd) :
  is_binary x = true -> (Qsum x == inject_Z (count_nonzero x))%Q.
Proof.
  induction x as [|v x IH]; intros Hb.
  - reflexivity.
  - cbn [is_binary forallb] in Hb. apply andb_prop in Hb as [Hv Hx].
    rewrite count_nonzero_cons, inject_Z_plus.
    cbn [Qsum fold_right]. fold (Qsum x). rewrite (IH Hx).
    destruct (Qeq_bool v 0) eqn:H0.
    + apply Qeq_bool_eq in H0. rewrite H0. reflexivity.
    + cbn [negb andb] in Hv. apply negb_true_iff, negb_false_iff in Hv.
      apply Qeq_bool_eq in Hv. rewrite Hv. reflexivity.
Qed.

(** When column 0 holds only zeros and ones the constructor keeps the
    matrix as loaded and caches, for every column [c], the sum of the
    entries of column [c], which is the number of nonzero rows when that
    column too holds only zeros and ones, and that sum divided by
    [_nrows]. *)
Lemma binary_cache_spec (norm : list Q -> Q) (l : loaded)
    (col0 : VectorXd) :
  _gene_matrix l !! O = Some col0 ->
  is_binary col0 = true ->
  _nrows l <> 0%Z ->
  exists sums probs,
    prepare_matrix norm l
    = Some (BinaryMatrix (_gene_matrix l)
              {| _binary_sums := sums; _binary_probs := Some probs |})
    /\ length sums = cols (_gene_matrix l)
    /\ length probs = cols (_gene_matrix l)
    /\ forall c col,
        _gene_matrix l !! c = Some col ->
        sums !! c = Some (Qsum col)
        /\ probs !! c = Some (Qsum col / inject_Z (_nrows l))%Q
        /\ (is_binary col = true ->
            (Qsum col == inject_Z (count_nonzero col))%Q).
Proof.
  intros Hcol0 Hbin Hnrows.
  exists (binary_sums (_gene_matrix l)),
         (map (fun s => (s / inject_Z (_nrows l))%Q)
              (binary_sums (_gene_matrix l))).
  split.
  - unfold prepare_matrix. rewrite Hcol0. cbn [mbind option_bind].
    rewrite Hbin. unfold cache_binary, binary_probs.
    destruct (Z.eqb_spec (_nrows l) 0) as [He|_]; [contradiction|reflexivity].
  - unfold binary_sums, cols. rewrite !length_map.
    split; [reflexivity|]. split; [reflexivity|].
    intros c col Hc.
    repeat match goal with
           | |- context [map ?f ?m] => change (map f m) with (f <$> m)
           end.
    rewrite !list_lookup_fmap, Hc. cbn.
    split; [reflexivity|]. split; [reflexivity|].
    apply binary_column_sum.
Qed.

Section NrowsFacts.

Variable row_names : list string.

Lemma bed_genes_fold (bed : list BEDRow) :
  forall (st : bed_tree_state) (y : string),
    y ∈ bed_genes (fold_left (bed_step row_names) bed st)
    <-> y ∈ bed_genes st
        \/ (y ∈ row_names /\ exists row, row ∈ bed /\ name row = y).
Proof.
  induction bed as [|r bed IH]; intros st y; cbn [fold_left].
  - split; [tauto|]. intros [Hy|(_ & row & Hrow & _)]; [exact Hy|].
    inversion Hrow.
  - rewrite IH. unfold bed_step.
    destruct (NameSet.count (name r) (row_names_set row_names) =? 0)%Z eqn:Hc;
      cbn [negb bed_genes].
    + apply NameSet_count_zero in Hc. unfold row_names_set in Hc.
      rewrite NameSet_of_list_elem in Hc.
      split.
      * intros [Hy|(Hy & row & Hrow & Hn)]; [tauto|].
        right. split; [exact Hy|]. exists row. rewrite elem_of_cons. tauto.
      * intros [Hy|(Hy & row & Hrow & Hn)]; [tauto|].
        apply elem_of_cons in Hrow as [->|Hrow]; [congruence|].
        right. split; [exact Hy|]. exists row. tauto.
    + assert (Hin : name r ∈ row_names).
      { rewrite <- NameSet_of_list_elem.
        destruct (decide (name r ∈ NameSet.of_list row_names)) as [Hd|Hd];
          [exact Hd|].
        apply NameSet_count_zero in Hd. unfold row_names_set in Hc. congruence. }
      rewrite NameSet_insert_elem. split.
      * intros [[->|Hy]|(Hy & row & Hrow & Hn)].
        -- right. split; [exact Hin|]. exists r. rewrite elem_of_cons. tauto.
        -- tauto.
        -- right. split; [exact Hy|]. exists row. rewrite elem_of_cons. tauto.
      * intros [Hy|(Hy & row & Hrow & Hn)]; [tauto|].
        apply elem_of_cons in Hrow as [->|Hrow]; [left; left; congruence|].
        right. split; [exact Hy|]. exists row. tauto.
Qed.

(** [_nrows] is the number of matrix rows less the number of distinct
    row names without an interval in the BED file. *)
Lemma read_bed_interval_tree_nrows (bed : list BEDRow) :
  (Z.of_nat (length row_names) < 2 ^ 32)%Z ->
  exists missing_genes : NameSet.t,
    (read_bed_interval_tree row_names bed).1
    = (Z.of_nat (length row_names) - NameSet.size missing_genes)%Z
    /\ forall x, x ∈ missing_genes
                 <-> x ∈ row_names /\ forall row, row ∈ bed -> name row <> x.
Proof.
  intros Hlen. unfold read_bed_interval_tree.
  set (st := fold_left (bed_step row_names) bed _).
  exists (NameSet.set_difference (row_names_set row_names) (bed_genes st)).
  split.
  - cbn [fst].
    assert (Hle : (NameSet.size (NameSet.set_difference
                                   (row_names_set row_names) (bed_genes st))
                   <= Z.of_nat (length row_names))%Z).
    { unfold NameSet.size, NameSet.set_difference, row_names_set.
      pose proof (NameSet_of_list_length row_names).
      pose proof (filter_length_le
                    (fun x => (NameSet.count x (bed_genes st) =? 0)%Z)
                    (NameSet.of_list row_names)).
      lia. }
    assert (0 <= NameSet.size (NameSet.set_difference
                                 (row_names_set row_names) (bed_genes st)))%Z
      by (unfold NameSet.size; lia).
    assert (2 ^ 32 = 4294967296)%Z by reflexivity.
    unfold Ulong.sub. rewrite Ulong_wrap_small
      by (rewrite Ulong_modulus_val; lia).
    unfold uint_wrap. apply Z.mod_small. lia.
  - intros x. rewrite NameSet_set_difference_elem. unfold row_names_set.
    rewrite NameSet_of_list_elem. subst st. rewrite bed_genes_fold.
    cbn [bed_genes NameSet.empty]. rewrite elem_of_nil. split.
    + intros [Hx Hno]. split; [exact Hx|]. intros row Hrow Hn.
      apply Hno. right. split; [exact Hx|]. exists row. tauto.
    + intros [Hx Hno]. split; [exact Hx|].
      intros [[]|(_ & row & Hrow & Hn)]. exact (Hno row Hrow Hn).
Qed.

End NrowsFacts.

Lemma sample_binary_files_loaded :
  snpsea Continue sample_binary_files = Continue sample_binary_loaded.
Proof. vm_compute. reflexivity. Qed.

(** C8 as stated fails on this run: the matrix has [R = 2] rows, yet
    [sum[1] = 2] where column 1 has one nonzero row, and
    [prob[0] = 1] where [sum[0] / R = 1/2]. *)
Lemma binary_cache_counterexample :
  snpsea Continue sample_binary_files = Continue sample_binary_loaded
  /\ length (_row_names sample_binary_loaded) = 2%nat
  /\ exists sums probs,
      prepare_matrix (fun _ => 1%Q) sample_binary_loaded
      = Some (BinaryMatrix (_gene_matrix sample_binary_loaded)
                {| _binary_sums := sums; _binary_probs := Some probs |})
      /\ (exists col s,
             _gene_matrix sample_binary_loaded !! 1%nat = Some col
             /\ sums !! 1%nat = Some s
             /\ ~ (s == inject_Z (count_nonzero col))%Q)
      /\ (exists s p,
             sums !! 0%nat = Some s /\ probs !! 0%nat = Some p
             /\ ~ (p == s / inject_Z 2)%Q).
Proof.
  split; [exact sample_binary_files_loaded|]. split; [reflexivity|].
  eexists _, _. split; [vm_compute; reflexivity|]. split.
  - eexists _, _. split; [reflexivity|]. split; [reflexivity|].
    vm_compute. discriminate.
  - eexists _, _. split; [reflexivity|]. split; [reflexivity|].
    vm_compute. discriminate.
Qed.

(** ** Conditions that the matrix does not have *)

Lemma report_missing_conditions_exits (condition_names : NameSet.t)
    (col_names : list string) (n : string) :
  n ∈ condition_names -> n ∉ col_names ->
  exists missing,
    report_missing_conditions condition_names col_names
    = Exit_failure
        ("ERROR: Conditions not found in --gene-matrix file:" :: missing)
    /\ n ∈ missing
    /\ forall x, x ∈ missing <-> x ∈ condition_names /\ x ∉ col_names.
Proof.
  intros Hin Hnot.
  set (missing := NameSet.set_difference condition_names
                                         (NameSet.of_list col_names)).
  assert (Hspec : forall x, x ∈ missing
                            <-> x ∈ condition_names /\ x ∉ col_names).
  { intros x. unfold missing.
    rewrite NameSet_set_difference_elem, NameSet_of_list_elem. tauto. }
  assert (Hn : n ∈ missing) by (apply Hspec; tauto).
  exists missing. split; [|split; assumption].
  unfold report_missing_conditions. fold missing.
  destruct condition_names as [|c cs]; [inversion Hin|].
  destruct missing as [|m ms]; [inversion Hn|].
  reflexivity.
Qed.

(** C9.  When the files load and some name of the conditions list is not
    a column name of the matrix, the constructor ends the process with the
    diagnostic that lists the names not found, and it does so whatever
    the steps after the check are: none of them (conditioning, scoring,
    p-value output) is reached. *)
Theorem missing_condition_exits (files : input_files) (l : loaded)
    (n : string) :
  read_files files = Continue l ->
  n ∈ _condition_names l ->
  n ∉ _col_names l ->
  exists missing,
    n ∈ missing
    /\ (forall x, x ∈ missing <-> x ∈ _condition_names l /\ x ∉ _col_names l)
    /\ forall (Outputs : Type) (analysis : loaded -> run Outputs),
        snpsea analysis files
        = Exit_failure
            ("ERROR: Conditions not found in --gene-matrix file:" :: missing).
Proof.
  intros Hread Hin Hnot.
  destruct (report_missing_conditions_exits _ _ n Hin Hnot)
    as (missing & Hexit & Hn & Hspec).
  exists missing. split; [exact Hn|]. split; [exact Hspec|].
  intros Outputs analysis. unfold snpsea. rewrite Hread.
  cbn [run_bind]. rewrite Hexit. reflexivity.
Qed.

Lemma missing_condition_exits_witness :
  read_files sample_condition_files = Continue sample_condition_loaded /\
  "liver"%string ∈ _condition_names sample_condition_loaded /\
  ("liver"%string ∉ _col_names sample_condition_loaded) /\
  exists missing,
    "liver"%string ∈ missing
    /\ (forall x, x ∈ missing
                  <-> x ∈ _condition_names sample_condition_loaded
                      /\ x ∉ _col_names sample_condition_loaded)
    /\ forall (Outputs : Type) (analysis : loaded -> run Outputs),
        snpsea analysis sample_condition_files
        = Exit_failure
            ("ERROR: Conditions not found in --gene-matrix file:" :: missing).
Proof.
  assert (Hread : read_files sample_condition_files
                  = Continue sample_condition_loaded)
    by (vm_compute; reflexivity).
  assert (Hin : "liver"%string ∈ _condition_names sample_condition_loaded)
    by (cbn; repeat constructor).
  assert (Hnot : "liver"%string ∉ _col_names sample_condition_loaded).
  { cbn. intros Hx.
    repeat (apply elem_of_cons in Hx as [Hx|Hx]; [discriminate|]).
    inversion Hx. }
  split; [exact Hread|]. split; [exact Hin|]. split; [exact Hnot|].
  exact (missing_condition_exits sample_condition_files
           sample_condition_loaded "liver" Hread Hin Hnot).
Defined.

(** ** Ranking *)

Lemma more_reps_le (v : Q) (rest : list (nat * Q)) :
  (more_reps v rest <= length rest)%nat.
Proof.
  induction rest as [|p rest IH]; cbn [more_reps length]; [lia|].
  destruct (Qeq_bool v p.2); lia.
Qed.

(** The elements counted by [more_reps] all carry the value [v]. *)
Lemma more_reps_equal (v : Q) (rest : list (nat * Q)) (j : nat)
    (q : (nat * Q)) :
  (j < more_reps v rest)%nat -> rest !! j = Some q -> (v == q.2)%Q.
Proof.
  revert j. induction rest as [|p rest IH]; intros j Hj Hq;
    cbn [more_reps] in Hj; [lia|].
  destruct (Qeq_bool v p.2) eqn:He; [|lia].
  destruct j as [|j].
  - cbn in Hq. injection Hq as <-. now apply Qeq_bool_eq.
  - cbn in Hq. apply (IH j); [lia | exact Hq].
Qed.

Section RankLoopFacts.

Variable data : list (nat * Q).

Hypothesis data_nodup : NoDup (data.*1).
Hypothesis data_bound : Forall (fun q => (q.1 < length data)%nat) data.

Lemma data_index_inj (a b : nat) (q q' : (nat * Q)) :
  data !! a = Some q -> data !! b = Some q' -> q.1 = q'.1 -> a = b.
Proof.
  intros Ha Hb Heq.
  apply (NoDup_lookup (data.*1) a b q.1 data_nodup).
  - rewrite list_lookup_fmap, Ha. reflexivity.
  - rewrite list_lookup_fmap, Hb, Heq. reflexivity.
Qed.

Lemma data_index_lt (a : nat) (q : (nat * Q)) :
  data !! a = Some q -> (q.1 < length data)%nat.
Proof.
  intros Ha. eapply Forall_lookup_1 in data_bound; [|exact Ha]. exact data_bound.
Qed.

Lemma group_writes_spec (i : nat) (r : Q) (ind : VectorXd) (m : nat) :
  length ind = length data ->
  let ind' := fold_left (group_step data i r) (seq 0 m) ind in
  length ind' = length data
  /\ (forall j q, (j < m)%nat -> data !! (i + j)%nat = Some q ->
                  ind' !! q.1 = Some r)
  /\ (forall k, (forall j q, (j < m)%nat -> data !! (i + j)%nat = Some q ->
                             q.1 <> k) ->
                ind' !! k = ind !! k).
Proof.
  intros Hlen. induction m as [|m IH]; cbn zeta.
  - cbn. split; [exact Hlen|]. split; [intros; lia | reflexivity].
  - rewrite seq_S, fold_left_app. cbn [fold_left Nat.add].
    cbn zeta in IH. destruct IH as (Hl & Hw & Hu).
    set (ind1 := fold_left (group_step data i r) (seq 0 m) ind) in *.
    assert (Hstep : group_step data i r ind1 m
                    = match data !! (i + m)%nat with
                      | Some q => <[q.1 := r]> ind1
                      | None => ind1
                      end) by reflexivity.
    rewrite Hstep. clear Hstep.
    destruct (data !! (i + m)%nat) as [qm|] eqn:Hm.
    + split; [rewrite length_insert; exact Hl|]. split.
      * intros j q Hj Hq.
        destruct (decide (q.1 = qm.1)) as [He|Hne].
        -- rewrite He. apply list_lookup_insert_eq. rewrite Hl.
           eapply data_index_lt; eassumption.
        -- rewrite list_lookup_insert_ne by congruence.
           apply (Hw j); [|exact Hq].
           destruct (decide (j = m)) as [->|]; [congruence | lia].
      * intros k Hk. rewrite list_lookup_insert_ne.
        -- apply Hu. intros j q Hj. apply Hk. lia.
        -- apply (Hk m); [lia | exact Hm].
    + split; [exact Hl|]. split.
      * intros j q Hj Hq.
        destruct (decide (j = m)) as [->|]; [congruence|].
        apply (Hw j); [lia | exact Hq].
      * intros k Hk. apply Hu. intros j q Hj. apply Hk. lia.
Qed.

Lemma rank_loop_spec (fuel : nat) :
  forall (i : nat) (ind : VectorXd),
    (length data - i <= fuel)%nat -> (i <= length data)%nat ->
    ranked_below data i ind ->
    ranked_below data (length data) (rank_loop fuel i data ind).
Proof.
  induction fuel as [|fuel IH]; intros i ind Hfuel Hi Hinv.
  - cbn. replace (length data) with i at 1 by lia. exact Hinv.
  - cbn [rank_loop].
    destruct (data !! i) as [p|] eqn:Hp.
    2:{ apply lookup_ge_None in Hp.
        replace (length data) with i at 1 by lia. exact Hinv. }
    pose proof (lookup_lt_Some _ _ _ Hp) as Hlt.
    set (reps := S (more_reps p.2 (drop (S i) data))).
    assert (Hreps : (i + reps <= length data)%nat).
    { subst reps. pose proof (more_reps_le p.2 (drop (S i) data)) as Hm.
      rewrite length_drop in Hm. lia. }
    destruct Hinv as [Hlen Hbelow].
    destruct (group_writes_spec i (mean_rank i reps) ind reps Hlen)
      as (Hl & Hw & Hu).
    apply IH; [lia | lia |]. split; [exact Hl|].
    intros p0 q Hp0 Hq.
    destruct (decide (p0 < i)%nat) as [Hlow|Hhigh].
    + destruct (Hbelow p0 q Hlow Hq) as (r & Hr & Hs).
      exists r. split; [|exact Hs].
      unfold group_step in Hu. rewrite Hu; [exact Hr|].
      intros j q' Hj Hq' Heq.
      pose proof (data_index_inj _ _ _ _ Hq' Hq Heq). lia.
    + exists (mean_rank i reps). split.
      * unfold group_step in Hw. apply (Hw (p0 - i)%nat); [lia|].
        replace (i + (p0 - i))%nat with p0 by lia. exact Hq.
      * exists i, reps. split; [reflexivity|]. split; [lia|].
        split; [exact Hreps|].
        intros p' q0 q' Hp' Hq0 Hq'.
        assert (q0 = p) by congruence. subst q0.
        destruct (decide (p' = i)) as [->|Hne].
        -- assert (q' = p) by congruence. subst q'. reflexivity.
        -- apply (more_reps_equal p.2 (drop (S i) data) (p' - S i)).
           ++ subst reps. lia.
           ++ rewrite lookup_drop. replace (S i + (p' - S i))%nat with p' by lia.
              exact Hq'.
Qed.

Lemma rank_sorted_spec :
  ranked_below data (length data) (rank_sorted data).
Proof.
  unfold rank_sorted. apply rank_loop_spec; [lia | lia |].
  split; [apply length_replicate|]. intros p q Hp. lia.
Qed.

End RankLoopFacts.

Lemma sort_insert_perm (p : nat * Q) (l : list (nat * Q)) :
  sort_insert p l ≡ₚ p :: l.
Proof.
  induction l as [|q l IH]; cbn [sort_insert]; [reflexivity|].
  destruct (argsort_desc q p); [|reflexivity].
  rewrite IH. apply perm_swap.
Qed.

Lemma sort_desc_perm (l : list (nat * Q)) : sort_desc l ≡ₚ l.
Proof.
  induction l as [|p l IH]; [reflexivity|].
  cbn [sort_desc fold_right]. fold (sort_desc l).
  rewrite sort_insert_perm, IH. reflexivity.
Qed.

Lemma indexed_lookup (x : list Q) (k : nat) :
  imap (fun k v => (k, v)) x !! k = (fun v => (k, v)) <$> x !! k.
Proof. apply list_lookup_imap. Qed.

Lemma indexed_fst (x : list Q) :
  (imap (fun k v => (k, v)) x).*1 = seq 0 (length x).
Proof.
  apply list_eq. intros k.
  rewrite list_lookup_fmap, indexed_lookup.
  destruct (x !! k) as [v|] eqn:Hk; cbn.
  - symmetry. apply lookup_seq. split; [reflexivity|].
    eapply lookup_lt_Some. exact Hk.
  - symmetry. apply lookup_seq_ge. apply lookup_ge_None in Hk. lia.
Qed.

Section RankdataFacts.

Variable x : list Q.

Let data : list (nat * Q) := sort_desc (imap (fun k v => (k, v)) x).

Lemma sorted_length : length data = length x.
Proof.
  unfold data. rewrite (Permutation_length (sort_desc_perm _)).
  apply length_imap.
Qed.

Lemma sorted_fst_perm : data.*1 ≡ₚ seq 0 (length x).
Proof.
  unfold data. rewrite (sort_desc_perm _). rewrite indexed_fst. reflexivity.
Qed.

Lemma sorted_nodup : NoDup (data.*1).
Proof. rewrite sorted_fst_perm. apply NoDup_seq. Qed.

Lemma sorted_bound : Forall (fun q => (q.1 < length data)%nat) data.
Proof.
  apply Forall_forall. intros q Hq. rewrite sorted_length.
  assert (Hin : q.1 ∈ data.*1) by (apply list_elem_of_fmap; eauto).
  rewrite sorted_fst_perm in Hin. apply elem_of_seq in Hin. lia.
Qed.

(** Every element of the sorted data is an entry of [x] with its index. *)
Lemma sorted_entry (p : nat) (q : nat * Q) :
  data !! p = Some q -> x !! q.1 = Some q.2.
Proof.
  intros Hp. apply list_elem_of_lookup_2 in Hp.
  unfold data in Hp. rewrite (sort_desc_perm _) in Hp.
  apply list_elem_of_lookup in Hp as [k Hk].
  rewrite indexed_lookup in Hk.
  destruct (x !! k) as [v|] eqn:Hv; cbn in Hk; [|discriminate].
  injection Hk as <-. exact Hv.
Qed.

(** Every index of [x] sits at some position of the sorted data. *)
Lemma sorted_position (r : nat) (v : Q) :
  x !! r = Some v -> exists p, data !! p = Some (r, v).
Proof.
  intros Hr. apply list_elem_of_lookup.
  unfold data. rewrite (sort_desc_perm _).
  apply list_elem_of_lookup. exists r. rewrite indexed_lookup, Hr. reflexivity.
Qed.

(** The rank of entry [r] is the average rank of a group of [reps] equal
    values that starts at position [i0] of the sorted data; an entry whose
    value occurs once has a group of its own. *)
Lemma rankdata_spec (r : nat) (v : Q) :
  x !! r = Some v ->
  exists i0 reps : nat,
    rankdata x !! r = Some (mean_rank i0 reps)
    /\ (1 <= reps)%nat /\ (i0 + reps <= length x)%nat
    /\ ((forall r' v', r' <> r -> x !! r' = Some v' -> ~ (v' == v)%Q) ->
        reps = 1%nat).
Proof.
  intros Hr. destruct (sorted_position r v Hr) as [p Hp].
  destruct (rank_sorted_spec data sorted_nodup sorted_bound) as [_ Hranked].
  assert (Hlt : (p < length data)%nat) by (eapply lookup_lt_Some; exact Hp).
  destruct (Hranked p (r, v) Hlt Hp) as (rk & Hrk & i0 & reps & -> & Hpos & Hend & Heq).
  exists i0, reps. split; [exact Hrk|]. split; [lia|].
  split; [rewrite <- sorted_length; exact Hend|].
  intros Huntied.
  destruct (decide (reps = 1%nat)) as [|Hreps]; [assumption|exfalso].
  assert (Hother : exists p', (i0 <= p' < i0 + reps)%nat /\ p' <> p).
  { destruct (decide (p = i0)) as [->|]; [exists (S i0) | exists i0]; lia. }
  destruct Hother as (p' & Hp' & Hne).
  destruct (lookup_lt_is_Some_2 data i0) as [q0 Hq0]; [lia|].
  destruct (lookup_lt_is_Some_2 data p') as [q' Hq']; [lia|].
  pose proof (Heq p' q0 q' Hp' Hq0 Hq') as He'.
  pose proof (Heq p q0 (r, v) Hpos Hq0 Hp) as He. cbn [snd] in He.
  apply (Huntied q'.1 q'.2).
  - intros Hsame. apply Hne.
    apply (data_index_inj data sorted_nodup p' p q' (r, v) Hq' Hp). exact Hsame.
  - eapply sorted_entry. exact Hq'.
  - rewrite <- He', He. reflexivity.
Qed.

End RankdataFacts.

Lemma inject_nat_pos (n : nat) : (0 < n)%nat -> (0 < inject_Z (Z.of_nat n))%Q.
Proof.
  intros Hn. change 0%Q with (inject_Z 0). rewrite <- Zlt_Qlt. lia.
Qed.

Lemma ratio_in_unit_interval (a b : Z) :
  (0 < a <= b)%Z -> (0 < inject_Z a / inject_Z b <= 1)%Q.
Proof.
  intros [Ha Hab].
  assert (Hb : (0 < inject_Z b)%Q)
    by (change 0%Q with (inject_Z 0); rewrite <- Zlt_Qlt; lia).
  split.
  - apply Qlt_shift_div_l; [exact Hb|]. rewrite Qmult_0_l.
    change 0%Q with (inject_Z 0). rewrite <- Zlt_Qlt. exact Ha.
  - apply Qle_shift_div_r; [exact Hb|]. rewrite Qmult_1_l.
    rewrite <- Zle_Qle. exact Hab.
Qed.

(** The average rank of a group, divided by the row count, as a fraction
    with denominator [2R]. *)
Lemma mean_rank_ratio (i0 reps R : nat) :
  (0 < R)%nat ->
  (mean_rank i0 reps / inject_Z (Z.of_nat R)
   == inject_Z (2 * Z.of_nat i0 + Z.of_nat reps + 1)
      / inject_Z (2 * Z.of_nat R))%Q.
Proof.
  intros HR. pose proof (inject_nat_pos R HR) as Hpos.
  unfold mean_rank. rewrite !inject_Z_plus, !inject_Z_mult.
  change (inject_Z 2) with 2%Q. change (inject_Z 1) with 1%Q.
  field. intros Hz. rewrite Hz in Hpos. discriminate.
Qed.

Lemma mean_rank_single (p R : nat) :
  (0 < R)%nat ->
  (mean_rank p 1 / inject_Z (Z.of_nat R)
   == inject_Z (Z.of_nat p + 1) / inject_Z (Z.of_nat R))%Q.
Proof.
  intros HR. pose proof (inject_nat_pos R HR) as Hpos.
  unfold mean_rank. rewrite !inject_Z_plus.
  change (inject_Z (Z.of_nat 1)) with 1%Q. change (inject_Z 1) with 1%Q.
  field. intros Hz. rewrite Hz in Hpos. discriminate.
Qed.

(** C4 (as the code has it).  Let the divisor [_nrows] be the number [R]
    of rows of the matrix.  After the ranking step every entry is
    [k / (2R)] for an integer [2 <= k <= 2R], and so lies in (0, 1]:
    tied values share the average of their ranks, which may be a half
    integer.  An entry whose value occurs once in its column is [j / R]
    for an integer [1 <= j <= R]. *)
Theorem rank_columns_entries (m : MatrixXd) (R : nat) (nrows : Z) :
  wf_matrix R m -> (0 < R)%nat -> nrows = Z.of_nat R ->
  exists m' : MatrixXd,
    rank_columns m nrows = Some m'
    /\ forall (r c : nat) (col : VectorXd) (v : Q),
        m !! c = Some col -> col !! r = Some v ->
        exists (e : Q) (k : Z),
          coeff m' r c = Some e
          /\ (2 <= k <= 2 * Z.of_nat R)%Z
          /\ (e == inject_Z k / inject_Z (2 * Z.of_nat R))%Q
          /\ (0 < e <= 1)%Q
          /\ ((forall r' v', r' <> r -> col !! r' = Some v' -> ~ (v' == v)%Q) ->
              exists j : Z,
                (1 <= j <= Z.of_nat R)%Z
                /\ (e == inject_Z j / inject_Z (Z.of_nat R))%Q).
Proof.
  intros Hwf HR ->. unfold rank_columns.
  destruct (Z.eqb_spec (Z.of_nat R) 0) as [Hz|_]; [lia|].
  eexists. split; [reflexivity|].
  intros r c col v Hc Hr.
  assert (Hlen : length col = R).
  { eapply Forall_lookup_1 in Hwf; [|exact Hc]. exact Hwf. }
  destruct (rankdata_spec col r v Hr) as (i0 & reps & Hrk & Hreps & Hend & Huniq).
  rewrite Hlen in Hend.
  exists (mean_rank i0 reps / inject_Z (Z.of_nat R))%Q,
         (2 * Z.of_nat i0 + Z.of_nat reps + 1)%Z.
  split.
  { unfold coeff.
    repeat match goal with
           | |- context [map ?f ?l] => change (map f l) with (f <$> l)
           end.
    rewrite list_lookup_fmap, Hc. cbn [fmap option_fmap option_map mbind option_bind].
    rewrite list_lookup_fmap, Hrk. reflexivity. }
  split; [lia|].
  split; [apply mean_rank_ratio; exact HR|].
  split.
  { rewrite mean_rank_ratio by exact HR. apply ratio_in_unit_interval. lia. }
  intros Huntied. specialize (Huniq Huntied). subst reps.
  exists (Z.of_nat i0 + 1)%Z. split; [lia|].
  apply mean_rank_single. exact HR.
Qed.

Lemma rank_columns_entries_witness :
  wf_matrix 4 [[40; 30; 20; 10]]%Q /\ (0 < 4)%nat /\ 4%Z = Z.of_nat 4 /\
  exists m' : MatrixXd,
    rank_columns [[40; 30; 20; 10]]%Q 4 = Some m'
    /\ forall (r c : nat) (col : VectorXd) (v : Q),
        [[40; 30; 20; 10]]%Q !! c = Some col -> col !! r = Some v ->
        exists (e : Q) (k : Z),
          coeff m' r c = Some e
          /\ (2 <= k <= 2 * Z.of_nat 4)%Z
          /\ (e == inject_Z k / inject_Z (2 * Z.of_nat 4))%Q
          /\ (0 < e <= 1)%Q
          /\ ((forall r' v', r' <> r -> col !! r' = Some v' -> ~ (v' == v)%Q) ->
              exists j : Z,
                (1 <= j <= Z.of_nat 4)%Z
                /\ (e == inject_Z j / inject_Z (Z.of_nat 4))%Q).
Proof.
  assert (Hwf : wf_matrix 4 [[40; 30; 20; 10]]%Q) by (repeat constructor).
  split; [exact Hwf|]. split; [lia|]. split; [reflexivity|].
  apply (rank_columns_entries [[40; 30; 20; 10]]%Q 4 4 Hwf); [lia | reflexivity].
Defined.

(** The ranks of the witness column, largest value first. *)
Example rank_columns_sample :
  option_map (map (map Qred)) (rank_columns [[40; 30; 20; 10]]%Q 4)
  = Some [[1 # 4; 1 # 2; 3 # 4; 1]]%Q.
Proof. vm_compute. reflexivity. Qed.

(** C4 as stated fails on a tie.  A matrix of two rows (3, 4): the rows
    have norm 5, both columns are tied after the normalisation, both
    entries of a column get the rank 3/2 and become 3/4, which is neither
    1/2 nor 1. *)
Lemma rank_columns_ties_counterexample :
  (5 * 5 == dot [3; 4] [3; 4])%Q /\
  length (_row_names sample_tied_loaded) = 2%nat /\
  _nrows sample_tied_loaded = 2%Z /\
  exists (m' : MatrixXd) (e : Q),
    prepare_matrix (fun _ => 5%Q) sample_tied_loaded
    = Some (QuantitativeMatrix m' ["c0"; "c1"]%string)
    /\ coeff m' 0 0 = Some e
    /\ (e == 3 # 4)%Q
    /\ ~ exists j : Z, (1 <= j <= 2)%Z /\ (e == inject_Z j / inject_Z 2)%Q.
Proof.
  split; [reflexivity|]. split; [reflexivity|]. split; [reflexivity|].
  eexists _, _. split; [vm_compute; reflexivity|].
  split; [reflexivity|]. split; [reflexivity|].
  intros (j & Hj & He). revert He.
  unfold Qeq, Qdiv, Qmult, Qinv. cbn. lia.
Qed.

(** ** Conditioning *)

Section DotFacts.

Local Open Scope Q_scope.

Lemma dot_cons (x y : Q) (a b : list Q) :
  dot (x :: a) (y :: b) = x * y + dot a b.
Proof. reflexivity. Qed.

Lemma dot_nil_r (a : list Q) : dot a [] = 0.
Proof. destruct a; reflexivity. Qed.

Lemma dot_comm (a b : list Q) : dot a b == dot b a.
Proof.
  revert b. induction a as [|x a IH]; intros [|y b];
    try reflexivity.
  rewrite !dot_cons, IH. ring.
Qed.

(** The dot product with a column that has lost [s] times [b]. *)
Lemma dot_sub_scaled (s : Q) (w x b : list Q) :
  length x = length b ->
  dot w (zip_with (fun u v => u - s * v) x b) == dot w x - s * dot w b.
Proof.
  revert x b. induction w as [|w0 w IH]; intros x b Hlen.
  - cbn. ring.
  - destruct x as [|x0 x], b as [|b0 b]; try discriminate.
    + cbn. ring.
    + cbn [zip_with]. rewrite !dot_cons, IH by (cbn in Hlen; lia). ring.
Qed.

Lemma subtract_projection_length (b a : list Q) :
  length a = length b -> length (subtract_projection b a) = length b.
Proof.
  intros Hlen. unfold subtract_projection. rewrite length_zip_with. lia.
Qed.

Lemma dot_subtract_projection (w b a : list Q) :
  length a = length b ->
  dot w (subtract_projection b a) == dot w a - (dot a b / dot b b) * dot w b.
Proof. intros Hlen. unfold subtract_projection. now apply dot_sub_scaled. Qed.

(** A column is orthogonal to [b] once its projection on [b] is taken
    away. *)
Lemma subtract_projection_orthogonal (b a : list Q) :
  length a = length b -> ~ dot b b == 0 ->
  dot (subtract_projection b a) b == 0.
Proof.
  intros Hlen Hb. rewrite dot_comm, dot_subtract_projection by exact Hlen.
  rewrite (dot_comm b a). field. exact Hb.
Qed.

(** A column orthogonal to [w] stays so when a multiple of another such
    column is taken away. *)
Lemma subtract_projection_keeps_orthogonal (w b a : list Q) :
  length a = length b -> dot a w == 0 -> dot b w == 0 ->
  dot (subtract_projection b a) w == 0.
Proof.
  intros Hlen Ha Hb. rewrite dot_comm, dot_subtract_projection by exact Hlen.
  rewrite (dot_comm w a), (dot_comm w b), Ha, Hb. ring.
Qed.

End DotFacts.

Section ConditionLoopFacts.

Local Open Scope Q_scope.

Variable R : nat.
Variable _col_names : list string.

Lemma condition_column_spec (M M' : MatrixXd) (c : nat) :
  length _col_names = cols M ->
  condition_column (length _col_names) M c = Some M' ->
  exists b, M !! c = Some b /\ ~ dot b b == 0
            /\ M' = subtract_projection b <$> M.
Proof.
  intros Hlen. unfold condition_column.
  destruct (M !! c) as [b|]; cbn [mbind option_bind]; [|discriminate].
  rewrite Hlen. rewrite (proj2 (Nat.leb_le _ _)) by reflexivity.
  destruct (Qeq_bool (dot b b) 0) eqn:Hb; [discriminate|].
  intros [= <-]. exists b. split; [reflexivity|]. split.
  - intros Hz. apply Qeq_eq_bool in Hz. congruence.
  - apply list_eq. intros k. rewrite list_lookup_imap, list_lookup_fmap.
    destruct (M !! k) as [a|] eqn:Hk; [|reflexivity].
    apply lookup_lt_Some in Hk. cbn [fmap option_fmap option_map].
    destruct (Nat.ltb_spec k (cols M)) as [_|Hge]; [reflexivity|].
    unfold cols in Hge. lia.
Qed.

Lemma wf_subtract_projection (M : MatrixXd) (b : VectorXd) :
  wf_matrix R M -> length b = R ->
  wf_matrix R (subtract_projection b <$> M).
Proof.
  intros Hwf Hb. apply Forall_fmap. eapply Forall_impl; [exact Hwf|].
  intros a Ha. cbn. rewrite subtract_projection_length; congruence.
Qed.

Lemma wf_column_length (M : MatrixXd) (a : VectorXd) :
  wf_matrix R M -> a ∈ M -> length a = R.
Proof. intros Hwf Ha. eapply Forall_forall in Hwf; eauto. Qed.

(** The loop of [condition].  Whatever all columns are orthogonal to
    before the loop, they are orthogonal to after it; and after the loop
    every column is orthogonal to the columns that the condition names
    pointed at before the loop. *)
Lemma condition_loop_spec (names : list string) :
  forall (idxs idxs' : list nat) (M Mf : MatrixXd),
    wf_matrix R M -> length _col_names = cols M ->
    condition_loop _col_names names idxs M = Some (idxs', Mf) ->
    wf_matrix R Mf /\ cols Mf = cols M
    /\ idxs' = idxs ++ map (find_index _col_names) names
    /\ (forall w, (forall a, a ∈ M -> dot a w == 0) ->
                  forall a, a ∈ Mf -> dot a w == 0)
    /\ (forall a n b, a ∈ Mf -> n ∈ names ->
                      M !! find_index _col_names n = Some b -> dot a b == 0).
Proof.
  induction names as [|n1 names IH]; intros idxs idxs' M Mf Hwf Hlen Hrun.
  - cbn in Hrun. injection Hrun as <- <-. rewrite app_nil_r.
    repeat split; try assumption; try reflexivity.
    + intros w Hw a Ha. now apply Hw.
    + intros a n b _ Hn. inversion Hn.
  - cbn [condition_loop] in Hrun.
    destruct (condition_column (length _col_names) M
                (find_index _col_names n1)) as [M1|] eqn:Hcol;
      cbn [mbind option_bind] in Hrun; [|discriminate].
    destruct (condition_column_spec M M1 _ Hlen Hcol) as (b1 & Hb1 & Hnz & ->).
    assert (Hb1in : b1 ∈ M) by (eapply list_elem_of_lookup_2; exact Hb1).
    assert (Hb1len : length b1 = R) by (eapply wf_column_length; eassumption).
    assert (Hwf1 : wf_matrix R (subtract_projection b1 <$> M))
      by (apply wf_subtract_projection; assumption).
    assert (Hlen1 : length _col_names = cols (subtract_projection b1 <$> M))
      by (unfold cols in *; rewrite length_fmap; exact Hlen).
    destruct (IH _ _ _ _ Hwf1 Hlen1 Hrun) as (HwfF & HcolsF & Hidx & HC & HA).
    assert (Hstep : forall w, (forall a, a ∈ M -> dot a w == 0) ->
                              forall a, a ∈ subtract_projection b1 <$> M ->
                                        dot a w == 0).
    { intros w Hw a Ha. apply list_elem_of_fmap in Ha as (a0 & -> & Ha0).
      apply subtract_projection_keeps_orthogonal.
      - rewrite (wf_column_length M a0 Hwf Ha0). congruence.
      - now apply Hw.
      - now apply Hw. }
    assert (HF1 : forall a, a ∈ Mf -> dot a b1 == 0).
    { apply HC. intros a Ha. apply list_elem_of_fmap in Ha as (a0 & -> & Ha0).
      apply subtract_projection_orthogonal; [|exact Hnz].
      rewrite (wf_column_length M a0 Hwf Ha0). congruence. }
    split; [exact HwfF|]. split.
    { rewrite HcolsF. unfold cols. apply length_fmap. }
    split.
    { rewrite Hidx, <- app_assoc. reflexivity. }
    split.
    { intros w Hw. apply HC. now apply Hstep. }
    intros a n b Ha Hn Hb.
    assert (Hblen : length b = length b1).
    { rewrite Hb1len. eapply wf_column_length; [exact Hwf|].
      eapply list_elem_of_lookup_2. exact Hb. }
    assert (Hrest : dot a (subtract_projection b1 b) == 0 -> dot a b == 0).
    { intros H0. rewrite dot_subtract_projection in H0 by exact Hblen.
      rewrite (HF1 a Ha) in H0. rewrite <- H0. ring. }
    apply elem_of_cons in Hn as [->|Hn].
    + assert (b = b1) by congruence. subst b. now apply HF1.
    + apply Hrest. apply (HA a n); [exact Ha | exact Hn |].
      rewrite list_lookup_fmap, Hb. reflexivity.
Qed.

End ConditionLoopFacts.

(** *** Removing the condition columns *)

Lemma descending_below_mono (n n' : nat) (desc : list nat) :
  descending_below n desc -> (n <= n')%nat -> descending_below n' desc.
Proof.
  intros Hd Hle. destruct Hd; constructor; [lia | assumption].
Qed.

Lemma descending_below_length (n : nat) (desc : list nat) :
  descending_below n desc -> (length desc <= n)%nat.
Proof. induction 1; cbn [length]; lia. Qed.

Lemma descending_below_elem (n : nat) (desc : list nat) (j : nat) :
  descending_below n desc -> j ∈ desc -> (j < n)%nat.
Proof.
  induction 1 as [|n idx rest Hlt Hd IH]; intros Hj; [inversion Hj|].
  apply elem_of_cons in Hj as [->|Hj]; [exact Hlt|].
  specialize (IH Hj). lia.
Qed.

Lemma descending_below_snoc (n x : nat) (desc : list nat) :
  descending_below n desc -> (x < n)%nat -> Forall (fun y => (x < y)%nat) desc ->
  descending_below n (desc ++ [x]).
Proof.
  induction 1 as [n|n idx rest Hlt Hd IH]; intros Hx Hall; cbn [app].
  - constructor; [exact Hx | constructor].
  - apply Forall_cons in Hall as [Hxi Hall].
    constructor; [exact Hlt|]. apply IH; assumption.
Qed.

Lemma erase_names_spec (desc : list nat) :
  forall names : list string,
    descending_below (length names) desc ->
    erase_names desc names = Some (erase_positions desc names).
Proof.
  induction desc as [|idx rest IH]; intros names Hd; [reflexivity|].
  inversion Hd as [|? ? ? Hlt Hrest]; subst. cbn [erase_names erase_positions].
  rewrite (proj2 (Nat.ltb_lt _ _)) by exact Hlt.
  apply IH. eapply descending_below_mono; [exact Hrest|].
  rewrite length_delete by (apply lookup_lt_is_Some_2; exact Hlt). lia.
Qed.

Lemma erase_positions_length {A : Type} (desc : list nat) :
  forall l : list A,
    descending_below (length l) desc ->
    length (erase_positions desc l) = (length l - length desc)%nat.
Proof.
  induction desc as [|idx rest IH]; intros l Hd; cbn [erase_positions length];
    [lia|].
  inversion Hd as [|? ? ? Hlt Hrest]; subst.
  assert (Hdel : length (delete idx l) = (length l - 1)%nat)
    by (apply length_delete, lookup_lt_is_Some_2; exact Hlt).
  rewrite IH.
  - rewrite Hdel. lia.
  - eapply descending_below_mono; [exact Hrest|]. lia.
Qed.

Lemma erase_positions_sub {A : Type} (desc : list nat) :
  forall (l : list A) (x : A), x ∈ erase_positions desc l -> x ∈ l.
Proof.
  induction desc as [|idx rest IH]; intros l x Hx; [exact Hx|].
  cbn [erase_positions] in Hx. apply IH in Hx.
  eapply list_elem_of_delete_inv. exact Hx.
Qed.

(** What is left after the deletions stood at a position that is not
    among the deleted ones. *)
Lemma erase_positions_origin {A : Type} (desc : list nat) :
  forall (n : nat) (l : list A) (x : A),
    descending_below n desc -> x ∈ erase_positions desc l ->
    exists j, (j ∉ desc) /\ l !! j = Some x.
Proof.
  induction desc as [|idx rest IH]; intros n l x Hd Hx.
  - apply list_elem_of_lookup in Hx as [j Hj]. exists j.
    split; [apply not_elem_of_nil | exact Hj].
  - inversion Hd as [|? ? ? Hlt Hrest]; subst. cbn [erase_positions] in Hx.
    destruct (IH idx (delete idx l) x Hrest Hx) as (j & Hj & Hlook).
    destruct (decide (j < idx)%nat) as [Hlow|Hhigh].
    + exists j. split.
      * rewrite not_elem_of_cons. split; [lia | exact Hj].
      * rewrite list_lookup_delete_lt in Hlook by exact Hlow. exact Hlook.
    + exists (S j). split.
      * rewrite not_elem_of_cons. split; [lia|]. intros Hin.
        pose proof (descending_below_elem _ _ _ Hrest Hin). lia.
      * rewrite list_lookup_delete_ge in Hlook by lia. exact Hlook.
Qed.

(** A position that is not deleted keeps its element. *)
Lemma erase_positions_kept {A : Type} (desc : list nat) :
  forall (n : nat) (l : list A) (j : nat) (x : A),
    descending_below n desc -> j ∉ desc -> l !! j = Some x ->
    x ∈ erase_positions desc l.
Proof.
  induction desc as [|idx rest IH]; intros n l j x Hd Hj Hlook.
  - eapply list_elem_of_lookup_2. exact Hlook.
  - inversion Hd as [|? ? ? Hlt Hrest]; subst. cbn [erase_positions].
    apply not_elem_of_cons in Hj as [Hne Hj].
    destruct (decide (j < idx)%nat) as [Hlow|Hhigh].
    + apply (IH idx _ j); [exact Hrest | exact Hj |].
      rewrite list_lookup_delete_lt by exact Hlow. exact Hlook.
    + destruct j as [|j]; [lia|].
      apply (IH idx _ j); [exact Hrest | |].
      * intros Hin. pose proof (descending_below_elem _ _ _ Hrest Hin). lia.
      * rewrite list_lookup_delete_ge by lia. exact Hlook.
Qed.

Lemma shift_block_take (M : MatrixXd) (it nC n : nat) (X : MatrixXd) :
  (it + 1 + nC = n)%nat -> (n <= length M)%nat ->
  take (it + nC) (take it M ++ take nC (drop (it + 1) M) ++ X)
  = delete it (take n M).
Proof.
  intros Hn Hle. rewrite app_assoc.
  rewrite take_app_length'.
  2:{ rewrite length_app, !length_take, length_drop. lia. }
  rewrite delete_take_drop, take_take.
  replace (it `min` n)%nat with it by lia.
  rewrite take_drop_commute. replace (S it) with (it + 1)%nat by lia.
  rewrite Hn. reflexivity.
Qed.

Lemma delete_last_take (M : MatrixXd) (it : nat) :
  (S it <= length M)%nat -> take it M = delete it (take (S it) M).
Proof.
  intros Hle. rewrite delete_take_drop, take_take.
  replace (it `min` S it)%nat with it by lia.
  rewrite drop_ge by (rewrite length_take; lia).
  rewrite app_nil_r. reflexivity.
Qed.

(** The loop of [unsafeRemoveColumns] after [j] removals: the leading
    columns are the matrix with the positions deleted. *)
Lemma unsafe_remove_loop_spec (desc : list nat) :
  forall (j : nat) (M : MatrixXd),
    (Z.of_nat (length M) < 2 ^ 64)%Z -> (j <= length M)%nat ->
    descending_below (length M - j) desc ->
    exists M',
      unsafe_remove_loop desc (Z.of_nat j + 1) M = Some M'
      /\ length M' = length M
      /\ take (length M - j - length desc) M'
         = erase_positions desc (take (length M - j) M).
Proof.
  induction desc as [|it rest IH]; intros j M Hsize Hj Hd.
  - exists M. cbn [unsafe_remove_loop erase_positions length].
    split; [reflexivity|]. split; [reflexivity|]. f_equal. lia.
  - inversion Hd as [|? ? ? Hlt Hrest]; subst.
    cbn [unsafe_remove_loop erase_positions length].
    assert (HnC : Ulong.sub (Ulong.sub (Z.of_nat (cols M)) (Z.of_nat it))
                            (Z.of_nat j + 1)
                  = Z.of_nat (length M - j - 1 - it)).
    { unfold cols, Ulong.sub.
      rewrite (Ulong_wrap_small (Z.of_nat (length M) - Z.of_nat it))
        by (unfold Ulong.modulus; lia).
      rewrite Ulong_wrap_small by (unfold Ulong.modulus; lia). lia. }
    rewrite HnC.
    replace (Z.of_nat j + 1 + 1)%Z with (Z.of_nat (S j) + 1)%Z by lia.
    rewrite Nat2Z.id.
    assert (Hrest' : forall M1 : MatrixXd,
               length M1 = length M ->
               descending_below (length M1 - S j) rest).
    { intros M1 Hl. eapply descending_below_mono; [exact Hrest|]. lia. }
    destruct (Z.ltb_spec 0 (Z.of_nat (length M - j - 1 - it))) as [Hpos|Hzero].
    + unfold shift_block.
      rewrite (proj2 (Nat.leb_le _ _)) by lia. cbn [mbind option_bind].
      set (M1 := take it M ++ take (length M - j - 1 - it) (drop (it + 1) M)
                   ++ drop (it + (length M - j - 1 - it)) M).
      assert (Hl1 : length M1 = length M).
      { subst M1. rewrite !length_app, !length_take, !length_drop. lia. }
      destruct (IH (S j) M1) as (M' & Hrun & Hl & Htake);
        [lia | lia | now apply Hrest' |].
      exists M'. split; [exact Hrun|]. split; [congruence|].
      rewrite Hl1 in Htake.
      replace (length M - j - S (length rest))%nat
        with (length M - S j - length rest)%nat by lia.
      rewrite Htake. f_equal.
      replace (length M - S j)%nat with (it + (length M - j - 1 - it))%nat by lia.
      subst M1. apply shift_block_take; lia.
    + destruct (IH (S j) M) as (M' & Hrun & Hl & Htake);
        [lia | lia | now apply Hrest' |].
      exists M'. split; [exact Hrun|]. split; [exact Hl|].
      replace (length M - j - S (length rest))%nat
        with (length M - S j - length rest)%nat by lia.
      rewrite Htake. f_equal.
      replace (length M - S j)%nat with it by lia.
      replace (length M - j)%nat with (S it) by lia.
      apply delete_last_take. lia.
Qed.

Lemma unsafeRemoveColumns_spec (idxs : list nat) (M : MatrixXd) :
  (Z.of_nat (length M) < 2 ^ 64)%Z ->
  descending_below (length M) (rev idxs) ->
  unsafeRemoveColumns idxs M = Some (erase_positions (rev idxs) M).
Proof.
  intros Hsize Hd. unfold unsafeRemoveColumns.
  destruct (unsafe_remove_loop_spec (rev idxs) 0 M Hsize) as (M' & Hrun & Hl & Htake).
  - lia.
  - rewrite Nat.sub_0_r. exact Hd.
  - change (Z.of_nat 0 + 1)%Z with 1%Z in Hrun.
    rewrite Hrun. cbn [mbind option_bind].
    pose proof (descending_below_length _ _ Hd) as Hlen.
    rewrite length_rev in Hlen, Htake. unfold cols. rewrite Hl.
    rewrite (proj2 (Nat.leb_le _ _)) by exact Hlen.
    rewrite !Nat.sub_0_r in Htake. rewrite Htake.
    rewrite take_ge by lia. reflexivity.
Qed.

Lemma sorted_nodup_strict (s : list nat) :
  StronglySorted Nat.le s -> NoDup s -> StronglySorted lt s.
Proof.
  induction 1 as [|x s Hs IH Hall]; intros Hnd; [constructor|].
  apply NoDup_cons in Hnd as [Hx Hnd].
  constructor; [now apply IH|].
  apply Forall_forall. intros y Hy.
  assert (x <= y)%nat by (eapply Forall_forall in Hall; eauto).
  assert (x <> y) by (intros ->; contradiction).
  lia.
Qed.

Lemma unique_strict (s : list nat) : StronglySorted lt s -> unique s = s.
Proof.
  induction 1 as [|x s Hs IH Hall]; [reflexivity|].
  cbn [unique]. destruct s as [|y s]; [reflexivity|].
  apply Forall_cons in Hall as [Hxy _].
  rewrite (proj2 (Nat.eqb_neq x y)) by lia. rewrite IH. reflexivity.
Qed.

Lemma rev_strict_descending (C : nat) (s : list nat) :
  StronglySorted lt s -> Forall (fun idx => (idx < C)%nat) s ->
  descending_below C (rev s).
Proof.
  induction 1 as [|x s Hs IH Hall]; intros Hb; [constructor|].
  apply Forall_cons in Hb as [Hx Hb]. cbn [rev].
  apply descending_below_snoc; [now apply IH | exact Hx |].
  apply Forall_forall. intros y Hy.
  apply list_elem_of_In, in_rev, list_elem_of_In in Hy.
  eapply Forall_forall in Hall; eauto.
Qed.

Lemma find_index_lookup (v : list string) (x : string) :
  x ∈ v -> v !! find_index v x = Some x.
Proof.
  induction v as [|y v IH]; intros Hx; [inversion Hx|].
  cbn [find_index]. destruct (String.eqb_spec y x) as [->|Hne]; [reflexivity|].
  cbn. apply IH. apply elem_of_cons in Hx as [->|Hx]; [congruence | exact Hx].
Qed.

Section ConditionFacts.

Variable _col_names : list string.
Variable col_names : NameSet.t.

Hypothesis col_names_nodup : NoDup col_names.
Hypothesis col_names_present : forall n, n ∈ col_names -> n ∈ _col_names.

Let idxs : list nat := map (find_index _col_names) col_names.
Let desc : list nat := rev (merge_sort Nat.le idxs).

Lemma idxs_nodup : NoDup idxs.
Proof.
  unfold idxs. apply (NoDup_fmap_2_strong (find_index _col_names));
    [|exact col_names_nodup].
  intros x y Hx Hy Heq.
  pose proof (find_index_lookup _ _ (col_names_present x Hx)) as Hlx.
  pose proof (find_index_lookup _ _ (col_names_present y Hy)) as Hly.
  congruence.
Qed.

Lemma idxs_sorted_strict : StronglySorted lt (merge_sort Nat.le idxs).
Proof.
  apply sorted_nodup_strict.
  - apply StronglySorted_merge_sort; apply _.
  - rewrite merge_sort_Permutation. exact idxs_nodup.
Qed.

Lemma desc_elem (j : nat) :
  j ∈ desc <-> exists n, n ∈ col_names /\ j = find_index _col_names n.
Proof.
  unfold desc. rewrite list_elem_of_In, <- in_rev, <- list_elem_of_In.
  rewrite merge_sort_Permutation. unfold idxs.
  change (map (find_index _col_names) col_names)
    with (find_index _col_names <$> col_names).
  rewrite list_elem_of_fmap. split; intros (n & H1 & H2); exists n; tauto.
Qed.

Lemma desc_descending : descending_below (length _col_names) desc.
Proof.
  unfold desc. apply rev_strict_descending; [exact idxs_sorted_strict|].
  apply Forall_forall. intros j Hj.
  rewrite merge_sort_Permutation in Hj. unfold idxs in Hj.
  change (map (find_index _col_names) col_names)
    with (find_index _col_names <$> col_names) in Hj.
  apply list_elem_of_fmap in Hj as (n & -> & Hn).
  eapply lookup_lt_Some. apply find_index_lookup. now apply col_names_present.
Qed.

(** Once the loop of [condition] has gone through, the function returns:
    it deletes the positions of the condition names from the matrix and
    from the names. *)
Lemma condition_after_loop (R : nat) (matrix projected : MatrixXd)
    (idxs0 : list nat) :
  wf_matrix R matrix -> length _col_names = cols matrix ->
  (Z.of_nat (cols matrix) < 2 ^ 64)%Z ->
  condition_loop _col_names col_names [] matrix = Some (idxs0, projected) ->
  idxs0 = idxs
  /\ condition matrix _col_names col_names
      = Some (erase_positions desc projected, erase_positions desc _col_names).
Proof.
  intros Hwf Hlen Hsize Hloop.
  destruct (condition_loop_spec R _col_names col_names [] idxs0 matrix
              projected Hwf Hlen Hloop) as (_ & Hcols & Hidx & _).
  cbn [app] in Hidx. fold idxs in Hidx. subst idxs0.
  split; [reflexivity|].
  unfold condition. rewrite Hloop. cbn [mbind option_bind].
  unfold removeColumns. fold idxs. rewrite (unique_strict _ idxs_sorted_strict).
  fold desc.
  assert (Hd : descending_below (length projected) desc).
  { unfold cols in *. rewrite Hcols, <- Hlen. exact desc_descending. }
  rewrite unsafeRemoveColumns_spec;
    [|unfold cols in *; rewrite Hcols; exact Hsize | exact Hd].
  cbn [mbind option_bind]. rewrite (erase_names_spec _ _ desc_descending).
  reflexivity.
Qed.

Lemma condition_result (R : nat) (matrix matrix' : MatrixXd)
    (new_col_names : list string) :
  wf_matrix R matrix -> length _col_names = cols matrix ->
  (Z.of_nat (cols matrix) < 2 ^ 64)%Z ->
  condition matrix _col_names col_names = Some (matrix', new_col_names) ->
  exists projected : MatrixXd,
    condition_loop _col_names col_names [] matrix = Some (idxs, projected)
    /\ matrix' = erase_positions desc projected
    /\ new_col_names = erase_positions desc _col_names.
Proof.
  intros Hwf Hlen Hsize Hrun.
  destruct (condition_loop _col_names col_names [] matrix)
    as [[idxs0 projected]|] eqn:Hloop.
  - destruct (condition_after_loop R matrix projected idxs0 Hwf Hlen Hsize Hloop)
      as [-> Hres].
    rewrite Hres in Hrun. injection Hrun as <- <-.
    exists projected. repeat split.
  - unfold condition in Hrun. rewrite Hloop in Hrun. discriminate.
Qed.

End ConditionFacts.

(** *** When the loop of [condition] goes through *)

Section SpanFacts.

Local Open Scope Q_scope.

Variable R : nat.

Lemma veq_length (u v : VectorXd) : veq u v -> length u = length v.
Proof. apply Forall2_length. Qed.

Lemma Qsquare_nonneg (x : Q) : 0 <= x * x.
Proof. Lqa.nra. Qed.

Lemma dot_self_nonneg (b : VectorXd) : 0 <= dot b b.
Proof.
  induction b as [|x b IH]; [discriminate|].
  rewrite dot_cons. pose proof (Qsquare_nonneg x) as Hx.
  change 0 with (0 + 0). apply Qplus_le_compat; assumption.
Qed.

(** Over exact arithmetic only the zero vector has [b . b = 0]. *)
Lemma dot_self_zero (b : VectorXd) :
  dot b b == 0 -> Forall (fun x => x == 0) b.
Proof.
  induction b as [|x b IH]; intros Hz; [constructor|].
  rewrite dot_cons in Hz.
  pose proof (Qsquare_nonneg x) as Hx. pose proof (dot_self_nonneg b) as Hb.
  assert (Hxx : x * x == 0) by Lqa.lra.
  assert (Hbb : dot b b == 0) by Lqa.lra.
  constructor; [|exact (IH Hbb)].
  apply Qmult_integral in Hxx. tauto.
Qed.

Lemma dot_vadd (w u v : VectorXd) :
  length u = length v -> dot w (vadd u v) == dot w u + dot w v.
Proof.
  revert u v. induction w as [|w0 w IH]; intros u v Hlen.
  - cbn. ring.
  - destruct u as [|u0 u], v as [|v0 v]; try discriminate.
    + cbn. ring.
    + unfold vadd. cbn [zip_with]. fold (vadd u v).
      rewrite !dot_cons, IH by (cbn in Hlen; lia). ring.
Qed.

Lemma dot_vscale (w : VectorXd) (c : Q) (v : VectorXd) :
  dot w (vscale c v) == c * dot w v.
Proof.
  revert v. induction w as [|w0 w IH]; intros v.
  - cbn. ring.
  - destruct v as [|v0 v].
    + cbn. ring.
    + unfold vscale. cbn [fmap list_fmap]. fold (vscale c v).
      rewrite !dot_cons, IH. ring.
Qed.

Lemma dot_veq (w u v : VectorXd) : veq u v -> dot w u == dot w v.
Proof.
  intros Huv. revert w. induction Huv as [|x y u v Hxy Huv IH]; intros w.
  - reflexivity.
  - destruct w as [|w0 w]; [reflexivity|].
    rewrite !dot_cons, IH, Hxy. reflexivity.
Qed.

Lemma dot_replicate_zero (w : VectorXd) (n : nat) :
  dot w (replicate n 0) == 0.
Proof.
  revert w. induction n as [|n IH]; intros w.
  - cbn [replicate]. rewrite dot_nil_r. reflexivity.
  - destruct w as [|w0 w]; [reflexivity|].
    cbn [replicate]. rewrite dot_cons, IH. ring.
Qed.

Lemma vadd_length (u v : VectorXd) :
  length u = length v -> length (vadd u v) = length v.
Proof. intros Hlen. unfold vadd. rewrite length_zip_with. lia. Qed.

Lemma vscale_length (c : Q) (v : VectorXd) :
  length (vscale c v) = length v.
Proof. unfold vscale. apply length_fmap. Qed.

Lemma in_span_length (vs : list VectorXd) (v : VectorXd) :
  Forall (fun g => length g = R) vs -> in_span R vs v -> length v = R.
Proof.
  intros Hvs Hv.
  induction Hv as [|v Hv|u v _ IHu _ IHv|c v _ IH|u v _ IH Huv].
  - apply length_replicate.
  - eapply Forall_forall in Hvs; eauto.
  - rewrite vadd_length; congruence.
  - rewrite vscale_length. exact IH.
  - rewrite <- (veq_length u v Huv). exact IH.
Qed.

Lemma in_span_mono (vs vs' : list VectorXd) (v : VectorXd) :
  (forall g, g ∈ vs -> g ∈ vs') -> in_span R vs v -> in_span R vs' v.
Proof.
  intros Hsub Hv.
  induction Hv as [|v Hv|u v _ IHu _ IHv|c v _ IH|u v _ IH Huv].
  - apply span_zero.
  - apply span_gen. now apply Hsub.
  - now apply span_add.
  - now apply span_scale.
  - now apply (span_eq R vs' u v).
Qed.

(** A vector orthogonal to the generators is orthogonal to their linear
    combinations. *)
Lemma in_span_orthogonal (w : VectorXd) (vs : list VectorXd) (v : VectorXd) :
  Forall (fun g => length g = R) vs ->
  (forall g, g ∈ vs -> dot w g == 0) ->
  in_span R vs v -> dot w v == 0.
Proof.
  intros Hvs Hw Hv.
  induction Hv as [|v Hv|u v Hu IHu Hv IHv|c v _ IH|u v _ IH Huv].
  - apply dot_replicate_zero.
  - now apply Hw.
  - rewrite dot_vadd, IHu, IHv; [ring|].
    rewrite (in_span_length vs u Hvs Hu), (in_span_length vs v Hvs Hv).
    reflexivity.
  - rewrite dot_vscale, IH. ring.
  - rewrite <- (dot_veq w u v Huv). exact IH.
Qed.

(** A column [b0] that differs from the zero column by [u] is [u]. *)
Lemma veq_vadd_zero (b0 b u : VectorXd) :
  Forall (fun x => x == 0) b -> veq b0 (vadd b u) -> length b = length u ->
  veq u b0.
Proof.
  intros Hz. revert b0 u. induction Hz as [|x b Hx Hz IH]; intros b0 u Heq Hlen.
  - destruct u; [|discriminate]. cbn in Heq. inversion Heq. constructor.
  - destruct u as [|u0 u]; [discriminate|].
    unfold vadd in Heq. cbn [zip_with] in Heq. fold (vadd b u) in Heq.
    inversion Heq as [|y ? b0' ? Hy Hrest]; subst.
    constructor.
    + rewrite Hy, Hx. ring.
    + apply IH; [exact Hrest | cbn in Hlen; lia].
Qed.

(** From [b0 = b + u] to [b = b0 + (-1) u]. *)
Lemma veq_vadd_move (b0 b u : VectorXd) :
  veq b0 (vadd b u) -> length b = length u ->
  veq (vadd b0 (vscale (- (1)) u)) b.
Proof.
  revert b0 u. induction b as [|x b IH]; intros b0 u Heq Hlen.
  - destruct u; [|discriminate]. cbn in Heq. inversion Heq. constructor.
  - destruct u as [|u0 u]; [discriminate|].
    unfold vadd in Heq. cbn [zip_with] in Heq. fold (vadd b u) in Heq.
    inversion Heq as [|y ? b0' ? Hy Hrest]; subst.
    unfold vadd, vscale. cbn [fmap list_fmap zip_with].
    fold (vscale (- (1)) u). fold (vadd b0' (vscale (- (1)) u)).
    constructor.
    + rewrite Hy. ring.
    + apply IH; [exact Hrest | cbn in Hlen; lia].
Qed.

(** One round keeps every column within the span of the condition
    columns of its original. *)
Lemma veq_subtract_projection (a0 a u b : VectorXd) (s : Q) :
  veq a0 (vadd a u) -> length a = length u -> length a = length b ->
  veq a0 (vadd (zip_with (fun x y => x - s * y) a b)
               (vadd u (vscale s b))).
Proof.
  revert a0 u b. induction a as [|x a IH]; intros a0 u b Heq Hu Hb.
  - destruct u; [|discriminate]. destruct b; [|discriminate].
    cbn in Heq. inversion Heq. constructor.
  - destruct u as [|u0 u]; [discriminate|].
    destruct b as [|y b]; [discriminate|].
    unfold vadd in Heq. cbn [zip_with] in Heq. fold (vadd a u) in Heq.
    inversion Heq as [|z ? a0' ? Hz Hrest]; subst.
    unfold vadd, vscale. cbn [fmap list_fmap zip_with].
    fold (vscale s b). fold (vadd u (vscale s b)).
    fold (vadd (zip_with (fun x y => x - s * y) a b) (vadd u (vscale s b))).
    constructor.
    + rewrite Hz. ring.
    + apply IH; [exact Hrest | cbn in Hu; lia | cbn in Hb; lia].
Qed.

End SpanFacts.

Section ConditionTotal.

Local Open Scope Q_scope.

Variable R : nat.
Variable _col_names : list string.
Variable matrix : MatrixXd.

Hypothesis matrix_wf : wf_matrix R matrix.
Hypothesis matrix_cols : length _col_names = cols matrix.

(** What the rounds so far have made of the incoming matrix: every
    column differs from its original by a linear combination of the
    condition columns already used. *)
Let reached (before : list VectorXd) (M : MatrixXd) : Prop :=
  Forall2 (fun a0 a => exists u, in_span R before u /\ veq a0 (vadd a u))
          matrix M.

Lemma condition_column_total (M : MatrixXd) (c : nat) (b : VectorXd) :
  length _col_names = cols M -> M !! c = Some b -> ~ dot b b == 0 ->
  condition_column (length _col_names) M c
  = Some (subtract_projection b <$> M).
Proof.
  intros Hlen Hb Hnz. unfold condition_column. rewrite Hb.
  cbn [mbind option_bind]. rewrite Hlen.
  rewrite (proj2 (Nat.leb_le _ _)) by reflexivity.
  destruct (Qeq_bool (dot b b) 0) eqn:Hq.
  - apply Qeq_bool_eq in Hq. contradiction.
  - f_equal. apply list_eq. intros k.
    rewrite list_lookup_imap, list_lookup_fmap.
    destruct (M !! k) as [a|] eqn:Hk; [|reflexivity].
    apply lookup_lt_Some in Hk. cbn [fmap option_fmap option_map].
    destruct (Nat.ltb_spec k (cols M)) as [_|Hge]; [reflexivity|].
    unfold cols in Hge. lia.
Qed.

(** With condition columns none of which is a linear combination of the
    ones before it, no round divides by zero. *)
Lemma condition_loop_total (names : list string) :
  forall (before : list VectorXd) (idxs : list nat) (M : MatrixXd),
    wf_matrix R M ->
    Forall (fun g => length g = R) before ->
    reached before M ->
    (forall n, n ∈ names -> n ∈ _col_names) ->
    independent_from R before
      (omap (fun n => matrix !! find_index _col_names n) names) ->
    exists idxs' Mf, condition_loop _col_names names idxs M = Some (idxs', Mf).
Proof.
  induction names as [|n1 names IH];
    intros before idxs M Hwf Hbefore Hreach Hpresent Hind.
  - eexists _, _. reflexivity.
  - assert (Hcols : cols matrix = cols M) by (apply (Forall2_length _ _ _ Hreach)).
    assert (Hlen : length _col_names = cols M) by congruence.
    assert (Hn1 : n1 ∈ _col_names) by (apply Hpresent; left).
    pose proof (find_index_lookup _ _ Hn1) as Hlook.
    apply lookup_lt_Some in Hlook.
    destruct (lookup_lt_is_Some_2 matrix (find_index _col_names n1))
      as [b0 Hb0]; [unfold cols in *; lia|].
    destruct (lookup_lt_is_Some_2 M (find_index _col_names n1))
      as [b Hb]; [unfold cols in *; lia|].
    cbn [omap list_omap] in Hind. rewrite Hb0 in Hind.
    cbn [independent_from] in Hind. destruct Hind as [Hnot Hind].
    destruct (Forall2_lookup_lr _ _ _ _ _ _ Hreach Hb0 Hb)
      as (u & Hu & Hb0u).
    assert (Hb0len : length b0 = R).
    { eapply (wf_column_length R matrix); [exact matrix_wf|].
      eapply list_elem_of_lookup_2. exact Hb0. }
    assert (Hblen : length b = R).
    { eapply (wf_column_length R M); [exact Hwf|].
      eapply list_elem_of_lookup_2. exact Hb. }
    assert (Hulen : length u = R) by (eapply in_span_length; eassumption).
    assert (Hnz : ~ dot b b == 0).
    { intros Hz. apply Hnot. apply (span_eq R before u b0 Hu).
      apply (veq_vadd_zero b0 b u); [now apply dot_self_zero | exact Hb0u |].
      congruence. }
    cbn [condition_loop].
    rewrite (condition_column_total M _ b Hlen Hb Hnz).
    cbn [mbind option_bind].
    apply (IH (before ++ [b0])).
    + apply (wf_subtract_projection R); assumption.
    + apply Forall_app. split; [exact Hbefore|]. now repeat constructor.
    + assert (Hbspan : in_span R (before ++ [b0]) b).
      { apply (span_eq R _ (vadd b0 (vscale (- (1)) u)) b).
        - apply span_add.
          + apply span_gen. apply elem_of_app. right. left.
          + apply span_scale. eapply in_span_mono; [|exact Hu].
            intros g Hg. apply elem_of_app. now left.
        - apply veq_vadd_move; [exact Hb0u | congruence]. }
      unfold reached. apply Forall2_same_length_lookup. split.
      * rewrite length_fmap. exact Hcols.
      * intros k a0 a' Hk0 Hk. rewrite list_lookup_fmap in Hk.
        destruct (M !! k) as [a|] eqn:Ha; [|discriminate].
        cbn in Hk. injection Hk as <-.
        destruct (Forall2_lookup_lr _ _ _ _ _ _ Hreach Hk0 Ha)
          as (ua & Hua & Ha0).
        assert (Halen : length a = R).
        { eapply (wf_column_length R M); [exact Hwf|].
          eapply list_elem_of_lookup_2. exact Ha. }
        assert (Hualen : length ua = R)
          by (eapply in_span_length; eassumption).
        exists (vadd ua (vscale (dot a b / dot b b) b)). split.
        -- apply span_add.
           ++ eapply in_span_mono; [|exact Hua].
              intros g Hg. apply elem_of_app. now left.
           ++ apply span_scale. exact Hbspan.
        -- unfold subtract_projection.
           apply veq_subtract_projection; [exact Ha0 | congruence..].
    + intros n Hn. apply Hpresent. now right.
    + exact Hind.
Qed.

End ConditionTotal.

(** What a run of [condition] that ends with finite entries leaves,
    when the column names are distinct and the condition names are among
    them. *)
Lemma condition_result_spec (R : nat) (matrix matrix' : MatrixXd)
    (_col_names : list string) (col_names : NameSet.t)
    (new_col_names : list string) :
  wf_matrix R matrix -> length _col_names = cols matrix ->
  (Z.of_nat (cols matrix) < 2 ^ 64)%Z ->
  NoDup _col_names -> NoDup col_names ->
  (forall n, n ∈ col_names -> n ∈ _col_names) ->
  condition matrix _col_names col_names = Some (matrix', new_col_names) ->
  (forall a n k b,
      a ∈ matrix' -> n ∈ col_names ->
      _col_names !! k = Some n -> matrix !! k = Some b ->
      (dot a b == 0)%Q)
  /\ (forall n, n ∈ col_names -> n ∉ new_col_names)
  /\ (forall n, n ∈ _col_names -> n ∉ col_names -> n ∈ new_col_names)
  /\ cols matrix' = (cols matrix - length col_names)%nat
  /\ length new_col_names = cols matrix'
  /\ exists (projected : MatrixXd) (desc : list nat),
      cols projected = cols matrix
      /\ (forall j, j ∈ desc
                    <-> exists n, n ∈ col_names /\ _col_names !! j = Some n)
      /\ matrix' = erase_positions desc projected
      /\ new_col_names = erase_positions desc _col_names.
Proof.
  intros Hwf Hlen Hsize Hnd Hcnd Hpresent Hrun.
  destruct (condition_result _col_names col_names Hcnd Hpresent R matrix
              matrix' new_col_names Hwf Hlen Hsize Hrun)
    as (projected & Hloop & -> & ->).
  set (desc := rev (merge_sort Nat.le (map (find_index _col_names) col_names))).
  destruct (condition_loop_spec R _col_names col_names [] _ matrix projected
              Hwf Hlen Hloop) as (_ & Hcols & _ & _ & Horth).
  pose proof (desc_descending _col_names col_names Hcnd Hpresent) as Hd.
  fold desc in Hd.
  assert (Hdesc : forall j, j ∈ desc
                  <-> exists n, n ∈ col_names /\ _col_names !! j = Some n).
  { intros j. unfold desc. rewrite (desc_elem _col_names col_names). split.
    - intros (n & Hn & ->). exists n. split; [exact Hn|].
      apply find_index_lookup. now apply Hpresent.
    - intros (n & Hn & Hj). exists n. split; [exact Hn|].
      eapply NoDup_lookup; [exact Hnd | exact Hj |].
      apply find_index_lookup. now apply Hpresent. }
  assert (Hlen_desc : length desc = length col_names).
  { unfold desc. rewrite length_rev.
    rewrite (Permutation_length (merge_sort_Permutation _ _)).
    apply length_map. }
  assert (Hd' : descending_below (length projected) desc).
  { unfold cols in *. rewrite Hcols, <- Hlen. exact Hd. }
  split.
  { intros a n k b Ha Hn Hk Hb. apply (Horth a n b).
    - eapply erase_positions_sub. exact Ha.
    - exact Hn.
    - rewrite <- Hb. f_equal.
      eapply NoDup_lookup; [exact Hnd | | exact Hk].
      apply find_index_lookup. now apply Hpresent. }
  split.
  { intros n Hn Hin.
    destruct (erase_positions_origin desc _ _col_names n Hd Hin)
      as (j & Hj & Hlook).
    apply Hj. apply Hdesc. exists n. tauto. }
  split.
  { intros n Hn Hnot. apply list_elem_of_lookup in Hn as [j Hj].
    apply (erase_positions_kept desc _ _col_names j n Hd); [|exact Hj].
    intros Hin. apply Hdesc in Hin as (n' & Hn' & Hj').
    assert (n = n') by congruence. subst n'. contradiction. }
  split.
  { unfold cols in *. rewrite erase_positions_length by exact Hd'.
    rewrite Hcols, Hlen_desc. reflexivity. }
  split.
  { unfold cols in *. rewrite !erase_positions_length by assumption.
    rewrite Hcols, Hlen. reflexivity. }
  exists projected, desc. repeat split; try assumption; apply Hdesc.
Qed.

(** A check that passes leaves only condition names that are column
    names. *)
Lemma report_missing_conditions_continue (condition_names : NameSet.t)
    (col_names : list string) :
  report_missing_conditions condition_names col_names = Continue tt ->
  forall n, n ∈ condition_names -> n ∈ col_names.
Proof.
  intros Hrun n Hn.
  destruct (decide (n ∈ col_names)) as [Hin|Hnot]; [exact Hin|].
  destruct (report_missing_conditions_exits _ _ n Hn Hnot) as (missing & He & _).
  congruence.
Qed.

Lemma reached_initially (R : nat) (matrix : MatrixXd) :
  wf_matrix R matrix ->
  Forall2 (fun a0 a => exists u, in_span R [] u /\ veq a0 (vadd a u))
          matrix matrix.
Proof.
  intros Hwf. apply Forall2_same_length_lookup. split; [reflexivity|].
  intros k a0 a Hk0 Hk. assert (a = a0) by congruence. subst a.
  exists (replicate R 0%Q). split; [apply span_zero|].
  assert (Hlen : length a0 = R).
  { eapply (wf_column_length R matrix); [exact Hwf|].
    eapply list_elem_of_lookup_2. exact Hk. }
  clear Hk0 Hk Hwf. revert R Hlen.
  induction a0 as [|x a0 IH]; intros R Hlen; subst R; [constructor|].
  cbn [length replicate]. unfold vadd. cbn [zip_with].
  constructor; [ring|]. now apply IH.
Qed.




(** ** The scenarios of the specification, evaluated *)

(** Merging: genesets {5, 7} and {7, 9} give one locus with three genes. *)
Example scenario_merging :
  let st := merge_user_snps ["snpA"; "snpB"]%string
              {[ "snpA"%string := [5; 7]; "snpB"%string := [9; 7] ]} in
  new_snp_names st = ["snpA,snpB"%string]
  /\ new_genesets st !! "snpA,snpB"%string = Some [5; 7; 9]
  /\ new_geneset_sizes st = [3]
  /\ count_merged st = 1.
Proof. repeat split; vm_compute; reflexivity. Qed.

(** Slop fallback: no gene at the exact interval, one gene once the
    query is widened by [slop] on both sides. *)
Example scenario_slop_fallback :
  snp_geneset_traced
    {[ "rs9"%string := {| chrom := "chr2"; start := 300000; end_ := 300100 |} ]}
    {[ "chr2"%string := [ {| i_start := 100000; i_stop := 200000; value := 3 |} ] ]}
    "rs9" 250000
  = ([ {| q_chrom := "chr2"; q_start := 300000; q_stop := 300100 |};
       {| q_chrom := "chr2"; q_start := 50000; q_stop := 550100 |} ],
     [3]).
Proof. vm_compute. reflexivity. Qed.

(** Absent SNP: a name without an interval is recorded as absent and
    gets no geneset. *)
Example scenario_absent_snp :
  let st := overlap_genes
              {[ "rs9"%string := {| chrom := "chr2"; start := 300000;
                                    end_ := 300100 |} ]}
              {[ "chr2"%string := [ {| i_start := 100000; i_stop := 200000;
                                       value := 3 |} ] ]}
              ["rs0"; "rs9"]%string [] 250000 in
  absent_snp_names st = ["rs0"%string]
  /\ genesets st !! "rs0"%string = None
  /\ genesets st !! "rs9"%string = Some [3].
Proof. repeat split; vm_compute; reflexivity. Qed.

(** Conditioning orthogonality: with column B equal to column A,
    conditioning on B turns column A into the zero vector. *)
Example scenario_conditioning :
  option_map (fun r => (map (map Qred) r.1, r.2))
             (condition [[1; 2]; [1; 2]; [3; 1]]%Q ["A"; "B"; "C"]%string
                        ["B"%string])
  = Some ([[0; 0]; [2; -1]]%Q, ["A"; "C"]%string).
Proof. vm_compute. reflexivity. Qed.

(** Ranking with a tie: the two entries 3 share the rank 5/2. *)
Example scenario_ranking_tie :
  option_map (map (map Qred)) (rank_columns [[3; 3; 1; 7]]%Q 4)
  = Some [[5 # 8; 5 # 8; 1; 1 # 4]]%Q.
Proof. vm_compute. reflexivity. Qed.

(** A size-matched draw: one geneset per size, each from its bin. *)
Example scenario_matched_draw :
  (matched_genesets {[ 1 := [[0]; [4]]; 2 := [[1; 2]] ]} [1; 2; 1] 7).1
  = Ok [[4]; [1; 2]; [4]].
Proof. vm_compute. reflexivity. Qed.

(** Binning: a null SNP with one gene goes to bin 1. *)
Example scenario_binning :
  bin_genesets
    {[ "rs9"%string := {| chrom := "chr2"; start := 300000; end_ := 300100 |} ]}
    {[ "chr2"%string := [ {| i_start := 100000; i_stop := 200000; value := 3 |} ] ]}
    ["rs9"%string] 250000 10
  = {[ 1 := [[3]] ]}.
Proof. vm_compute. reflexivity. Qed.

(** * Further properties of the code *)

(** ** The scheduler when every draw succeeds *)

Section SchedulerRuns.

Context {G : Type} `{UniformSource G}.

Variable call_score : scorer -> nat -> list (list Z) -> Q.
Variable _geneset_bins : gmap Z (list (list Z)).
Variable _user_geneset_sizes : list Z.
Variable _col_names : list string.
Variable _binary_gene_matrix : bool.

Hypothesis source_in_range : uniform_in_range G.
Hypothesis bins_nonempty : bins_cover _geneset_bins _user_geneset_sizes.

Local Abbreviation matched_draw' :=
  (matched_draw _geneset_bins _user_geneset_sizes).

Lemma draw_matched_ok (st : sched_state G) :
  exists drawn g',
    draw_matched _geneset_bins _user_geneset_sizes st
    = (Ok drawn, {| generator := g'; stream := stream st |})
    /\ matched_draw' drawn.
Proof.
  unfold draw_matched, matched_genesets.
  destruct (matched_genesets_from_ok _geneset_bins _user_geneset_sizes
              source_in_range bins_nonempty [] (generator st))
    as (drawn & Hrun & Hin).
  destruct (matched_genesets_from _ _ _ _) as [r g']. cbn [fst] in Hrun.
  subst r. exists drawn, g'. split; [reflexivity | exact Hin].
Qed.

Lemma run_batch_ok sf col us (count : nat) :
  forall observed (st : sched_state G),
    exists o st',
      run_batch call_score _geneset_bins _user_geneset_sizes sf col us
                count observed st = (Ok o, st')
      /\ stream st' = stream st
      /\ observed <= o <= observed + Z.of_nat count
      /\ ((forall drawn, matched_draw' drawn ->
                         Qle_bool us (call_score sf col drawn) = false) ->
          o = observed)
      /\ ((forall drawn, matched_draw' drawn ->
                         Qle_bool us (call_score sf col drawn) = true) ->
          o = observed + Z.of_nat count).
Proof.
  induction count as [|count IH]; intros observed st.
  - exists observed, st. cbn. repeat split; intros; lia.
  - cbn [run_batch]. unfold sched_bind.
    destruct (draw_matched_ok st) as (drawn & g' & -> & Hdrawn).
    destruct (IH (if Qle_bool us (call_score sf col drawn)
                  then observed + 1 else observed)
                 {| generator := g'; stream := stream st |})
      as (o & st' & -> & Hs & Ho & Hnone & Hall).
    exists o, st'. split; [reflexivity|]. split; [exact Hs|].
    split; [destruct (Qle_bool us (call_score sf col drawn)); lia|].
    split.
    + intros Hbelow. specialize (Hnone Hbelow).
      rewrite (Hbelow drawn Hdrawn) in Hnone. exact Hnone.
    + intros Habove. specialize (Hall Habove).
      rewrite (Habove drawn Hdrawn) in Hall. lia.
Qed.

(** The loop over the batches returns and writes nothing. *)
Lemma run_batches_ok sf col us min_observations (counts : list Z) :
  forall o0 t0 (st : sched_state G),
    exists r st',
      run_batches call_score _geneset_bins _user_geneset_sizes sf col us
                  min_observations counts o0 t0 st = (Ok r, st')
      /\ stream st' = stream st.
Proof.
  induction counts as [|count counts IH]; intros o0 t0 st.
  - exists (o0, t0), st. split; reflexivity.
  - cbn [run_batches]. unfold sched_bind.
    destruct (run_batch_ok sf col us (Z.to_nat count) o0 st)
      as (o1 & st1 & -> & Hs & _).
    destruct (min_observations <=? o1).
    + exists (o1, t0 + count), st1. split; [reflexivity | exact Hs].
    + destruct (IH o1 (t0 + count) st1) as (r & st' & -> & Hs').
      exists r, st'. split; [reflexivity | congruence].
Qed.

(** With [min_observations] reached from the start, the loop ends after
    its first batch. *)
Lemma run_batches_first sf col us min_observations count counts
    o0 t0 (st : sched_state G) :
  min_observations <= o0 -> 0 <= count ->
  exists o st',
    run_batches call_score _geneset_bins _user_geneset_sizes sf col us
                min_observations (count :: counts) o0 t0 st
    = (Ok (o, t0 + count), st')
    /\ stream st' = stream st /\ o0 <= o <= o0 + count.
Proof.
  intros Hmin Hcount. cbn [run_batches]. unfold sched_bind.
  destruct (run_batch_ok sf col us (Z.to_nat count) o0 st)
    as (o1 & st1 & -> & Hs & Ho & _).
  rewrite Z2Nat.id in Ho by exact Hcount.
  rewrite (proj2 (Z.leb_le min_observations o1)) by lia.
  exists o1, st1. repeat split; try assumption; lia.
Qed.

(** When every matched draw scores as much as the user's SNPs, the
    first batch counts all its draws, and the loop ends there if that
    reaches [min_observations]. *)
Lemma run_batches_all sf col us min_observations count counts :
  (forall drawn, matched_draw' drawn ->
                 Qle_bool us (call_score sf col drawn) = true) ->
  forall o0 t0 (st : sched_state G),
    0 <= count -> min_observations <= o0 + count ->
    exists st',
      run_batches call_score _geneset_bins _user_geneset_sizes sf col us
                  min_observations (count :: counts) o0 t0 st
      = (Ok (o0 + count, t0 + count), st')
      /\ stream st' = stream st.
Proof.
  intros Habove o0 t0 st Hcount Hmin. cbn [run_batches]. unfold sched_bind.
  destruct (run_batch_ok sf col us (Z.to_nat count) o0 st)
    as (o1 & st1 & -> & Hs & _ & _ & Hall).
  rewrite (Hall Habove), Z2Nat.id by exact Hcount.
  rewrite (proj2 (Z.leb_le min_observations (o0 + count))) by exact Hmin.
  exists st1. split; [reflexivity | exact Hs].
Qed.

(** When no matched draw scores as much as the user's SNPs, every batch
    runs and nothing is observed. *)
Lemma run_batches_none sf col us min_observations (counts : list Z) :
  (forall drawn, matched_draw' drawn ->
                 Qle_bool us (call_score sf col drawn) = false) ->
  forall o0 t0 (st : sched_state G),
    o0 < min_observations ->
    exists st',
      run_batches call_score _geneset_bins _user_geneset_sizes sf col us
                  min_observations counts o0 t0 st
      = (Ok (o0, t0 + Zsum counts), st')
      /\ stream st' = stream st.
Proof.
  intros Hbelow. induction counts as [|count counts IH]; intros o0 t0 st Hmin.
  - exists st. unfold Zsum. cbn. rewrite Z.add_0_r. split; reflexivity.
  - cbn [run_batches]. unfold sched_bind.
    destruct (run_batch_ok sf col us (Z.to_nat count) o0 st)
      as (o1 & st1 & -> & Hs & _ & Hnone & _).
    rewrite (Hnone Hbelow).
    rewrite (proj2 (Z.leb_gt min_observations o0)) by exact Hmin.
    destruct (IH o0 (t0 + count) st1 Hmin) as (st' & -> & Hs').
    exists st'. split; [|congruence].
    unfold Zsum. cbn [fold_right]. rewrite Z.add_assoc. reflexivity.
Qed.

End SchedulerRuns.

(** The loop over the batches stops early only with [min_observations]
    reached. *)
Lemma run_batches_stop {G : Type} `{UniformSource G}
    (call_score : scorer -> nat -> list (list Z) -> Q)
    (_geneset_bins : gmap Z (list (list Z))) (_user_geneset_sizes : list Z)
    sf col us min_observations (counts : list Z) :
  forall o0 t0 (st : sched_state G) r,
    (run_batches call_score _geneset_bins _user_geneset_sizes sf col us
                 min_observations counts o0 t0 st).1 = Ok r ->
    r.2 = t0 + Zsum counts \/ min_observations <= r.1.
Proof.
  induction counts as [|count counts IH]; intros o0 t0 st r.
  - cbn. intros [= <-]. left. unfold Zsum. cbn. lia.
  - cbn [run_batches]. unfold sched_bind.
    destruct (run_batch call_score _geneset_bins _user_geneset_sizes sf col us
                (Z.to_nat count) o0 st) as [[o1| |] st1]; cbn [fst];
      try discriminate.
    destruct (Z.leb_spec min_observations o1) as [Hle|Hgt].
    + cbn. intros [= <-]. right. exact Hle.
    + intros Hr. destruct (IH _ _ _ _ Hr) as [Hall|Hobs]; [left | now right].
      rewrite Hall. unfold Zsum. cbn [fold_right]. lia.
Qed.

Lemma iterations_first_batch (max_iterations : Z) :
  1 <= max_iterations < 2 ^ 63 ->
  exists rest,
    iterations 100 (Ulong.wrap max_iterations) = Some (100 :: rest)
    /\ Forall (fun c => 0 <= c) (100 :: rest)
    /\ Zsum (100 :: rest) = Z.max 100 max_iterations.
Proof.
  intros Hrange.
  assert (H63 : 2 ^ 63 = 9223372036854775808) by reflexivity.
  destruct (iterations_shape max_iterations Hrange)
    as (k & last & Hrun & _ & _).
  assert (Hw : Ulong.wrap max_iterations = max_iterations)
    by (apply Ulong_wrap_small; rewrite Ulong_modulus_val; lia).
  exists (map (fun i => 100 * 2 ^ Z.of_nat i) (seq 1 k) ++ [last]).
  assert (Heq : iterations 100 (Ulong.wrap max_iterations)
                = Some (100 :: map (fun i => 100 * 2 ^ Z.of_nat i) (seq 1 k)
                               ++ [last]))
    by (rewrite Hw; exact Hrun).
  split; [exact Heq|].
  exact (iterations_nonneg max_iterations _ Hrange Heq).
Qed.

Section SchedulerProperties.

Context {G : Type} `{UniformSource G}.

Variable call_score : scorer -> nat -> list (list Z) -> Q.
Variable _geneset_bins : gmap Z (list (list Z)).
Variable _user_geneset_sizes : list Z.
Variable _col_names : list string.
Variable _binary_gene_matrix : bool.

(** X1.  When every matched null draw scores at least as much as the
    user's SNPs and [min_observations] is at most 100, the test of a
    column stops after the first batch: the row has [nulls_observed =
    nulls_tested = 100], so the p-value is [101 / 101], whatever
    [max_iterations] is. *)
Theorem all_exceed_row sf genesets min_observations max_iterations
    replicates replicate col n (st : sched_state G) :
  uniform_in_range G ->
  bins_cover _geneset_bins _user_geneset_sizes ->
  1 <= max_iterations < 2 ^ 63 ->
  min_observations <= 100 ->
  Qle_bool (call_score sf col genesets) 0 = false ->
  (forall drawn,
      matched_draw _geneset_bins _user_geneset_sizes drawn ->
      Qle_bool (call_score sf col genesets) (call_score sf col drawn) = true) ->
  _col_names !! col = Some n ->
  exists g',
    calculate_column call_score _geneset_bins _user_geneset_sizes _col_names
                     sf genesets min_observations max_iterations replicates
                     replicate col st
    = (Ok tt,
       {| generator := g';
          stream := stream st
                    ++ [ {| condition_name := n;
                            pvalue := (inject_Z 100 + 1)
                                      / (inject_Z 100 + 1);
                            nulls_observed := 100;
                            nulls_tested := 100;
                            replicate_column :=
                              replicate_field replicates replicate |} ] |}).
Proof.
  intros Hsrc Hbins Hrange Hmin Hscore Habove Hname.
  destruct (iterations_first_batch max_iterations Hrange)
    as (rest & Hit & _ & _).
  unfold calculate_column. rewrite Hscore, Hit. unfold sched_bind.
  destruct (run_batches_all call_score _geneset_bins _user_geneset_sizes
              Hsrc Hbins sf col (call_score sf col genesets) min_observations
              100 rest Habove 0 0 st ltac:(lia) ltac:(lia))
    as (st1 & -> & Hs).
  unfold col_name_at. rewrite Hname. cbn [sched_ret fst snd].
  unfold sched_write. rewrite Hs.
  exists (generator st1). reflexivity.
Qed.

(** X2.  When no matched draw scores as much as the user's SNPs and
    [min_observations] is positive, every batch runs: the row has
    [nulls_observed = 0], [nulls_tested = max(100, max_iterations)] and
    the p-value [1 / (nulls_tested + 1)]. *)
Theorem no_exceedance_row sf genesets min_observations max_iterations
    replicates replicate col n (st : sched_state G) :
  uniform_in_range G ->
  bins_cover _geneset_bins _user_geneset_sizes ->
  1 <= max_iterations < 2 ^ 63 ->
  0 < min_observations ->
  Qle_bool (call_score sf col genesets) 0 = false ->
  (forall drawn,
      matched_draw _geneset_bins _user_geneset_sizes drawn ->
      Qle_bool (call_score sf col genesets) (call_score sf col drawn) = false) ->
  _col_names !! col = Some n ->
  exists g',
    calculate_column call_score _geneset_bins _user_geneset_sizes _col_names
                     sf genesets min_observations max_iterations replicates
                     replicate col st
    = (Ok tt,
       {| generator := g';
          stream := stream st
                    ++ [ {| condition_name := n;
                            pvalue := (inject_Z 0 + 1)
                                      / (inject_Z (Z.max 100 max_iterations) + 1);
                            nulls_observed := 0;
                            nulls_tested := Z.max 100 max_iterations;
                            replicate_column :=
                              replicate_field replicates replicate |} ] |}).
Proof.
  intros Hsrc Hbins Hrange Hmin Hscore Hbelow Hname.
  destruct (iterations_first_batch max_iterations Hrange)
    as (rest & Hit & _ & Hsum).
  unfold calculate_column. rewrite Hscore, Hit. unfold sched_bind.
  destruct (run_batches_none call_score _geneset_bins _user_geneset_sizes
              Hsrc Hbins sf col (call_score sf col genesets) min_observations
              (100 :: rest) Hbelow 0 0 st Hmin) as (st1 & -> & Hs).
  unfold col_name_at. rewrite Hname. cbn [sched_ret fst snd].
  unfold sched_write. rewrite Z.add_0_l, Hsum, Hs.
  exists (generator st1). reflexivity.
Qed.

(** X3.  A row that [calculate_pvalues] writes for a column comes from
    the short cut ([user_score <= 0], with 0 and 0), or from a test that
    went through all [max(100, max_iterations)] null sets, or from a test
    that saw [min_observations] or more exceedances: the test of a column
    never stops early for another reason. *)
Theorem stopping_rule sf genesets min_observations max_iterations
    replicates replicate col (st st' : sched_state G) :
  1 <= max_iterations < 2 ^ 63 ->
  calculate_column call_score _geneset_bins _user_geneset_sizes _col_names
                   sf genesets min_observations max_iterations replicates
                   replicate col st = (Ok tt, st') ->
  exists row,
    stream st' = stream st ++ [row]
    /\ ((Qle_bool (call_score sf col genesets) 0 = true
         /\ nulls_observed row = 0 /\ nulls_tested row = 0)
        \/ (Qle_bool (call_score sf col genesets) 0 = false
            /\ (nulls_tested row = Z.max 100 max_iterations
                \/ min_observations <= nulls_observed row))).
Proof.
  intros Hrange. unfold calculate_column.
  destruct (Qle_bool (call_score sf col genesets) 0) eqn:Hscore.
  - unfold sched_bind, col_name_at.
    destruct (_col_names !! col) as [n|]; cbn; [|discriminate].
    intros [= <-]. eexists. split; [reflexivity|]. left. cbn. tauto.
  - destruct (iterations_first_batch max_iterations Hrange)
      as (rest & Hit & _ & Hsum).
    rewrite Hit. unfold sched_bind.
    pose proof (run_batches_stop call_score _geneset_bins _user_geneset_sizes
                  sf col (call_score sf col genesets) min_observations
                  (100 :: rest) 0 0 st) as Hstop.
    pose proof (run_batches_spec call_score _geneset_bins _user_geneset_sizes
                  sf col (call_score sf col genesets) min_observations
                  (100 :: rest)) as Hspec.
    destruct (run_batches call_score _geneset_bins _user_geneset_sizes sf col
                (call_score sf col genesets) min_observations (100 :: rest)
                0 0 st) as [[r| |] st1] eqn:Hrun; try discriminate.
    unfold col_name_at.
    destruct (_col_names !! col) as [n|]; cbn; [|discriminate].
    intros [= <-]. eexists. split.
    + cbn. f_equal.
      assert (Hpos : Forall (fun c => 0 <= c) (100 :: rest)).
      { destruct (iterations_first_batch max_iterations Hrange)
          as (rest' & Hit' & Hp & _).
        assert (rest' = rest) by congruence. subst rest'. exact Hp. }
      destruct (Hspec Hpos 0 0 st) as [Hs _]. rewrite Hrun in Hs. exact Hs.
    + right. split; [reflexivity|]. cbn.
      destruct (Hstop r eq_refl) as [Hall|Hobs]; [left | now right].
      rewrite Hall, Hsum. lia.
Qed.

End SchedulerProperties.

Lemma sample_bins_cover : bins_cover sample_bins [1].
Proof.
  constructor; [split; [discriminate | reflexivity] | constructor].
Qed.

Lemma all_exceed_row_witness :
  exists g',
    calculate_column sample_score sample_bins [1] ["c0"%string]
                     ScoreBinarySingle [[0]] 25 1000 1 0 0
                     {| generator := 42; stream := [] |}
    = (Ok tt,
       {| generator := g';
          stream := [] ++ [ {| condition_name := "c0";
                               pvalue := (inject_Z 100 + 1)
                                         / (inject_Z 100 + 1);
                               nulls_observed := 100;
                               nulls_tested := 100;
                               replicate_column := replicate_field 1 0 |} ] |}).
Proof.
  apply (all_exceed_row sample_score sample_bins [1] ["c0"%string]
           ScoreBinarySingle [[0]] 25 1000 1 0 0 "c0"%string
           {| generator := 42; stream := [] |} lcg_in_range sample_bins_cover).
  - split; [lia | reflexivity].
  - lia.
  - reflexivity.
  - intros drawn _. reflexivity.
  - reflexivity.
Defined.

Lemma sample_specific_below (drawn : list (list Z)) :
  matched_draw sample_bins [1] drawn ->
  Qle_bool (sample_specific_score ScoreBinarySingle 0 [[7]])
           (sample_specific_score ScoreBinarySingle 0 drawn) = false.
Proof.
  intros Hd. inversion Hd as [|s g ss gs Hg Hrest]; subst.
  inversion Hrest; subst.
  change (bin_of sample_bins 1) with [[0]] in Hg.
  apply list_elem_of_singleton in Hg. subst g. reflexivity.
Qed.

Lemma no_exceedance_row_witness :
  exists g',
    calculate_column sample_specific_score sample_bins [1] ["c0"%string]
                     ScoreBinarySingle [[7]] 25 1000 1 0 0
                     {| generator := 42; stream := [] |}
    = (Ok tt,
       {| generator := g';
          stream := [] ++ [ {| condition_name := "c0";
                               pvalue := (inject_Z 0 + 1)
                                         / (inject_Z (Z.max 100 1000) + 1);
                               nulls_observed := 0;
                               nulls_tested := Z.max 100 1000;
                               replicate_column := replicate_field 1 0 |} ] |}).
Proof.
  apply (no_exceedance_row sample_specific_score sample_bins [1]
           ["c0"%string] ScoreBinarySingle [[7]] 25 1000 1 0 0 "c0"%string
           {| generator := 42; stream := [] |} lcg_in_range sample_bins_cover).
  - split; [lia | reflexivity].
  - lia.
  - reflexivity.
  - exact sample_specific_below.
  - reflexivity.
Defined.

Lemma stopping_rule_witness :
  exists row,
    stream (sample_run 25 1000).2 = [] ++ [row]
    /\ ((Qle_bool (sample_score ScoreQuantitativeSingle 0 [[0]]) 0 = true
         /\ nulls_observed row = 0 /\ nulls_tested row = 0)
        \/ (Qle_bool (sample_score ScoreQuantitativeSingle 0 [[0]]) 0 = false
            /\ (nulls_tested row = Z.max 100 1000
                \/ 25 <= nulls_observed row))).
Proof.
  apply (stopping_rule sample_score sample_bins [1] ["c0"%string]
           ScoreQuantitativeSingle [[0]] 25 1000 1 0 0
           {| generator := 42; stream := [] |} (sample_run 25 1000).2).
  - split; [lia | reflexivity].
  - vm_compute. reflexivity.
Defined.

Section SchedulerCompletes.

Context {G : Type} `{UniformSource G}.

Variable call_score : scorer -> nat -> list (list Z) -> Q.
Variable _geneset_bins : gmap Z (list (list Z)).
Variable _user_geneset_sizes : list Z.
Variable _col_names : list string.
Variable _binary_gene_matrix : bool.

Hypothesis source_in_range : uniform_in_range G.
Hypothesis bins_nonempty : bins_cover _geneset_bins _user_geneset_sizes.

(** With every draw succeeding, a column that has a name gets its row. *)
Lemma calculate_column_ok sf genesets min_observations max_iterations
    replicates replicate col n (st : sched_state G) :
  1 <= max_iterations < 2 ^ 63 ->
  _col_names !! col = Some n ->
  exists row g',
    calculate_column call_score _geneset_bins _user_geneset_sizes _col_names
                     sf genesets min_observations max_iterations replicates
                     replicate col st
    = (Ok tt, {| generator := g'; stream := stream st ++ [row] |})
    /\ condition_name row = n.
Proof.
  intros Hrange Hname. unfold calculate_column.
  destruct (Qle_bool (call_score sf col genesets) 0).
  - unfold sched_bind, col_name_at. rewrite Hname. cbn.
    eexists _, _. split; [reflexivity|]. reflexivity.
  - destruct (iterations_first_batch max_iterations Hrange)
      as (rest & Hit & _ & _).
    rewrite Hit. unfold sched_bind.
    destruct (run_batches_ok call_score _geneset_bins _user_geneset_sizes
                source_in_range bins_nonempty sf col
                (call_score sf col genesets) min_observations (100 :: rest)
                0 0 st) as (r & st1 & -> & Hs).
    unfold col_name_at. rewrite Hname. cbn [sched_ret]. unfold sched_write.
    rewrite Hs. eexists _, _. split; reflexivity.
Qed.

Lemma calculate_columns_ok (body : nat -> Sched G unit) (len : nat) :
  (forall col n st,
      _col_names !! col = Some n ->
      exists row g',
        body col st = (Ok tt, {| generator := g'; stream := stream st ++ [row] |})
        /\ condition_name row = n) ->
  forall (a : nat) (st : sched_state G),
    (a + len <= length _col_names)%nat ->
    exists rows g',
      calculate_columns body (seq a len) st
      = (Ok tt, {| generator := g'; stream := stream st ++ rows |})
      /\ map condition_name rows = take len (drop a _col_names).
Proof.
  intros Hbody. induction len as [|len IH]; intros a st Hlen.
  - exists [], (generator st). cbn. rewrite app_nil_r.
    destruct st; split; reflexivity.
  - cbn [seq calculate_columns]. unfold sched_bind.
    destruct (lookup_lt_is_Some_2 _col_names a) as [n Hn]; [lia|].
    destruct (Hbody a n st Hn) as (row & g1 & -> & Hrow).
    destruct (IH (S a) {| generator := g1; stream := stream st ++ [row] |})
      as (rows & g' & -> & Hrows); [lia|].
    exists (row :: rows), g'. cbn [stream]. rewrite <- app_assoc.
    split; [reflexivity|].
    cbn [map]. rewrite Hrow, Hrows.
    rewrite (drop_S _col_names n a Hn). reflexivity.
Qed.

(** X4.  When every size of the user's loci has a non-empty bin and the
    matrix has no more columns than names, [calculate_pvalues] returns
    and writes exactly one row per column, in the order of the columns:
    the names of the rows are the first [ncols] column names. *)
Theorem calculate_pvalues_completes (score_method : string)
    (genesets : list (list Z))
    (min_observations max_iterations replicates replicate : Z) (ncols : nat)
    (st : sched_state G) :
  1 <= max_iterations < 2 ^ 63 ->
  (ncols <= length _col_names)%nat ->
  exists rows g',
    calculate_pvalues call_score _geneset_bins _user_geneset_sizes _col_names
                      _binary_gene_matrix score_method genesets
                      min_observations max_iterations replicates replicate
                      ncols st
    = (Ok tt, {| generator := g'; stream := stream st ++ rows |})
    /\ map condition_name rows = take ncols _col_names.
Proof.
  intros Hrange Hcols. unfold calculate_pvalues.
  destruct (calculate_columns_ok
              (calculate_column call_score _geneset_bins _user_geneset_sizes
                 _col_names
                 (select_score_function score_method _binary_gene_matrix)
                 genesets min_observations max_iterations replicates replicate)
              ncols) with (a := 0%nat) (st := st)
    as (rows & g' & Hrun & Hnames).
  - intros col n st0 Hn. now apply calculate_column_ok.
  - lia.
  - exists rows, g'. split; [exact Hrun | exact Hnames].
Qed.

End SchedulerCompletes.

Lemma calculate_pvalues_completes_witness :
  exists rows g',
    sample_run 25 1000 = (Ok tt, {| generator := g'; stream := [] ++ rows |})
    /\ map condition_name rows = take 1 ["c0"%string].
Proof.
  apply (calculate_pvalues_completes sample_score sample_bins [1]
           ["c0"%string] false lcg_in_range sample_bins_cover "single" [[0]]
           25 1000 1 0 1 {| generator := 42; stream := [] |}).
  - split; [lia | reflexivity].
  - cbn. lia.
Defined.

(** ** Sampling and binning *)

(** X5.  When every size in [_user_geneset_sizes] has a bin with genesets
    in it, [matched_genesets] returns one geneset for every size, in the
    order of the sizes, each taken from the bin of its size. *)
Theorem matched_genesets_one_per_size {G : Type} `{UniformSource G}
    (_geneset_bins : gmap Z (list (list Z))) (_user_geneset_sizes : list Z)
    (g : G) :
  uniform_in_range G ->
  bins_cover _geneset_bins _user_geneset_sizes ->
  exists drawn,
    (matched_genesets _geneset_bins _user_geneset_sizes g).1 = Ok drawn
    /\ length drawn = length _user_geneset_sizes
    /\ matched_draw _geneset_bins _user_geneset_sizes drawn.
Proof.
  intros Hsrc Hbins. unfold matched_genesets.
  destruct (matched_genesets_from_ok _geneset_bins _user_geneset_sizes
              Hsrc Hbins [] g) as (drawn & Hrun & Hdrawn).
  exists drawn. split; [exact Hrun|]. split; [|exact Hdrawn].
  symmetry. exact (Forall2_length _ _ _ Hdrawn).
Qed.

Lemma matched_genesets_one_per_size_witness :
  exists drawn,
    (matched_genesets sample_bins [1; 1] 42).1 = Ok drawn
    /\ length drawn = length [1; 1]
    /\ matched_draw sample_bins [1; 1] drawn.
Proof.
  apply (matched_genesets_one_per_size sample_bins [1; 1] 42 lcg_in_range).
  repeat (constructor; [split; [discriminate | reflexivity]|]).
  constructor.
Defined.

Section BinFacts.

Variable _snp_intervals : gmap string genomic_interval.
Variable _gene_interval_tree : gmap string IntervalTree.
Variable _null_snp_names : NameSet.t.
Variable slop max_genes : Z.

Local Abbreviation geneset_of :=
  (snp_geneset _snp_intervals _gene_interval_tree).

Lemma bin_of_insert (bins : gmap Z (list (list Z))) (k k' : Z)
    (v : list (list Z)) :
  bin_of (<[k := v]> bins) k' = if decide (k = k') then v else bin_of bins k'.
Proof.
  unfold bin_of. destruct (decide (k = k')) as [->|Hne].
  - now rewrite lookup_insert_eq.
  - now rewrite lookup_insert_ne.
Qed.

Lemma bin_step_members (bins : gmap Z (list (list Z)))
    (item : string * genomic_interval) (k : Z) (gs : list Z) :
  gs ∈ bin_of (bin_step _snp_intervals _gene_interval_tree _null_snp_names
                 slop max_genes bins item) k
  <-> gs ∈ bin_of bins k
      \/ (item.1 ∈ _null_snp_names
          /\ gs = geneset_of item.1 slop /\ gs <> []
          /\ k = Z.min (Z.of_nat (length gs)) max_genes).
Proof.
  unfold bin_step.
  destruct (NameSet.count item.1 _null_snp_names =? 0) eqn:Hcount.
  - apply NameSet_count_zero in Hcount. split; [tauto|].
    intros [Hin|(Hnull & _)]; [exact Hin | contradiction].
  - assert (Hnull : item.1 ∈ _null_snp_names).
    { destruct (decide (item.1 ∈ _null_snp_names)) as [Hin|Hout]; [exact Hin|].
      apply NameSet_count_zero in Hout. congruence. }
    destruct (0 <? Z.of_nat (length (geneset_of item.1 slop))) eqn:Hsize.
    + apply Z.ltb_lt in Hsize.
      assert (Hne : geneset_of item.1 slop <> []).
      { intros Hnil. rewrite Hnil in Hsize. cbn in Hsize. lia. }
      assert (Hkey :
                (if max_genes <? Z.of_nat (length (geneset_of item.1 slop))
                 then max_genes
                 else Z.of_nat (length (geneset_of item.1 slop)))
                = Z.min (Z.of_nat (length (geneset_of item.1 slop)))
                        max_genes).
      { destruct (Z.ltb_spec max_genes
                    (Z.of_nat (length (geneset_of item.1 slop)))); lia. }
      rewrite Hkey, bin_of_insert.
      destruct (decide (Z.min (Z.of_nat (length (geneset_of item.1 slop)))
                              max_genes = k)) as [Hk|Hk].
      * rewrite elem_of_app, list_elem_of_singleton, Hk. split.
        -- intros [Hin| ->]; [now left|]. right. repeat split; auto.
        -- intros [Hin|(_ & -> & _)]; [now left | now right].
      * split; [tauto|].
        intros [Hin|(_ & -> & _ & ->)]; [exact Hin | contradiction].
    + apply Z.ltb_ge in Hsize. split; [tauto|].
      intros [Hin|(_ & -> & Hne & _)]; [exact Hin|].
      destruct (geneset_of item.1 slop); [contradiction | cbn in Hsize; lia].
Qed.

Lemma bin_fold_members (items : list (string * genomic_interval)) :
  forall (bins : gmap Z (list (list Z))) (k : Z) (gs : list Z),
    gs ∈ bin_of (fold_left (bin_step _snp_intervals _gene_interval_tree
                              _null_snp_names slop max_genes) items bins) k
    <-> gs ∈ bin_of bins k
        \/ exists item,
             item ∈ items
             /\ item.1 ∈ _null_snp_names
             /\ gs = geneset_of item.1 slop /\ gs <> []
             /\ k = Z.min (Z.of_nat (length gs)) max_genes.
Proof.
  induction items as [|item items IH]; intros bins k gs; cbn [fold_left].
  - split; [tauto|]. intros [Hin|(item & Hitem & _)]; [exact Hin|].
    now apply elem_of_nil in Hitem.
  - rewrite IH, bin_step_members. split.
    + intros [[Hin|Hitem]|(it & Hit & Hb)].
      * now left.
      * right. exists item. split; [apply list_elem_of_here | exact Hitem].
      * right. exists it. split; [now apply list_elem_of_further | exact Hb].
    + intros [Hin|(it & Hit & Hb)]; [now left; left|].
      apply elem_of_cons in Hit as [->|Hit].
      * left. now right.
      * right. now exists it.
Qed.

(** X6.  The bins that [bin_genesets] builds: a geneset lies in bin [k]
    exactly when it is the non-empty geneset of a SNP that has an interval
    and is among the null SNPs, and [k] is the size of the geneset, capped
    at [max_genes]. *)
Theorem bin_genesets_members (k : Z) (gs : list Z) :
  gs ∈ bin_of (bin_genesets _snp_intervals _gene_interval_tree
                 _null_snp_names slop max_genes) k
  <-> exists snp,
        is_Some (_snp_intervals !! snp)
        /\ snp ∈ _null_snp_names
        /\ gs = snp_geneset _snp_intervals _gene_interval_tree snp slop
        /\ gs <> []
        /\ k = Z.min (Z.of_nat (length gs)) max_genes.
Proof.
  unfold bin_genesets. rewrite bin_fold_members. split.
  - intros [Hin|((snp & iv) & Hitem & Hb)].
    + unfold bin_of in Hin. rewrite lookup_empty in Hin.
      now apply elem_of_nil in Hin.
    + apply elem_of_map_to_list in Hitem. exists snp.
      split; [now exists iv | exact Hb].
  - intros (snp & [iv Hiv] & Hb). right. exists (snp, iv).
    split; [now apply elem_of_map_to_list | exact Hb].
Qed.

End BinFacts.

(** X7.  The cap that the constructor puts on the sizes of the user's
    genesets matches the cap of [bin_genesets]: when every size is the
    size of the geneset of some null SNP that has an interval, every
    capped size has a bin with at least one geneset in it. *)
Theorem capped_sizes_have_bins
    (_snp_intervals : gmap string genomic_interval)
    (_gene_interval_tree : gmap string IntervalTree)
    (_null_snp_names : NameSet.t) (slop max_genes : Z) (sizes : list Z) :
  Forall (fun size =>
            0 < size
            /\ exists snp,
                 is_Some (_snp_intervals !! snp) /\ snp ∈ _null_snp_names
                 /\ Z.of_nat (length (snp_geneset _snp_intervals
                                        _gene_interval_tree snp slop)) = size)
         sizes ->
  Forall (fun s => bin_of (bin_genesets _snp_intervals _gene_interval_tree
                             _null_snp_names slop max_genes) s <> [])
         (cap_sizes max_genes sizes).
Proof.
  intros Hsizes. unfold cap_sizes. apply Forall_fmap.
  eapply Forall_impl; [exact Hsizes|].
  intros size (Hpos & snp & Hiv & Hnull & Hlen). cbn.
  assert (Hin :
            snp_geneset _snp_intervals _gene_interval_tree snp slop
            ∈ bin_of (bin_genesets _snp_intervals _gene_interval_tree
                        _null_snp_names slop max_genes)
                     (if max_genes <? size then max_genes else size)).
  { apply bin_fold_members. right.
    destruct Hiv as [iv Hiv]. exists (snp, iv).
    split; [now apply elem_of_map_to_list|]. cbn [fst].
    split; [exact Hnull|]. split; [reflexivity|]. split.
    - intros Hnil. rewrite Hnil in Hlen. cbn in Hlen. lia.
    - rewrite Hlen. destruct (Z.ltb_spec max_genes size); lia. }
  intros Hnil. rewrite Hnil in Hin. now apply elem_of_nil in Hin.
Qed.

Lemma capped_sizes_have_bins_witness :
  Forall (fun s => bin_of (bin_genesets sample_snp_intervals sample_gene_tree
                             ["rs1"%string] 1000 MAX_GENES) s <> [])
         (cap_sizes MAX_GENES [1]).
Proof.
  apply (capped_sizes_have_bins sample_snp_intervals sample_gene_tree
           ["rs1"%string] 1000 MAX_GENES [1]).
  constructor; [|constructor].
  split; [lia|]. exists "rs1"%string.
  split; [now exists {| chrom := "chr1"; start := 1000; end_ := 2000 |}|].
  split; [apply list_elem_of_here | reflexivity].
Defined.

(** ** The overlap of the user's SNPs with the genes *)

Section OverlapFacts.

Variable _snp_intervals : gmap string genomic_interval.
Variable _gene_interval_tree : gmap string IntervalTree.
Variable slop : Z.

Local Abbreviation geneset_of' :=
  (snp_geneset _snp_intervals _gene_interval_tree).
Local Abbreviation overlap_fold :=
  (fold_left (overlap_step _snp_intervals _gene_interval_tree slop)).

Lemma overlap_step_cases (st : overlap_state) (snp : string) :
  (_snp_intervals !! snp = None
   /\ overlap_step _snp_intervals _gene_interval_tree slop st snp
      = {| absent_snp_names := NameSet.insert snp (absent_snp_names st);
           naked_snp_names := naked_snp_names st;
           genesets := genesets st;
           geneset_sizes := geneset_sizes st |})
  \/ (is_Some (_snp_intervals !! snp) /\ geneset_of' snp slop <> []
      /\ overlap_step _snp_intervals _gene_interval_tree slop st snp
         = {| absent_snp_names := absent_snp_names st;
              naked_snp_names := naked_snp_names st;
              genesets := <[snp := geneset_of' snp slop]> (genesets st);
              geneset_sizes := geneset_sizes st |})
  \/ (is_Some (_snp_intervals !! snp) /\ geneset_of' snp slop = []
      /\ overlap_step _snp_intervals _gene_interval_tree slop st snp
         = {| absent_snp_names := absent_snp_names st;
              naked_snp_names := NameSet.insert snp (naked_snp_names st);
              genesets := genesets st;
              geneset_sizes := geneset_sizes st |}).
Proof.
  unfold overlap_step.
  destruct (decide (_snp_intervals !! snp = None)) as [Hnone|Hsome].
  - left. now split.
  - right. apply not_eq_None_Some in Hsome.
    destruct (geneset_of' snp slop) as [|r gs] eqn:Hgs.
    + right. cbn. repeat split; auto.
    + left. cbn [length].
      replace (0 <? Z.of_nat (S (length gs))) with true
        by (symmetry; apply Z.ltb_lt; lia).
      repeat split; auto.
Qed.

Lemma overlap_fold_sizes (l : list string) :
  forall st, geneset_sizes (overlap_fold l st) = geneset_sizes st.
Proof.
  induction l as [|snp l IH]; intros st; cbn [fold_left]; [reflexivity|].
  rewrite IH.
  destruct (overlap_step_cases st snp)
    as [(_ & ->)|[(_ & _ & ->)|(_ & _ & ->)]]; reflexivity.
Qed.

Lemma overlap_fold_genesets (l : list string) :
  forall st x gs,
    genesets (overlap_fold l st) !! x = Some gs
    <-> (x ∈ l /\ is_Some (_snp_intervals !! x)
         /\ gs = geneset_of' x slop /\ gs <> [])
        \/ (genesets st !! x = Some gs
            /\ ~ (x ∈ l /\ is_Some (_snp_intervals !! x)
                  /\ geneset_of' x slop <> [])).
Proof.
  induction l as [|snp l IH]; intros st x gs; cbn [fold_left].
  - split.
    + intros Hx. right. split; [exact Hx|].
      intros (Hin & _). now apply elem_of_nil in Hin.
    + intros [(Hin & _)|(Hx & _)]; [now apply elem_of_nil in Hin | exact Hx].
  - rewrite IH. rewrite !elem_of_cons.
    destruct (overlap_step_cases st snp)
      as [(Hnone & ->)|[(Hsome & Hne & ->)|(Hsome & Hnil & ->)]];
      cbn [genesets].
    + split.
      * intros [(Hin & Hrest)|(Hx & Hnot)]; [left; tauto|].
        right. split; [exact Hx|].
        intros ([->|Hin] & Hiv & Hg); [|tauto].
        rewrite Hnone in Hiv. now destruct Hiv.
      * intros [([->|Hin] & Hiv & Hrest)|(Hx & Hnot)].
        -- rewrite Hnone in Hiv. now destruct Hiv.
        -- left. tauto.
        -- right. split; [exact Hx|]. tauto.
    + destruct (decide (x = snp)) as [->|Hx].
      * rewrite lookup_insert_eq. split.
        -- intros [(Hin & Hrest)|(Heq & Hnot)]; [left; tauto|].
           left. injection Heq as <-. tauto.
        -- intros [(_ & _ & -> & _)|(_ & Hnot)]; [|exfalso; tauto].
           destruct (decide (snp ∈ l)) as [Hin|Hout].
           ++ left. tauto.
           ++ right. split; [reflexivity | tauto].
      * rewrite lookup_insert_ne by congruence. split.
        -- intros [(Hin & Hrest)|(Hst & Hnot)]; [left; tauto|].
           right. split; [exact Hst|]. intros ([Heq|Hin] & Hrest); tauto.
        -- intros [([Heq|Hin] & Hrest)|(Hst & Hnot)];
             [tauto | left; tauto | right; split; [exact Hst | tauto]].
    + split.
      * intros [(Hin & Hrest)|(Hx & Hnot)]; [left; tauto|].
        right. split; [exact Hx|].
        intros ([->|Hin] & Hiv & Hg); tauto.
      * intros [([->|Hin] & Hiv & -> & Hg)|(Hx & Hnot)].
        -- contradiction.
        -- left. tauto.
        -- right. split; [exact Hx|]. tauto.
Qed.

Lemma overlap_fold_absent (l : list string) :
  forall st x,
    x ∈ absent_snp_names (overlap_fold l st)
    <-> x ∈ absent_snp_names st \/ (x ∈ l /\ _snp_intervals !! x = None).
Proof.
  induction l as [|snp l IH]; intros st x; cbn [fold_left].
  - rewrite elem_of_nil. tauto.
  - rewrite IH, elem_of_cons.
    destruct (overlap_step_cases st snp)
      as [(Hnone & ->)|[(Hsome & _ & ->)|(Hsome & _ & ->)]];
      cbn [absent_snp_names].
    + rewrite NameSet_insert_elem. split.
      * intros [[->|Hin]|Hrest]; tauto.
      * intros [Hin|([->|Hin] & Hx)]; tauto.
    + split; [tauto|]. intros [Hin|([->|Hin] & Hx)]; [tauto| |tauto].
      rewrite Hx in Hsome. now destruct Hsome.
    + split; [tauto|]. intros [Hin|([->|Hin] & Hx)]; [tauto| |tauto].
      rewrite Hx in Hsome. now destruct Hsome.
Qed.

Lemma overlap_fold_naked (l : list string) :
  forall st x,
    x ∈ naked_snp_names (overlap_fold l st)
    <-> x ∈ naked_snp_names st
        \/ (x ∈ l /\ is_Some (_snp_intervals !! x)
            /\ geneset_of' x slop = []).
Proof.
  induction l as [|snp l IH]; intros st x; cbn [fold_left].
  - rewrite elem_of_nil. tauto.
  - rewrite IH, elem_of_cons.
    destruct (overlap_step_cases st snp)
      as [(Hnone & ->)|[(Hsome & Hne & ->)|(Hsome & Hnil & ->)]];
      cbn [naked_snp_names].
    + split; [tauto|]. intros [Hin|([->|Hin] & Hx & Hg)]; [tauto| |tauto].
      rewrite Hnone in Hx. now destruct Hx.
    + split; [tauto|]. intros [Hin|([->|Hin] & Hx & Hg)]; tauto.
    + rewrite NameSet_insert_elem. split.
      * intros [[->|Hin]|Hrest]; tauto.
      * intros [Hin|([->|Hin] & Hx)]; tauto.
Qed.

(** X8.  [overlap_genes] records a geneset for exactly the SNPs of the
    list that have an interval and overlap at least one gene: the entry
    is the geneset that [snp_geneset] finds, never an empty one.  The
    function leaves [geneset_sizes] empty. *)
Theorem overlap_genes_genesets (snp_names naked : NameSet.t) :
  let result := overlap_genes _snp_intervals _gene_interval_tree
                              snp_names naked slop in
  (forall snp gs,
      genesets result !! snp = Some gs
      <-> snp ∈ snp_names /\ is_Some (_snp_intervals !! snp)
          /\ gs = snp_geneset _snp_intervals _gene_interval_tree snp slop
          /\ gs <> [])
  /\ geneset_sizes result = [].
Proof.
  cbn zeta. unfold overlap_genes. split.
  - intros snp gs. rewrite overlap_fold_genesets. cbn [genesets].
    rewrite lookup_empty. split; [|tauto].
    intros [Hhit|(Hno & _)]; [exact Hhit | discriminate].
  - now rewrite overlap_fold_sizes.
Qed.

(** X9.  [overlap_genes] sorts the SNPs it does not keep into two sets:
    the absent ones are those without an entry in [_snp_intervals], and
    the SNPs added to [_user_naked_snp_names] are those with an interval
    that overlaps no gene, also after the widening by [slop].  A SNP of
    the list ends in exactly one place. *)
Theorem overlap_genes_partition (snp_names naked : NameSet.t) :
  let result := overlap_genes _snp_intervals _gene_interval_tree
                              snp_names naked slop in
  (forall snp, snp ∈ absent_snp_names result
               <-> snp ∈ snp_names /\ _snp_intervals !! snp = None)
  /\ (forall snp, snp ∈ naked_snp_names result
                  <-> snp ∈ naked
                      \/ (snp ∈ snp_names /\ is_Some (_snp_intervals !! snp)
                          /\ snp_geneset _snp_intervals _gene_interval_tree
                                         snp slop = []))
  /\ (forall snp, snp ∈ snp_names -> (snp ∉ naked) ->
        (snp ∈ absent_snp_names result
         /\ (snp ∉ naked_snp_names result) /\ genesets result !! snp = None)
        \/ ((snp ∉ absent_snp_names result)
            /\ snp ∈ naked_snp_names result /\ genesets result !! snp = None)
        \/ ((snp ∉ absent_snp_names result)
            /\ (snp ∉ naked_snp_names result)
            /\ is_Some (genesets result !! snp))).
Proof.
  cbn zeta. unfold overlap_genes.
  assert (Habsent : forall snp,
             snp ∈ absent_snp_names
                     (overlap_fold snp_names
                        {| absent_snp_names := NameSet.empty;
                           naked_snp_names := naked;
                           genesets := ∅; geneset_sizes := [] |})
             <-> snp ∈ snp_names /\ _snp_intervals !! snp = None).
  { intros snp. rewrite overlap_fold_absent. cbn [absent_snp_names].
    unfold NameSet.empty. rewrite elem_of_nil. tauto. }
  assert (Hnaked : forall snp,
             snp ∈ naked_snp_names
                     (overlap_fold snp_names
                        {| absent_snp_names := NameSet.empty;
                           naked_snp_names := naked;
                           genesets := ∅; geneset_sizes := [] |})
             <-> snp ∈ naked
                 \/ (snp ∈ snp_names /\ is_Some (_snp_intervals !! snp)
                     /\ geneset_of' snp slop = [])).
  { intros snp. now rewrite overlap_fold_naked. }
  split; [exact Habsent|]. split; [exact Hnaked|].
  intros snp Hin Hout. rewrite Habsent, Hnaked.
  assert (Hgs : forall gs,
             genesets (overlap_fold snp_names
                         {| absent_snp_names := NameSet.empty;
                            naked_snp_names := naked;
                            genesets := ∅; geneset_sizes := [] |}) !! snp
             = Some gs
             <-> is_Some (_snp_intervals !! snp)
                 /\ gs = geneset_of' snp slop /\ gs <> []).
  { intros gs. rewrite overlap_fold_genesets. cbn [genesets].
    rewrite lookup_empty. split; [|tauto].
    intros [Hhit|(Hno & _)]; [tauto | discriminate]. }
  destruct (_snp_intervals !! snp) as [iv|] eqn:Hiv.
  - right. destruct (geneset_of' snp slop) as [|r gs] eqn:Hg.
    + left. split; [intros (_ & Hn); discriminate|].
      split; [right; repeat split; eauto|].
      apply eq_None_not_Some. intros [gs Hs]. apply Hgs in Hs.
      destruct Hs as (_ & -> & Hne). now apply Hne.
    + right. split; [intros (_ & Hn); discriminate|].
      split; [intros [Hn|(_ & _ & Hn)]; [contradiction | discriminate]|].
      exists (r :: gs). apply Hgs. repeat split; eauto.
  - left. split; [now split|].
    split; [intros [Hn|(_ & [? Hn] & _)]; [contradiction | discriminate]|].
    apply eq_None_not_Some. intros [gs Hs]. apply Hgs in Hs.
    destruct Hs as ([? Hn] & _). discriminate.
Qed.

End OverlapFacts.

(** ** The interval index and the rows it names *)

(** Every row index that [snp_geneset] returns is the [value] of an
    interval of the tree of the SNP's chromosome. *)
Lemma snp_geneset_from_tree (_snp_intervals : gmap string genomic_interval)
    (_gene_interval_tree : gmap string IntervalTree) (snp : string)
    (slop r : Z) :
  r ∈ snp_geneset _snp_intervals _gene_interval_tree snp slop ->
  exists iv,
    iv ∈ tree_of _gene_interval_tree
           (chrom (interval_of _snp_intervals snp))
    /\ value iv = r.
Proof.
  unfold snp_geneset, snp_geneset_traced, findOverlapping.
  set (tree := tree_of _ _). cbn [app].
  set (exact := List.filter _ tree).
  destruct (Z.of_nat (length exact) =? 0) eqn:Hexact; cbn [snd].
  - set (found := exact ++ List.filter _ tree).
    destruct (0 <? Z.of_nat (length found)); [|intros Hr; inversion Hr].
    intros Hr. apply list_elem_of_fmap in Hr as (iv & -> & Hiv).
    exists iv. split; [|reflexivity].
    subst found. apply elem_of_app in Hiv as [Hiv|Hiv];
      apply list_elem_of_In, filter_In in Hiv as [Hiv _];
      now apply list_elem_of_In.
  - destruct (0 <? Z.of_nat (length exact)); [|intros Hr; inversion Hr].
    intros Hr. apply list_elem_of_fmap in Hr as (iv & -> & Hiv).
    exists iv. split; [|reflexivity].
    apply list_elem_of_In, filter_In in Hiv as [Hiv _].
    now apply list_elem_of_In.
Qed.

Section IndexFacts.

Variable row_names : list string.

Lemma index_fold (l : list (nat * string)) :
  forall m : gmap string Z,
    (forall k n, (k, n) ∈ l -> row_names !! k = Some n) ->
    (forall n v, m !! n = Some v ->
                 0 <= v /\ row_names !! Z.to_nat v = Some n) ->
    forall n v,
      fold_left (fun m '(k, n) => <[n := Z.of_nat k]> m) l m !! n = Some v ->
      0 <= v /\ row_names !! Z.to_nat v = Some n.
Proof.
  induction l as [|[k0 n0] l IH]; intros m Hl Hm n v; cbn [fold_left].
  - apply Hm.
  - apply IH.
    + intros k n' Hin. apply Hl. now apply list_elem_of_further.
    + intros n' v'. destruct (decide (n0 = n')) as [->|Hne].
      * rewrite lookup_insert_eq. intros [= <-].
        split; [lia|]. rewrite Nat2Z.id. apply Hl, list_elem_of_here.
      * rewrite lookup_insert_ne by exact Hne. apply Hm.
Qed.

Lemma index_fold_total (l : list (nat * string)) :
  forall (m : gmap string Z) (n : string),
    is_Some (m !! n) \/ (exists k, (k, n) ∈ l) ->
    is_Some (fold_left (fun m '(k, n) => <[n := Z.of_nat k]> m) l m !! n).
Proof.
  induction l as [|[k0 n0] l IH]; intros m n Hn; cbn [fold_left].
  - destruct Hn as [Hn|[k Hk]]; [exact Hn | now apply elem_of_nil in Hk].
  - apply IH. destruct (decide (n0 = n)) as [->|Hne].
    + left. rewrite lookup_insert_eq. now eexists.
    + rewrite lookup_insert_ne by exact Hne.
      destruct Hn as [Hn|[k Hk]]; [now left|].
      apply elem_of_cons in Hk as [[= -> ->]|Hk]; [contradiction|].
      right. now exists k.
Qed.

(** [index] maps a row name to a position that holds this name. *)
Lemma index_lookup (n : string) (v : Z) :
  index row_names !! n = Some v ->
  0 <= v /\ row_names !! Z.to_nat v = Some n.
Proof.
  unfold index. apply index_fold.
  - intros k n' Hin. apply elem_of_lookup_imap in Hin as (i & x & [= -> ->] & Hx).
    exact Hx.
  - intros n' v'. rewrite lookup_empty. discriminate.
Qed.

Lemma index_total (n : string) :
  n ∈ row_names -> is_Some (index row_names !! n).
Proof.
  intros Hn. unfold index. apply index_fold_total. right.
  apply list_elem_of_lookup in Hn as [k Hk]. exists k.
  apply elem_of_lookup_imap. now exists k, n.
Qed.

Lemma bed_step_intervals (bed : list BEDRow) (st : bed_tree_state)
    (row : BEDRow) :
  row ∈ bed ->
  (forall c ivs iv, intervals st !! c = Some ivs -> iv ∈ ivs ->
                    from_row row_names bed c iv) ->
  forall c ivs iv,
    intervals (bed_step row_names st row) !! c = Some ivs -> iv ∈ ivs ->
    from_row row_names bed c iv.
Proof.
  intros Hrow Hst c ivs iv. unfold bed_step.
  destruct (NameSet.count (name row) (row_names_set row_names) =? 0) eqn:Hc;
    cbn [negb intervals]; [apply Hst|].
  assert (Hin : name row ∈ row_names).
  { rewrite <- NameSet_of_list_elem.
    destruct (decide (name row ∈ NameSet.of_list row_names)) as [Hd|Hd];
      [exact Hd|].
    apply NameSet_count_zero in Hd. unfold row_names_set in Hc. congruence. }
  destruct (decide (chrom (i row) = c)) as [<-|Hne].
  - rewrite lookup_insert_eq. intros [= <-] Hiv.
    apply elem_of_app in Hiv as [Hiv|Hiv].
    + destruct (intervals st !! chrom (i row)) as [old|] eqn:Hold.
      * change (default [] (Some old)) with old in Hiv.
        exact (Hst _ _ _ Hold Hiv).
      * now apply elem_of_nil in Hiv.
    + apply list_elem_of_singleton in Hiv. subst iv. cbn [value i_start i_stop].
      destruct (index_total (name row) Hin) as [v Hv].
      rewrite Hv. change (default 0 (Some v)) with v.
      destruct (index_lookup _ _ Hv) as [Hpos Hname].
      split; [exact Hpos|]. exists row. repeat split; auto.
  - rewrite lookup_insert_ne by exact Hne. apply Hst.
Qed.

Lemma bed_fold_intervals (bed l : list BEDRow) :
  forall st : bed_tree_state,
    (forall row, row ∈ l -> row ∈ bed) ->
    (forall c ivs iv, intervals st !! c = Some ivs -> iv ∈ ivs ->
                      from_row row_names bed c iv) ->
    forall c ivs iv,
      intervals (fold_left (bed_step row_names) l st) !! c = Some ivs ->
      iv ∈ ivs -> from_row row_names bed c iv.
Proof.
  induction l as [|row l IH]; intros st Hl Hst; cbn [fold_left];
    [exact Hst|].
  apply IH.
  - intros r Hr. apply Hl. now apply list_elem_of_further.
  - apply bed_step_intervals; [apply Hl, list_elem_of_here | exact Hst].
Qed.

(** X10.  With the tree that [read_bed_interval_tree] builds, every row
    index that [snp_geneset] returns is a valid position of the row
    names: it is the position of the name of a gene that has a row in
    the BED file, on the chromosome where the SNP's interval lies. *)
Theorem snp_geneset_names_rows (bed : list BEDRow)
    (_snp_intervals : gmap string genomic_interval) (snp : string)
    (slop : Z) :
  Forall (fun r =>
            0 <= r < Z.of_nat (length row_names)
            /\ exists row,
                 row ∈ bed
                 /\ chrom (i row) = chrom (interval_of _snp_intervals snp)
                 /\ row_names !! Z.to_nat r = Some (name row))
         (snp_geneset _snp_intervals (read_bed_interval_tree row_names bed).2
                      snp slop).
Proof.
  apply Forall_forall. intros r Hr.
  apply snp_geneset_from_tree in Hr as (iv & Hiv & <-).
  unfold tree_of, read_bed_interval_tree in Hiv. cbn [snd] in Hiv.
  match type of Hiv with
  | iv ∈ default [] ?o => destruct o as [ivs|] eqn:Hivs
  end; [|now apply elem_of_nil in Hiv].
  change (default [] (Some ivs)) with ivs in Hiv.
  assert (Hempty : forall c ivs iv,
             (∅ : gmap string (list Interval)) !! c = Some ivs -> iv ∈ ivs ->
             from_row row_names bed c iv).
  { intros c ivs0 iv0. rewrite lookup_empty. discriminate. }
  destruct (bed_fold_intervals bed bed
              {| intervals := ∅; bed_genes := NameSet.empty;
                 skipped_genes := 0 |}
              (fun row H => H) Hempty _ ivs iv Hivs Hiv)
    as (Hpos & row & Hrow & Hchrom & Hname & _).
  split.
  - split; [exact Hpos|]. apply lookup_lt_Some in Hname. lia.
  - exists row. auto.
Qed.

End IndexFacts.

Lemma bed_intervals_fold (rows : list BEDRow) :
  forall (m : gmap string genomic_interval) (n : string),
    fold_left (fun m row => <[name row := i row]> m) rows m !! n
    = match last (List.filter (fun row => String.eqb (name row) n) rows) with
      | Some row => Some (i row)
      | None => m !! n
      end.
Proof.
  induction rows as [|row rows IH]; intros m n; cbn [fold_left List.filter];
    [reflexivity|].
  rewrite IH. destruct (String.eqb_spec (name row) n) as [Heq|Hne].
  - destruct (List.filter _ rows) as [|r l] eqn:Hrest.
    + cbn. now rewrite Heq, lookup_insert_eq.
    + change (last (row :: r :: l)) with (last (r :: l)).
      destruct (last (r :: l)) eqn:Hlast; [reflexivity|].
      now apply last_None in Hlast.
  - destruct (last _); [reflexivity|].
    now rewrite lookup_insert_ne.
Qed.

(** X11.  [read_bed_intervals] on a file that opens keeps, for every
    name, the interval of the last row with that name; a name that no row
    has gets no entry. *)
Theorem read_bed_intervals_last_row (filename : string)
    (rows : list BEDRow) :
  exists intervals,
    read_bed_intervals filename (Some rows) = Continue intervals
    /\ forall n,
         intervals !! n
         = i <$> last (List.filter (fun row => String.eqb (name row) n) rows).
Proof.
  eexists. split; [reflexivity|]. intros n.
  rewrite bed_intervals_fold, lookup_empty.
  now destruct (last _).
Qed.

(** ** Merging: the union test *)

Lemma set_union_nil_r (a : list Z) : set_union a [] = a.
Proof. destruct a; reflexivity. Qed.

Lemma set_union_cons_cons (x y : Z) (a' b' : list Z) :
  set_union (x :: a') (y :: b')
  = if y <? x then y :: set_union (x :: a') b'
    else if x <? y then x :: set_union a' (y :: b')
    else x :: set_union a' b'.
Proof. reflexivity. Qed.

Lemma set_union_elem (a : list Z) :
  forall (b : list Z) (r : Z), r ∈ set_union a b <-> r ∈ a \/ r ∈ b.
Proof.
  induction a as [|x a' IHa]; intros b r.
  - cbn. rewrite elem_of_nil. tauto.
  - induction b as [|y b' IHb].
    + rewrite set_union_nil_r, elem_of_nil. tauto.
    + rewrite set_union_cons_cons.
      destruct (Z.ltb_spec y x) as [Hyx|Hyx];
        [|destruct (Z.ltb_spec x y) as [Hxy|Hxy]].
      * rewrite elem_of_cons, IHb, !elem_of_cons. tauto.
      * rewrite elem_of_cons, IHa, !elem_of_cons. tauto.
      * assert (x = y) by lia. subst y.
        rewrite elem_of_cons, IHa, !elem_of_cons. tauto.
Qed.

Lemma share_gene_cons_l (x : Z) (a b : list Z) :
  share_gene (x :: a) b <-> x ∈ b \/ share_gene a b.
Proof.
  unfold share_gene. split.
  - intros (r & Hr & Hb). apply elem_of_cons in Hr as [->|Hr]; [now left|].
    right. now exists r.
  - intros [Hx|(r & Hr & Hb)].
    + exists x. split; [apply list_elem_of_here | exact Hx].
    + exists r. split; [now apply list_elem_of_further | exact Hb].
Qed.

Lemma share_gene_cons_r (y : Z) (a b : list Z) :
  share_gene a (y :: b) <-> y ∈ a \/ share_gene a b.
Proof.
  unfold share_gene. split.
  - intros (r & Hr & Hb). apply elem_of_cons in Hb as [->|Hb]; [now left|].
    right. now exists r.
  - intros [Hy|(r & Hr & Hb)].
    + exists y. split; [exact Hy | apply list_elem_of_here].
    + exists r. split; [exact Hr | now apply list_elem_of_further].
Qed.

Lemma sorted_head_below (x y : Z) (l : list Z) :
  StronglySorted Z.le (x :: l) -> y < x -> y ∉ x :: l.
Proof.
  intros Hs Hy Hin. apply StronglySorted_inv in Hs as [_ Hall].
  apply elem_of_cons in Hin as [->|Hin]; [lia|].
  rewrite Forall_forall in Hall. specialize (Hall y Hin). lia.
Qed.

(** On ascending lists the union is shorter than the two lists together
    exactly when they share an element. *)
Lemma set_union_length (a : list Z) :
  forall b : list Z,
    StronglySorted Z.le a -> StronglySorted Z.le b ->
    (length (set_union a b) <= length a + length b)%nat
    /\ ((length (set_union a b) < length a + length b)%nat
        <-> share_gene a b).
Proof.
  induction a as [|x a' IHa]; intros b Ha Hb.
  - cbn. split; [lia|]. split; [lia|].
    intros (r & Hr & _). now apply elem_of_nil in Hr.
  - induction b as [|y b' IHb].
    + rewrite set_union_nil_r. cbn [length]. split; [lia|]. split; [lia|].
      intros (r & _ & Hr). now apply elem_of_nil in Hr.
    + pose proof (StronglySorted_inv Ha) as [Ha' Hxa].
      pose proof (StronglySorted_inv Hb) as [Hb' Hyb].
      rewrite set_union_cons_cons.
      destruct (Z.ltb_spec y x) as [Hyx|Hyx];
        [|destruct (Z.ltb_spec x y) as [Hxy|Hxy]].
      * destruct (IHb Hb') as [Hle Hlt]. cbn [length] in *.
        split; [lia|]. rewrite share_gene_cons_r.
        pose proof (sorted_head_below x y a' Ha Hyx).
        split; [intros Hl; right; apply Hlt; lia|].
        intros [Hin|Hs]; [contradiction|]. apply Hlt in Hs. lia.
      * destruct (IHa (y :: b') Ha' Hb) as [Hle Hlt]. cbn [length] in *.
        split; [lia|]. rewrite share_gene_cons_l.
        pose proof (sorted_head_below y x b' Hb Hxy).
        split; [intros Hl; right; apply Hlt; lia|].
        intros [Hin|Hs]; [contradiction|]. apply Hlt in Hs. lia.
      * assert (x = y) by lia. subst y.
        destruct (IHa b' Ha' Hb') as [Hle _]. cbn [length] in *.
        split; [lia|]. split; [|lia].
        intros _. exists x. split; apply list_elem_of_here.
Qed.

Lemma set_union_sorted (a : list Z) :
  forall b : list Z,
    StronglySorted Z.le a -> StronglySorted Z.le b ->
    StronglySorted Z.le (set_union a b).
Proof.
  induction a as [|x a' IHa]; intros b Ha Hb; [exact Hb|].
  induction b as [|y b' IHb]; [now rewrite set_union_nil_r|].
  pose proof (StronglySorted_inv Ha) as [Ha' Hxa].
  pose proof (StronglySorted_inv Hb) as [Hb' Hyb].
  rewrite Forall_forall in Hxa, Hyb.
  rewrite set_union_cons_cons.
  destruct (Z.ltb_spec y x) as [Hyx|Hyx];
    [|destruct (Z.ltb_spec x y) as [Hxy|Hxy]].
  - constructor; [now apply IHb|].
    apply Forall_forall. intros r Hr. apply set_union_elem in Hr as [Hr|Hr].
    + apply elem_of_cons in Hr as [->|Hr]; [lia|].
      specialize (Hxa r Hr). lia.
    + now apply Hyb.
  - constructor; [now apply IHa|].
    apply Forall_forall. intros r Hr. apply set_union_elem in Hr as [Hr|Hr].
    + now apply Hxa.
    + apply elem_of_cons in Hr as [->|Hr]; [lia|].
      specialize (Hyb r Hr). lia.
  - assert (x = y) by lia. subst y.
    constructor; [now apply IHa|].
    apply Forall_forall. intros r Hr. apply set_union_elem in Hr as [Hr|Hr].
    + now apply Hxa.
    + now apply Hyb.
Qed.

Lemma sort_genes_sorted (l : list Z) : StronglySorted Z.le (sort_genes l).
Proof. unfold sort_genes. apply StronglySorted_merge_sort; apply _. Qed.

Lemma sort_genes_elem (l : list Z) (r : Z) : r ∈ sort_genes l <-> r ∈ l.
Proof. unfold sort_genes. now rewrite merge_sort_Permutation. Qed.

Lemma sort_genes_length (l : list Z) : length (sort_genes l) = length l.
Proof. unfold sort_genes. now rewrite merge_sort_Permutation. Qed.

Lemma share_gene_sorted (a b : list Z) :
  share_gene a (sort_genes b) <-> share_gene a b.
Proof.
  unfold share_gene. split; intros (r & Hr & Hb); exists r;
    (split; [exact Hr|]); now apply sort_genes_elem.
Qed.

Lemma merge_inner_step_spec (user_genesets : gmap string (list Z))
    (a b : string) (st : merge_inner) (gb : list Z) :
  a <> b ->
  user_genesets !! b = Some gb ->
  (b ∉ inner_merged_snps st) ->
  StronglySorted Z.le (genes_a st) ->
  (share_gene (genes_a st) gb ->
   let st' := merge_inner_step user_genesets a st b in
   merged_snp st' = (merged_snp st ++ "," ++ b)%string
   /\ StronglySorted Z.le (genes_a st')
   /\ (forall r, r ∈ genes_a st' <-> r ∈ genes_a st \/ r ∈ gb)
   /\ (forall x, x ∈ inner_merged_snps st'
                 <-> x = a \/ x = b \/ x ∈ inner_merged_snps st))
  /\ (~ share_gene (genes_a st) gb ->
      merge_inner_step user_genesets a st b = st).
Proof.
  intros Hab Hgb Hb Hsorted. unfold merge_inner_step.
  destruct (String.eqb_spec a b) as [Heq|_]; [contradiction|].
  rewrite Hgb.
  assert (Hcount : (0 <? NameSet.count b (inner_merged_snps st)) = false).
  { apply NameSet_count_zero in Hb. apply Z.eqb_eq in Hb. now rewrite Hb. }
  rewrite Hcount.
  destruct (set_union_length (genes_a st) (sort_genes gb) Hsorted
              (sort_genes_sorted gb)) as [_ Hlt].
  rewrite share_gene_sorted in Hlt.
  destruct (Z.ltb_spec
              (Z.of_nat (length (set_union (genes_a st) (sort_genes gb))))
              (Z.of_nat (length (genes_a st))
               + Z.of_nat (length (sort_genes gb)))) as [Hl|Hl].
  - split; [|intros Hno; exfalso; apply Hno, Hlt; lia].
    intros _. cbn zeta. cbn [merged_snp genes_a inner_merged_snps].
    split; [reflexivity|].
    split; [apply set_union_sorted;
            [exact Hsorted | apply sort_genes_sorted]|].
    split.
    + intros r. now rewrite set_union_elem, sort_genes_elem.
    + intros x. rewrite !NameSet_insert_elem. tauto.
  - split; [|reflexivity].
    intros Hshare. apply Hlt in Hshare. lia.
Qed.

(** X12.  One step of the inner loop of [merge_user_snps], for a SNP [b]
    other than [a] that has a geneset and is not merged yet: when the
    genes collected for [a] and the genes of [b] share a row, [b] joins
    the locus, whose name gets the name of [b] after a comma and whose
    genes become the ascending union of the two; when they share no row,
    the step changes nothing. *)
Theorem merge_inner_step_shared (user_genesets : gmap string (list Z))
    (a b : string) (st : merge_inner) (gb : list Z) :
  a <> b ->
  user_genesets !! b = Some gb ->
  (b ∉ inner_merged_snps st) ->
  StronglySorted Z.le (genes_a st) ->
  (share_gene (genes_a st) gb ->
   let st' := merge_inner_step user_genesets a st b in
   merged_snp st' = (merged_snp st ++ "," ++ b)%string
   /\ StronglySorted Z.le (genes_a st')
   /\ (forall r, r ∈ genes_a st' <-> r ∈ genes_a st \/ r ∈ gb)
   /\ (forall x, x ∈ inner_merged_snps st'
                 <-> x = a \/ x = b \/ x ∈ inner_merged_snps st))
  /\ (~ share_gene (genes_a st) gb ->
      merge_inner_step user_genesets a st b = st).
Proof. exact (merge_inner_step_spec user_genesets a b st gb). Qed.

Lemma merge_inner_step_shared_witness :
  let st := {| merged_snp := "rs1"; genes_a := [1];
               inner_merged_snps := [] |} in
  let st' := merge_inner_step sample_user_genesets "rs1" st "rs3" in
  merged_snp st' = "rs1,rs3"%string
  /\ forall r, r ∈ genes_a st' <-> r ∈ [1] \/ r ∈ [1; 2].
Proof.
  cbn zeta.
  pose proof (merge_inner_step_shared sample_user_genesets "rs1" "rs3"
                {| merged_snp := "rs1"; genes_a := [1];
                   inner_merged_snps := [] |} [1; 2]) as Hstep.
  destruct Hstep as [Hshared _].
  - discriminate.
  - reflexivity.
  - apply not_elem_of_nil.
  - repeat constructor.
  - destruct Hshared as (Hname & _ & Hgenes & _).
    + exists 1. split; apply list_elem_of_here.
    + split; [exact Hname | exact Hgenes].
Defined.

Lemma omap_cons_eq {A B : Type} (f : A -> option B) (a : A) (l : list A) :
  omap f (a :: l)
  = match f a with Some y => y :: omap f l | None => omap f l end.
Proof. reflexivity. Qed.

Section MergeDisjoint.

Variable snp_names : NameSet.t.
Variable user_genesets : gmap string (list Z).

Hypothesis disjoint : loci_disjoint snp_names user_genesets.

(** Without a shared gene the inner loop leaves its state as it is. *)
Lemma merge_inner_fold_stable (a : string) (ga : list Z) (l : list string) :
  a ∈ snp_names -> user_genesets !! a = Some ga ->
  (forall b, b ∈ l -> b ∈ snp_names) ->
  forall st,
    genes_a st = sort_genes ga -> inner_merged_snps st = [] ->
    fold_left (merge_inner_step user_genesets a) l st = st.
Proof.
  intros Ha Hga. induction l as [|b l IH]; intros Hl st Hgenes Hmerged;
    cbn [fold_left]; [reflexivity|].
  assert (Hstep : merge_inner_step user_genesets a st b = st).
  { destruct (decide (a = b)) as [<-|Hab].
    - unfold merge_inner_step. now rewrite String.eqb_refl.
    - destruct (user_genesets !! b) as [gb|] eqn:Hgb.
      + apply (merge_inner_step_spec user_genesets a b st gb Hab Hgb).
        * rewrite Hmerged. apply not_elem_of_nil.
        * rewrite Hgenes. apply sort_genes_sorted.
        * rewrite Hgenes. intros (r & Hr & Hb).
          rewrite sort_genes_elem in Hr.
          apply (disjoint a b ga gb Ha (Hl b (list_elem_of_here _ _)) Hab
                          Hga Hgb).
          exists r. split; assumption.
      + unfold merge_inner_step.
        destruct (String.eqb a b); [reflexivity|]. now rewrite Hgb. }
  rewrite Hstep. apply IH; [|exact Hgenes | exact Hmerged].
  intros b' Hb'. apply Hl. now apply list_elem_of_further.
Qed.

Lemma merge_outer_step_disjoint (st : merge_state) (a : string) :
  a ∈ snp_names -> merged_snps st = [] ->
  merge_outer_step snp_names user_genesets st a
  = match user_genesets !! a with
    | None => st
    | Some ga =>
        {| new_snp_names := NameSet.insert a (new_snp_names st);
           new_genesets := <[a := sort_genes ga]> (new_genesets st);
           new_geneset_sizes :=
             new_geneset_sizes st ++ [Z.of_nat (length ga)];
           merged_snps := [];
           count_merged :=
             if has_comma a then count_merged st + 1 else count_merged st |}
    end.
Proof.
  intros Ha Hmerged. unfold merge_outer_step.
  destruct (user_genesets !! a) as [ga|] eqn:Hga; [|reflexivity].
  rewrite Hmerged. cbn [NameSet.count existsb Z.ltb Z.compare].
  rewrite (merge_inner_fold_stable a ga snp_names Ha Hga (fun b H => H))
    by reflexivity.
  cbn [merged_snp genes_a inner_merged_snps].
  now rewrite sort_genes_length.
Qed.

Lemma merge_outer_fold_disjoint (l : list string) :
  (forall a, a ∈ l -> a ∈ snp_names) ->
  forall st,
    merged_snps st = [] ->
    let r := fold_left (merge_outer_step snp_names user_genesets) l st in
    merged_snps r = []
    /\ (forall x, x ∈ new_snp_names r
                  <-> x ∈ new_snp_names st
                      \/ (x ∈ l /\ is_Some (user_genesets !! x)))
    /\ (forall x, new_genesets r !! x
                  = match (if decide (x ∈ l)
                           then sort_genes <$> user_genesets !! x
                           else None) with
                    | Some v => Some v
                    | None => new_genesets st !! x
                    end)
    /\ new_geneset_sizes r
       = new_geneset_sizes st
         ++ omap (fun a => (fun g => Z.of_nat (length g))
                             <$> user_genesets !! a) l.
Proof.
  induction l as [|a l IH]; intros Hl st Hmerged; cbn zeta.
  - cbn [fold_left omap]. rewrite app_nil_r.
    split; [exact Hmerged|]. split.
    + intros x. rewrite elem_of_nil. tauto.
    + split; [|reflexivity]. intros x.
      destruct (decide (x ∈ [])) as [Hin|_]; [|reflexivity].
      now apply elem_of_nil in Hin.
  - cbn [fold_left].
    rewrite (merge_outer_step_disjoint st a (Hl a (list_elem_of_here _ _))
               Hmerged).
    assert (Hl' : forall b, b ∈ l -> b ∈ snp_names).
    { intros b Hb. apply Hl. now apply list_elem_of_further. }
    destruct (user_genesets !! a) as [ga|] eqn:Hga.
    + destruct (IH Hl' {| new_snp_names := NameSet.insert a (new_snp_names st);
                          new_genesets :=
                            <[a := sort_genes ga]> (new_genesets st);
                          new_geneset_sizes :=
                            new_geneset_sizes st ++ [Z.of_nat (length ga)];
                          merged_snps := [];
                          count_merged :=
                            if has_comma a then count_merged st + 1
                            else count_merged st |} eq_refl)
        as (Hm & Hnames & Hsets & Hsizes).
      cbn [new_snp_names new_genesets new_geneset_sizes] in *.
      split; [exact Hm|]. split; [|split].
      * intros x. rewrite Hnames, NameSet_insert_elem, elem_of_cons.
        split.
        -- intros [[->|Hx]|(Hx & Hs)]; [|tauto|tauto].
           right. split; [now left | now exists ga].
        -- intros [Hx|([->|Hx] & Hs)]; tauto.
      * intros x. rewrite Hsets.
        destruct (decide (x ∈ l)) as [Hin|Hout];
          destruct (decide (x ∈ a :: l)) as [Hin'|Hout'];
          try (exfalso; apply Hout'; now apply list_elem_of_further).
        -- destruct (user_genesets !! x) as [gx|] eqn:Hgx; cbn; [reflexivity|].
           destruct (decide (a = x)) as [->|Hne]; [congruence|].
           now rewrite lookup_insert_ne.
        -- apply elem_of_cons in Hin' as [->|Hin']; [|contradiction].
           now rewrite lookup_insert_eq, Hga.
        -- assert (a <> x) by (intros ->; apply Hout', list_elem_of_here).
           now rewrite lookup_insert_ne.
      * rewrite Hsizes, omap_cons_eq. cbn beta. rewrite Hga. cbn.
        now rewrite <- app_assoc.
    + destruct (IH Hl' st Hmerged) as (Hm & Hnames & Hsets & Hsizes).
      split; [exact Hm|]. split; [|split].
      * intros x. rewrite Hnames, elem_of_cons. split.
        -- intros [Hx|(Hx & Hs)]; tauto.
        -- intros [Hx|([->|Hx] & Hs)]; [tauto| |tauto].
           rewrite Hga in Hs. now destruct Hs.
      * intros x. rewrite Hsets.
        destruct (decide (x ∈ l)) as [Hin|Hout];
          destruct (decide (x ∈ a :: l)) as [Hin'|Hout'];
          try (exfalso; apply Hout'; now apply list_elem_of_further);
          try reflexivity.
        apply elem_of_cons in Hin' as [->|Hin']; [|contradiction].
        now rewrite Hga.
      * rewrite Hsizes, omap_cons_eq. cbn beta. now rewrite Hga.
Qed.

(** X13.  When no two of the user's SNPs share a gene, [merge_user_snps]
    merges nothing: every SNP that has a geneset stays a locus of its own
    under its own name, with its genes in ascending order, no SNP is
    marked as merged, and the sizes are the sizes of these genesets in
    the order of the SNP names. *)
Theorem merge_user_snps_disjoint :
  let r := merge_user_snps snp_names user_genesets in
  merged_snps r = []
  /\ (forall x, x ∈ new_snp_names r
                <-> x ∈ snp_names /\ is_Some (user_genesets !! x))
  /\ (forall x, new_genesets r !! x
                = if decide (x ∈ snp_names)
                  then sort_genes <$> user_genesets !! x else None)
  /\ new_geneset_sizes r
     = omap (fun a => (fun g => Z.of_nat (length g)) <$> user_genesets !! a)
            snp_names.
Proof.
  cbn zeta. unfold merge_user_snps.
  destruct (merge_outer_fold_disjoint snp_names (fun a H => H)
              {| new_snp_names := NameSet.empty; new_genesets := ∅;
                 new_geneset_sizes := []; merged_snps := NameSet.empty;
                 count_merged := 0 |} eq_refl)
    as (Hm & Hnames & Hsets & Hsizes).
  cbn [new_snp_names new_genesets new_geneset_sizes] in *.
  split; [exact Hm|]. split; [|split].
  - intros x. rewrite Hnames. unfold NameSet.empty. rewrite elem_of_nil.
    tauto.
  - intros x. rewrite Hsets, lookup_empty.
    repeat match goal with
           | |- context [decide ?P] => destruct (decide P)
           end; try contradiction; [|reflexivity].
    now destruct (user_genesets !! x).
  - exact Hsizes.
Qed.

End MergeDisjoint.

Lemma sample_disjoint_loci :
  loci_disjoint ["rs1"; "rs2"]%string sample_disjoint_genesets.
Proof.
  intros a b ga gb Ha Hb Hab Hga Hgb (r & Hr & Hr').
  apply elem_of_cons in Ha as [->|Ha];
    [|apply list_elem_of_singleton in Ha as ->];
    (apply elem_of_cons in Hb as [->|Hb];
     [|apply list_elem_of_singleton in Hb as ->]);
    try contradiction;
    vm_compute in Hga, Hgb; injection Hga as <-; injection Hgb as <-;
    apply list_elem_of_singleton in Hr, Hr'; congruence.
Qed.

Lemma merge_user_snps_disjoint_witness :
  let r := merge_user_snps ["rs1"; "rs2"]%string sample_disjoint_genesets in
  merged_snps r = []
  /\ new_geneset_sizes r
     = omap (fun a => (fun g => Z.of_nat (length g))
                        <$> sample_disjoint_genesets !! a)
            ["rs1"; "rs2"]%string.
Proof.
  cbn zeta.
  destruct (merge_user_snps_disjoint ["rs1"; "rs2"]%string
              sample_disjoint_genesets sample_disjoint_loci)
    as (Hm & _ & _ & Hsizes).
  split; [exact Hm | exact Hsizes].
Defined.

(** ** Splitting the name of a merged locus *)

Lemma string_app_cons (x : ascii) (a b : string) :
  (String x a ++ b = String x (a ++ b))%string.
Proof. reflexivity. Qed.

Lemma string_app_nil_l (b : string) : ("" ++ b = b)%string.
Proof. reflexivity. Qed.

Lemma string_app_assoc (a b c : string) :
  ((a ++ b) ++ c = a ++ (b ++ c))%string.
Proof.
  induction a as [|x a IH]; [reflexivity|].
  rewrite !string_app_cons. f_equal. exact IH.
Qed.

Lemma string_app_nil_r (a : string) : (a ++ "" = a)%string.
Proof.
  induction a as [|x a IH]; [reflexivity|].
  rewrite string_app_cons. f_equal. exact IH.
Qed.

(** A stretch without a comma goes to the item being read. *)
Lemma split_from_free (w : string) :
  forall (s item : string),
    has_comma w = false ->
    split_from ","%char (w ++ String ","%char s) item
    = (item ++ w)%string :: split_string s ","%char.
Proof.
  induction w as [|c w IH]; intros s item Hfree.
  - rewrite string_app_nil_l, string_app_nil_r. cbn [split_from].
    destruct s; reflexivity.
  - cbn [has_comma] in Hfree. apply orb_false_elim in Hfree as [Hc Hfree].
    rewrite string_app_cons. cbn [split_from]. rewrite Hc, (IH s _ Hfree).
    rewrite string_app_assoc. reflexivity.
Qed.

Lemma split_from_free_end (w : string) :
  forall item : string,
    has_comma w = false ->
    split_from ","%char w item = [(item ++ w)%string].
Proof.
  induction w as [|c w IH]; intros item Hfree.
  - cbn [split_from]. now rewrite string_app_nil_r.
  - cbn [has_comma] in Hfree. apply orb_false_elim in Hfree as [Hc Hfree].
    cbn [split_from]. rewrite Hc, (IH _ Hfree).
    rewrite string_app_assoc. reflexivity.
Qed.

Lemma split_string_free (w s : string) :
  has_comma w = false ->
  split_string (w ++ "," ++ s) ","%char = w :: split_string s ","%char.
Proof.
  intros Hfree.
  change (w ++ "," ++ s)%string with (w ++ String ","%char s)%string.
  rewrite <- (string_app_nil_l w) at 2.
  rewrite <- (split_from_free w s "" Hfree).
  destruct w; reflexivity.
Qed.

Lemma split_string_free_end (w : string) :
  has_comma w = false -> w <> ""%string ->
  split_string w ","%char = [w].
Proof.
  intros Hfree Hne. destruct w as [|c w]; [contradiction|].
  unfold split_string. rewrite (split_from_free_end _ "" Hfree).
  now rewrite string_app_nil_l.
Qed.

Lemma join_snps_prefix (bs : list string) :
  forall p x : string, join_snps (p ++ x) bs = (p ++ join_snps x bs)%string.
Proof.
  unfold join_snps. induction bs as [|b bs IH]; intros p x; cbn [fold_left];
    [reflexivity|].
  now rewrite string_app_assoc, IH.
Qed.

Lemma join_snps_cons (a b : string) (bs : list string) :
  join_snps a (b :: bs) = (a ++ "," ++ join_snps b bs)%string.
Proof.
  unfold join_snps at 1. cbn [fold_left]. fold (join_snps (a ++ "," ++ b) bs).
  now rewrite !join_snps_prefix.
Qed.

Lemma split_string_join (bs : list string) :
  forall a : string,
    Forall (fun n => has_comma n = false) (a :: bs) ->
    last (a :: bs) <> Some ""%string ->
    split_string (join_snps a bs) ","%char = a :: bs.
Proof.
  induction bs as [|b bs IH]; intros a Hfree Hlast.
  - apply split_string_free_end.
    + now apply Forall_inv in Hfree.
    + intros ->. now apply Hlast.
  - rewrite join_snps_cons, split_string_free
      by now apply Forall_inv in Hfree.
    rewrite IH; [reflexivity | now apply Forall_inv_tail in Hfree|].
    intros Hl. apply Hlast. exact Hl.
Qed.

(** X14.  [split_string] undoes the way [merge_user_snps] names a merged
    locus: when no SNP name holds a comma and the last name is not
    empty, splitting [a,b1,...,bn] at the commas gives back the names
    [a, b1, ..., bn] in this order. *)
Theorem split_string_merged_name (a : string) (bs : list string) :
  Forall (fun n => has_comma n = false) (a :: bs) ->
  last (a :: bs) <> Some ""%string ->
  split_string (join_snps a bs) ","%char = a :: bs.
Proof. exact (split_string_join bs a). Qed.

Lemma split_string_merged_name_witness :
  split_string (join_snps "rs1" ["rs3"; "rs2"]) ","%char
  = ["rs1"; "rs3"; "rs2"]%string.
Proof.
  apply (split_string_merged_name "rs1" ["rs3"; "rs2"]%string).
  - repeat constructor.
  - discriminate.
Defined.

(** ** The report of the user's SNPs and their genes *)

Section ReportFacts.

Variable _snp_intervals : gmap string genomic_interval.

Local Abbreviation interval_at := (interval_of _snp_intervals).
Local Abbreviation merged := (merged_interval _snp_intervals).

Lemma merged_interval_snoc (l : list string) (p : string) :
  merged (l ++ [p]) = merged_interval_step _snp_intervals (merged l) p.
Proof. unfold merged_interval. now rewrite fold_left_app. Qed.

Lemma merged_interval_spec (parts : list string) :
  Forall (fun p => 0 < start (interval_at p) /\ 0 < end_ (interval_at p))
         parts ->
  (parts = [] /\ start (merged parts) = 0 /\ end_ (merged parts) = 0)
  \/ ((forall p, p ∈ parts ->
                 start (merged parts) <= start (interval_at p)
                 /\ end_ (interval_at p) <= end_ (merged parts))
      /\ (exists p, p ∈ parts /\ start (merged parts) = start (interval_at p))
      /\ (exists p, p ∈ parts /\ end_ (merged parts) = end_ (interval_at p))
      /\ (exists p, last parts = Some p
                    /\ chrom (merged parts) = chrom (interval_at p))).
Proof.
  induction parts as [|p parts IH] using rev_ind; intros Hpos.
  - left. repeat split.
  - right. apply Forall_app in Hpos as [Hparts Hp].
    apply Forall_inv in Hp. destruct Hp as [Hs He].
    rewrite merged_interval_snoc. unfold merged_interval_step.
    cbn [start end_ chrom].
    destruct (IH Hparts)
      as [(-> & -> & ->)
         |(Hall & (ps & Hps & Hmin) & (pe & Hpe & Hmax) & _)].
    + cbn [Z.eqb orb app]. repeat split.
      * apply list_elem_of_singleton in H as ->. lia.
      * apply list_elem_of_singleton in H as ->. lia.
      * exists p. split; [apply list_elem_of_here | reflexivity].
      * exists p. split; [apply list_elem_of_here | reflexivity].
      * exists p. split; reflexivity.
    + assert (Hs' : 0 < start (merged parts)).
      { rewrite Hmin. rewrite Forall_forall in Hparts.
        now apply Hparts. }
      assert (He' : 0 < end_ (merged parts)).
      { rewrite Hmax. rewrite Forall_forall in Hparts.
        now apply Hparts. }
      destruct (Z.eqb_spec (start (merged parts)) 0) as [?|_]; [lia|].
      destruct (Z.eqb_spec (end_ (merged parts)) 0) as [?|_]; [lia|].
      cbn [orb].
      split; [|split; [|split]].
      * intros q Hq. apply elem_of_app in Hq as [Hq|Hq].
        -- destruct (Hall q Hq) as [Hlo Hhi].
           destruct (Z.ltb_spec (start (interval_at p))
                                (start (merged parts)));
             destruct (Z.ltb_spec (end_ (merged parts))
                                  (end_ (interval_at p))); lia.
        -- apply list_elem_of_singleton in Hq as ->.
           destruct (Z.ltb_spec (start (interval_at p))
                                (start (merged parts)));
             destruct (Z.ltb_spec (end_ (merged parts))
                                  (end_ (interval_at p))); lia.
      * destruct (Z.ltb_spec (start (interval_at p)) (start (merged parts))).
        -- exists p. split; [|reflexivity].
           apply elem_of_app. right. apply list_elem_of_here.
        -- exists ps. split; [|exact Hmin].
           apply elem_of_app. now left.
      * destruct (Z.ltb_spec (end_ (merged parts)) (end_ (interval_at p))).
        -- exists p. split; [|reflexivity].
           apply elem_of_app. right. apply list_elem_of_here.
        -- exists pe. split; [|exact Hmax].
           apply elem_of_app. now left.
      * exists p. split; [apply last_snoc | reflexivity].
Qed.

(** X15.  The interval that [report_user_snp_genes] prints for a merged
    locus, when all coordinates of its SNPs are positive: the start is
    the smallest start and the end the largest end among the SNPs, and
    the chromosome is that of the last SNP.  (A coordinate 0 counts as
    "not set", so the bound is stated for positive coordinates.) *)
Theorem merged_interval_bounds (parts : list string) :
  parts <> [] ->
  Forall (fun p => 0 < start (interval_of _snp_intervals p)
                   /\ 0 < end_ (interval_of _snp_intervals p))
         parts ->
  (forall p, p ∈ parts ->
             start (merged_interval _snp_intervals parts)
             <= start (interval_of _snp_intervals p)
             /\ end_ (interval_of _snp_intervals p)
                <= end_ (merged_interval _snp_intervals parts))
  /\ (exists p, p ∈ parts
                /\ start (merged_interval _snp_intervals parts)
                   = start (interval_of _snp_intervals p))
  /\ (exists p, p ∈ parts
                /\ end_ (merged_interval _snp_intervals parts)
                   = end_ (interval_of _snp_intervals p))
  /\ (exists p, last parts = Some p
                /\ chrom (merged_interval _snp_intervals parts)
                   = chrom (interval_of _snp_intervals p)).
Proof.
  intros Hne Hpos.
  destruct (merged_interval_spec parts Hpos) as [(Hnil & _)|Hspec];
    [contradiction | exact Hspec].
Qed.

End ReportFacts.

Lemma merged_interval_bounds_witness :
  (forall p, p ∈ ["rs1"; "rs3"]%string ->
             start (merged_interval sample_locus_intervals
                                    ["rs1"; "rs3"]%string)
             <= start (interval_of sample_locus_intervals p)
             /\ end_ (interval_of sample_locus_intervals p)
                <= end_ (merged_interval sample_locus_intervals
                                         ["rs1"; "rs3"]%string))
  /\ start (merged_interval sample_locus_intervals ["rs1"; "rs3"]%string)
     = 500
  /\ end_ (merged_interval sample_locus_intervals ["rs1"; "rs3"]%string)
     = 2000.
Proof.
  split.
  - apply (merged_interval_bounds sample_locus_intervals
             ["rs1"; "rs3"]%string).
    + discriminate.
    + repeat constructor.
  - split; reflexivity.
Defined.

Section ReportRowsFacts.

Variable _snp_intervals : gmap string genomic_interval.
Variable _row_names : list string.
Variable _user_genesets : gmap string (list Z).

Local Abbreviation in_range :=
  (Forall (fun r => (Z.to_nat r < length _row_names)%nat)).

Lemma gene_names_spec (geneset : list Z) :
  (in_range geneset
   /\ exists names,
        gene_names _row_names geneset = Ok names
        /\ Forall2 (fun r n => _row_names !! Z.to_nat r = Some n)
                   geneset names)
  \/ (~ in_range geneset /\ gene_names _row_names geneset = OutOfRange).
Proof.
  induction geneset as [|r geneset IH]; cbn [gene_names].
  - left. split; [constructor|]. exists []. split; [reflexivity|constructor].
  - destruct (_row_names !! Z.to_nat r) as [n|] eqn:Hr.
    + destruct IH as [(Hin & names & -> & Hnames)|(Hout & ->)].
      * left. split.
        -- constructor; [now apply lookup_lt_Some in Hr | exact Hin].
        -- exists (n :: names). split; [reflexivity|]. now constructor.
      * right. split; [|reflexivity].
        intros Hall. apply Hout. now apply Forall_inv_tail in Hall.
    + right. split; [|reflexivity].
      intros Hall. apply Forall_inv in Hall.
      apply lookup_ge_None in Hr. lia.
Qed.

Lemma user_rows_spec (snps : list string) :
  forall written : list snp_genes_row,
    let result := user_rows _snp_intervals _row_names _user_genesets
                            snps written in
    (result.2 = Ok tt
     <-> forall snp, snp ∈ snps ->
                     in_range (default [] (_user_genesets !! snp)))
    /\ (result.2 = Ok tt ->
        exists rows,
          result.1 = written ++ rows
          /\ Forall2 (fun snp row =>
                        sg_snp row = snp
                        /\ sg_n_genes row
                           = Some (Z.of_nat
                                     (length (default []
                                                (_user_genesets !! snp))))
                        /\ exists names,
                             sg_genes row = Some names
                             /\ Forall2
                                  (fun r n =>
                                     _row_names !! Z.to_nat r = Some n)
                                  (default [] (_user_genesets !! snp)) names)
                     snps rows).
Proof.
  induction snps as [|snp snps IH]; intros written; cbn zeta;
    cbn [user_rows].
  - cbn [snd fst]. split.
    + split; [|reflexivity]. intros _ snp Hsnp.
      now apply elem_of_nil in Hsnp.
    + intros _. exists []. rewrite app_nil_r. split; [reflexivity|constructor].
  - unfold user_row.
    destruct (gene_names_spec (default [] (_user_genesets !! snp)))
      as [(Hin & names & -> & Hnames)|(Hout & ->)].
    + destruct (IH (written ++
                    [ {| sg_chrom :=
                           Some (chrom (user_snp_interval _snp_intervals snp));
                         sg_start :=
                           Some (start (user_snp_interval _snp_intervals snp));
                         sg_end :=
                           Some (end_ (user_snp_interval _snp_intervals snp));
                         sg_snp := snp;
                         sg_n_genes :=
                           Some (Z.of_nat
                                   (length (default []
                                              (_user_genesets !! snp))));
                         sg_genes := Some names |} ]))
        as [Hiff Hrows].
      cbn zeta in Hiff, Hrows. split.
      * rewrite Hiff. split.
        -- intros Hall s Hs. apply elem_of_cons in Hs as [->|Hs];
             [exact Hin | now apply Hall].
        -- intros Hall s Hs. apply Hall. now apply list_elem_of_further.
      * intros Hok. destruct (Hrows Hok) as (rows & Heq & Hall).
        eexists (_ :: rows). rewrite Heq, <- app_assoc.
        split; [reflexivity|].
        constructor; [|exact Hall]. cbn [sg_snp sg_n_genes sg_genes].
        split; [reflexivity|]. split; [reflexivity|]. now exists names.
    + cbn [snd fst]. split; [|discriminate]. split; [discriminate|].
      intros Hall. exfalso. apply Hout, Hall, list_elem_of_here.
Qed.

(** X16.  [report_user_snp_genes] writes all its lines exactly when every
    row index in the genesets of the user's SNPs is a position of
    [_row_names]; otherwise [vector::at] throws.  When it returns, the
    lines are one for every absent SNP, then one for every SNP without
    genes, then one for every SNP of the user, in the order of the
    names, with the number of genes of the SNP and the names of their
    rows. *)
Theorem report_user_snp_genes_rows
    (_user_absent_snp_names _user_naked_snp_names _user_snp_names
       : NameSet.t) :
  let result := report_user_snp_genes _snp_intervals _row_names
                  _user_absent_snp_names _user_naked_snp_names
                  _user_snp_names _user_genesets in
  (result.2 = Ok tt
   <-> forall snp, snp ∈ _user_snp_names ->
                   Forall (fun r => (Z.to_nat r < length _row_names)%nat)
                          (default [] (_user_genesets !! snp)))
  /\ (result.2 = Ok tt ->
      exists rows,
        result.1 = (map absent_row _user_absent_snp_names
                    ++ map (naked_row _snp_intervals) _user_naked_snp_names)
                   ++ rows
        /\ Forall2 (fun snp row =>
                      sg_snp row = snp
                      /\ sg_n_genes row
                         = Some (Z.of_nat
                                   (length (default []
                                              (_user_genesets !! snp))))
                      /\ exists names,
                           sg_genes row = Some names
                           /\ Forall2
                                (fun r n => _row_names !! Z.to_nat r = Some n)
                                (default [] (_user_genesets !! snp)) names)
                   _user_snp_names rows).
Proof.
  cbn zeta. unfold report_user_snp_genes. apply user_rows_spec.
Qed.

End ReportRowsFacts.

(** ** The scores of the report and the scores of the test *)

Section ReportScoreFacts.

Variable _gene_matrix : MatrixXd.
Variable _row_names : list string.

Lemma min_gene_loop_percentile (col : nat) (geneset : list Z) :
  forall (percentile : Q) (min_gene : string) (p : Q) (g : string),
    min_gene_loop _gene_matrix _row_names col geneset percentile min_gene
    = Some (p, g) ->
    min_percentile _gene_matrix col geneset percentile = Some p.
Proof.
  induction geneset as [|gene_id rest IH]; intros percentile min_gene p g;
    cbn [min_gene_loop min_percentile].
  - now intros [= -> _].
  - destruct (coeff _gene_matrix (Z.to_nat gene_id) col) as [v|];
      cbn [mbind option_bind]; [|discriminate].
    unfold Qminimum. destruct (v ?= percentile)%Q.
    + apply IH.
    + destruct (_row_names !! Z.to_nat gene_id) as [n|];
        cbn [mbind option_bind]; [apply IH | discriminate].
    + apply IH.
Qed.

Lemma min_gene_loop_total (col : nat) (column : list Q) (geneset : list Z) :
  _gene_matrix !! col = Some column ->
  Forall (fun r => (Z.to_nat r < length column)%nat
                   /\ (Z.to_nat r < length _row_names)%nat) geneset ->
  forall (percentile : Q) (min_gene : string),
    is_Some (min_gene_loop _gene_matrix _row_names col geneset percentile
                           min_gene).
Proof.
  intros Hcol. induction geneset as [|gene_id rest IH];
    intros Hall percentile min_gene; cbn [min_gene_loop]; [now eexists|].
  apply Forall_cons in Hall as [[Hr Hn] Hall].
  destruct (lookup_lt_is_Some_2 column _ Hr) as [v Hv].
  destruct (lookup_lt_is_Some_2 _row_names _ Hn) as [n Hname].
  unfold coeff. rewrite Hcol. cbn [mbind option_bind]. rewrite Hv.
  cbn [mbind option_bind]. rewrite Hname. cbn [mbind option_bind].
  destruct (v ?= percentile)%Q; now apply IH.
Qed.

Lemma report_score_single (col : nat) (geneset : list Z) (gene : string)
    (score : Q) :
  report_score_quantitative _gene_matrix _row_names col geneset
  = Some (gene, score) ->
  (0 < score)%Q ->
  score_quantitative_single _gene_matrix col [geneset]
  = Some (- ln (Q2R score))%R.
Proof.
  unfold report_score_quantitative, score_quantitative_single.
  destruct (min_gene_loop _gene_matrix _row_names col geneset 1%Q "")
    as [[p g]|] eqn:Hloop; cbn [mbind option_bind]; [|discriminate].
  intros [= <- <-] Hpos.
  cbn [score_quantitative_single_loop].
  rewrite (min_gene_loop_percentile col geneset _ _ _ _ Hloop).
  cbn [mbind option_bind].
  destruct (p ?= 1)%Q eqn:Hp.
  - cbn [fmap option_fmap option_map finite_or_zero]. f_equal.
    change (Q2R 1) with (Q2R (1 # 1)). unfold Q2R. cbn [Qnum Qden].
    replace (IZR 1 * / IZR (Z.pos 1))%R with 1%R by (cbn; lra).
    rewrite ln_1. lra.
  - unfold neg_log.
    assert (Hcmp : (0 ?= 1 - (1 - p) ^ Z.of_nat (length geneset))%Q = Lt)
      by exact Hpos.
    rewrite Hcmp. cbn [dadd fmap option_fmap option_map finite_or_zero].
    f_equal. lra.
  - cbn [fmap option_fmap option_map finite_or_zero]. f_equal.
    change (Q2R 1) with (Q2R (1 # 1)). unfold Q2R. cbn [Qnum Qden].
    replace (IZR 1 * / IZR (Z.pos 1))%R with 1%R by (cbn; lra).
    rewrite ln_1. lra.
Qed.

(** X17.  The score that [report_scores] prints for a SNP and a column of
    a quantitative matrix and the score that the test gives to this one
    geneset belong together: when the rows of the geneset lie inside the
    matrix and the row names, the report has a score [s], and whenever
    [s] is positive [score_quantitative_single] on the geneset alone is
    [-log s]. *)
Theorem report_score_is_single_score (col : nat) (column : list Q)
    (geneset : list Z) :
  _gene_matrix !! col = Some column ->
  Forall (fun r => (Z.to_nat r < length column)%nat
                   /\ (Z.to_nat r < length _row_names)%nat) geneset ->
  exists gene score,
    report_score_quantitative _gene_matrix _row_names col geneset
    = Some (gene, score)
    /\ ((0 < score)%Q ->
        score_quantitative_single _gene_matrix col [geneset]
        = Some (- ln (Q2R score))%R).
Proof.
  intros Hcol Hall.
  destruct (min_gene_loop_total col column geneset Hcol Hall 1%Q "")
    as [[p g] Hloop].
  assert (Hreport :
            exists gene score,
              report_score_quantitative _gene_matrix _row_names col geneset
              = Some (gene, score)).
  { unfold report_score_quantitative. rewrite Hloop.
    cbn [mbind option_bind]. now eexists _, _. }
  destruct Hreport as (gene & score & Hreport).
  exists gene, score. split; [exact Hreport|].
  now apply (report_score_single col geneset gene score).
Qed.

End ReportScoreFacts.

Lemma report_score_is_single_score_witness :
  exists gene score,
    report_score_quantitative sample_ranked ["g1"; "g2"; "g3"; "g4"]%string
                              0 [0]
    = Some (gene, score)
    /\ ((0 < score)%Q ->
        score_quantitative_single sample_ranked 0 [[0]]
        = Some (- ln (Q2R score))%R).
Proof.
  apply (report_score_is_single_score sample_ranked
           ["g1"; "g2"; "g3"; "g4"]%string 0
           [1 # 4; 2 # 4; 3 # 4; 4 # 4]%Q [0]).
  - reflexivity.
  - constructor; [|constructor]. cbn. lia.
Defined.

(** ** The ranks that [rankdata] gives *)

Lemma more_reps_stop (v : Q) (rest : list (nat * Q)) (q : nat * Q) :
  rest !! more_reps v rest = Some q -> ~ (v == q.2)%Q.
Proof.
  induction rest as [|p rest IH]; cbn [more_reps]; [discriminate|].
  destruct (Qeq_bool v p.2) eqn:He.
  - cbn. exact IH.
  - cbn. intros [= <-]. now apply Qeq_bool_neq.
Qed.

Section RankGroups.

Variable data : list (nat * Q).

Hypothesis data_nodup : NoDup (data.*1).
Hypothesis data_bound : Forall (fun q => (q.1 < length data)%nat) data.

Lemma rank_loop_groups (fuel : nat) :
  forall (i : nat) (ind : VectorXd),
    (length data - i <= fuel)%nat -> (i <= length data)%nat ->
    grouped_below data i ind ->
    grouped_below data (length data) (rank_loop fuel i data ind).
Proof.
  induction fuel as [|fuel IH]; intros i ind Hfuel Hi Hinv.
  - cbn. replace (length data) with i at 1 by lia. exact Hinv.
  - cbn [rank_loop].
    destruct (data !! i) as [p|] eqn:Hp.
    2:{ apply lookup_ge_None in Hp.
        replace (length data) with i at 1 by lia. exact Hinv. }
    pose proof (lookup_lt_Some _ _ _ Hp) as Hlt.
    set (reps := S (more_reps p.2 (drop (S i) data))).
    assert (Hreps : (i + reps <= length data)%nat).
    { subst reps. pose proof (more_reps_le p.2 (drop (S i) data)) as Hm.
      rewrite length_drop in Hm. lia. }
    destruct Hinv as (Hlen & Hbelow & Hedge).
    assert (Hequal : forall p' q', (i <= p' < i + reps)%nat ->
                                   data !! p' = Some q' -> (p.2 == q'.2)%Q).
    { intros p' q' Hp' Hq'.
      destruct (decide (p' = i)) as [->|Hne].
      - assert (q' = p) by congruence. subst q'. reflexivity.
      - apply (more_reps_equal p.2 (drop (S i) data) (p' - S i)).
        + subst reps. lia.
        + rewrite lookup_drop.
          replace (S i + (p' - S i))%nat with p' by lia. exact Hq'. }
    assert (Hstop : forall q', data !! (i + reps)%nat = Some q' ->
                               ~ (p.2 == q'.2)%Q).
    { intros q' Hq'. apply (more_reps_stop p.2 (drop (S i) data)).
      rewrite lookup_drop.
      replace (S i + more_reps p.2 (drop (S i) data))%nat
        with (i + reps)%nat by (subst reps; lia).
      exact Hq'. }
    assert (Hgroup : full_group data i reps).
    { split; [subst reps; lia|]. split; [exact Hreps|]. split; [|split].
      - intros p' q0 q' Hp' Hq0 Hq'.
        assert (q0 = p) by congruence. subst q0. now apply (Hequal p').
      - intros q0 q' Hq0 Hq'.
        assert (q0 = p) by congruence. subst q0. now apply Hstop.
      - intros q0 q' Hpos Hq0 Hq'. now apply (Hedge q0 q'). }
    destruct (group_writes_spec data data_bound i
                (mean_rank i reps) ind reps Hlen) as (Hl & Hw & Hu).
    apply IH; [lia | lia |]. split; [exact Hl|]. split.
    + intros p0 q Hp0 Hq.
      destruct (decide (p0 < i)%nat) as [Hlow|Hhigh].
      * destruct (Hbelow p0 q Hlow Hq) as (i0 & reps0 & Hr & Hin & Hend & Hg).
        exists i0, reps0. split; [|split; [exact Hin|split; [lia|exact Hg]]].
        unfold group_step in Hu. rewrite Hu; [exact Hr|].
        intros j q' Hj Hq' Heq.
        pose proof (data_index_inj data data_nodup _ _ _ _ Hq' Hq Heq). lia.
      * exists i, reps. split; [|split; [lia|split; [lia|exact Hgroup]]].
        unfold group_step in Hw. apply (Hw (p0 - i)%nat); [lia|].
        replace (i + (p0 - i))%nat with p0 by lia. exact Hq.
    + intros q q' _ Hq Hq' Heq.
      apply (Hstop q Hq).
      rewrite (Hequal (i + reps - 1)%nat q'); [|subst reps; lia|exact Hq'].
      symmetry. exact Heq.
Qed.

Lemma rank_sorted_groups :
  grouped_below data (length data) (rank_sorted data).
Proof.
  unfold rank_sorted. apply rank_loop_groups; [lia | lia |].
  split; [apply length_replicate|]. split.
  - intros p q Hp. lia.
  - intros q q' Hpos. lia.
Qed.

End RankGroups.

Lemma argsort_desc_true (q p : nat * Q) :
  argsort_desc q p = true -> (p.2 < q.2)%Q.
Proof.
  unfold argsort_desc. destruct (q.2 ?= p.2)%Q eqn:Hc; try discriminate.
  intros _. apply Qgt_alt. exact Hc.
Qed.

Lemma argsort_desc_false (q p : nat * Q) :
  argsort_desc q p = false -> (q.2 <= p.2)%Q.
Proof.
  unfold argsort_desc. intros Hf. apply Qle_alt. intros Hc.
  rewrite Hc in Hf. discriminate.
Qed.

Lemma sort_insert_descending (p : nat * Q) (l : list (nat * Q)) :
  descending l -> descending (sort_insert p l).
Proof.
  unfold descending. induction l as [|q l IH]; intros Hl; cbn [sort_insert].
  - repeat constructor.
  - apply StronglySorted_inv in Hl as [Hl Hq].
    destruct (argsort_desc q p) eqn:Hc.
    + constructor; [now apply IH|].
      apply Forall_forall. intros b Hb.
      rewrite sort_insert_perm in Hb.
      apply elem_of_cons in Hb as [->|Hb].
      * apply Qlt_le_weak. now apply argsort_desc_true.
      * rewrite Forall_forall in Hq. now apply Hq.
    + apply argsort_desc_false in Hc.
      constructor; [now constructor|].
      constructor; [exact Hc|].
      eapply Forall_impl; [exact Hq|].
      intros b Hb. cbn in Hb. eapply Qle_trans; eassumption.
Qed.

Lemma sort_desc_descending (l : list (nat * Q)) : descending (sort_desc l).
Proof.
  induction l as [|p l IH]; [constructor|].
  cbn [sort_desc fold_right]. fold (sort_desc l).
  now apply sort_insert_descending.
Qed.

Lemma descending_lookup (data : list (nat * Q)) :
  descending data ->
  forall (a b : nat) (qa qb : nat * Q),
    (a <= b)%nat -> data !! a = Some qa -> data !! b = Some qb ->
    (qb.2 <= qa.2)%Q.
Proof.
  unfold descending. induction data as [|q data IH]; intros Hs a b qa qb Hab Ha Hb;
    [discriminate|].
  apply StronglySorted_inv in Hs as [Hs Hq].
  destruct a as [|a]; destruct b as [|b]; cbn in Ha, Hb.
  - injection Ha as <-. injection Hb as <-. apply Qle_refl.
  - injection Ha as <-. rewrite Forall_forall in Hq.
    apply Hq. eapply list_elem_of_lookup_2. exact Hb.
  - lia.
  - apply (IH Hs a b); [lia | exact Ha | exact Hb].
Qed.

(** The entries that pass a test are counted by their positions when the
    test holds on a stretch of positions. *)
Lemma filter_length_range {A : Type} (f : A -> bool) (l : list A) :
  forall lo hi : nat,
    (lo <= hi <= length l)%nat ->
    (forall a w, l !! a = Some w -> f w = true <-> (lo <= a < hi)%nat) ->
    length (List.filter f l) = (hi - lo)%nat.
Proof.
  induction l as [|w l IH]; intros lo hi Hrange Hf; cbn [List.filter length].
  - cbn in Hrange. lia.
  - cbn [length] in Hrange.
    assert (Htail : length (List.filter f l) = (hi - 1 - (lo - 1))%nat).
    { apply IH; [lia|]. intros a w' Ha.
      rewrite (Hf (S a) w' Ha). lia. }
    pose proof (Hf O w eq_refl) as Hw.
    destruct (f w); cbn [length]; rewrite Htail.
    + assert (lo <= 0 < hi)%nat by now apply Hw. lia.
    + assert (~ (lo <= 0 < hi)%nat) by (intros Hc; apply Hw in Hc; discriminate).
      lia.
Qed.

Lemma filter_length_perm {A : Type} (f : A -> bool) (l l' : list A) :
  l ≡ₚ l' -> length (List.filter f l) = length (List.filter f l').
Proof.
  induction 1 as [|x l l' _ IH|x y l|l l' l'' _ IH1 _ IH2];
    cbn [List.filter].
  - reflexivity.
  - destruct (f x); cbn [length]; now rewrite IH.
  - destruct (f x), (f y); reflexivity.
  - now rewrite IH1.
Qed.

Lemma filter_length_sum {A : Type} (f g h : A -> bool) (l : list A) :
  (forall w, f w = true -> h w = true) ->
  (forall w, g w = true -> h w = true) ->
  (forall w, f w = true -> g w = false) ->
  (length (List.filter f l) + length (List.filter g l)
   <= length (List.filter h l))%nat.
Proof.
  intros Hf Hg Hfg. induction l as [|w l IH]; cbn [List.filter length];
    [lia|].
  specialize (Hf w). specialize (Hg w). specialize (Hfg w).
  destruct (f w), (g w), (h w); cbn [length];
    try lia; try (specialize (Hf eq_refl); discriminate);
    try (specialize (Hg eq_refl); discriminate);
    try (specialize (Hfg eq_refl); discriminate).
Qed.

Lemma is_above_lt (v w : Q) : is_above v w = true <-> (v < w)%Q.
Proof.
  unfold is_above. rewrite Qlt_alt.
  destruct (v ?= w)%Q; split; intros; congruence.
Qed.

Lemma count_above_compat (v v' : Q) (x : list Q) :
  (v == v')%Q -> count_above v x = count_above v' x.
Proof.
  intros Hv. unfold count_above. f_equal. apply List.filter_ext.
  intros w. unfold is_above. now rewrite Hv.
Qed.

Lemma count_equal_compat (v v' : Q) (x : list Q) :
  (v == v')%Q -> count_equal v x = count_equal v' x.
Proof.
  intros Hv. unfold count_equal. f_equal. apply List.filter_ext.
  intros w. destruct (Qeq_bool v w) eqn:H1, (Qeq_bool v' w) eqn:H2;
    try reflexivity.
  - apply Qeq_bool_iff in H1. apply Qeq_bool_neq in H2.
    exfalso. apply H2. now rewrite <- Hv.
  - apply Qeq_bool_iff in H2. apply Qeq_bool_neq in H1.
    exfalso. apply H1. now rewrite Hv.
Qed.

Lemma count_equal_pos (x : list Q) (r : nat) (v : Q) :
  x !! r = Some v -> (1 <= count_equal v x)%nat.
Proof.
  intros Hr. unfold count_equal.
  assert (Hin : In v (List.filter (Qeq_bool v) x)).
  { apply filter_In. split.
    - apply list_elem_of_In. eapply list_elem_of_lookup_2. exact Hr.
    - apply Qeq_bool_iff. reflexivity. }
  destruct (List.filter (Qeq_bool v) x); [destruct Hin | cbn; lia].
Qed.

(** In sorted data a group starts after the larger values and holds all
    the values equal to its own. *)
Lemma full_group_counts (data : list (nat * Q)) (i0 reps : nat)
    (q0 : nat * Q) :
  descending data -> full_group data i0 reps -> data !! i0 = Some q0 ->
  count_above q0.2 (data.*2) = i0 /\ count_equal q0.2 (data.*2) = reps.
Proof.
  intros Hsorted (Hreps & Hend & Hequal & Hnext & Hprev) Hq0.
  assert (Hbefore : forall a qa, (a < i0)%nat -> data !! a = Some qa ->
                                 (q0.2 < qa.2)%Q).
  { intros a qa Ha Hqa.
    destruct (lookup_lt_is_Some_2 data (i0 - 1)) as [q' Hq']; [lia|].
    pose proof (descending_lookup data Hsorted (i0 - 1) i0 q' q0
                  ltac:(lia) Hq' Hq0) as Hle.
    pose proof (Hprev q0 q' ltac:(lia) Hq0 Hq') as Hne.
    pose proof (descending_lookup data Hsorted a (i0 - 1) qa q'
                  ltac:(lia) Hqa Hq') as Hle'.
    apply Qle_lteq in Hle as [Hlt|Heq]; [|contradiction].
    eapply Qlt_le_trans; eassumption. }
  assert (Hafter : forall a qa, (i0 + reps <= a)%nat -> data !! a = Some qa ->
                                (qa.2 < q0.2)%Q).
  { intros a qa Ha Hqa.
    pose proof (lookup_lt_Some _ _ _ Hqa) as Hlt.
    destruct (lookup_lt_is_Some_2 data (i0 + reps)) as [q' Hq']; [lia|].
    pose proof (descending_lookup data Hsorted i0 (i0 + reps) q0 q'
                  ltac:(lia) Hq0 Hq') as Hle.
    pose proof (Hnext q0 q' Hq0 Hq') as Hne.
    pose proof (descending_lookup data Hsorted (i0 + reps) a q' qa
                  ltac:(lia) Hq' Hqa) as Hle'.
    apply Qle_lteq in Hle as [Hlt'|Heq];
      [|exfalso; apply Hne; symmetry; exact Heq].
    eapply Qle_lt_trans; eassumption. }
  split.
  - unfold count_above.
    rewrite (filter_length_range (is_above q0.2) (data.*2) 0 i0).
    + lia.
    + rewrite length_fmap. lia.
    + intros a w Hw. rewrite list_lookup_fmap in Hw.
      destruct (data !! a) as [qa|] eqn:Hqa; [|discriminate].
      cbn in Hw. injection Hw as <-. rewrite is_above_lt. split.
      * intros Hlt. split; [lia|].
        destruct (decide (a < i0)%nat) as [|Hge]; [assumption|exfalso].
        destruct (decide (a < i0 + reps)%nat) as [Hin|Hout].
        -- pose proof (Hequal a q0 qa ltac:(lia) Hq0 Hqa) as Heq.
           rewrite Heq in Hlt. now apply Qlt_irrefl in Hlt.
        -- pose proof (Hafter a qa ltac:(lia) Hqa) as Hlt'.
           apply (Qlt_irrefl q0.2). eapply Qlt_trans; eassumption.
      * intros [_ Ha]. now apply (Hbefore a).
  - unfold count_equal.
    rewrite (filter_length_range (Qeq_bool q0.2) (data.*2) i0 (i0 + reps)).
    + lia.
    + rewrite length_fmap. lia.
    + intros a w Hw. rewrite list_lookup_fmap in Hw.
      destruct (data !! a) as [qa|] eqn:Hqa; [|discriminate].
      cbn in Hw. injection Hw as <-. rewrite Qeq_bool_iff. split.
      * intros Heq.
        destruct (decide (a < i0)%nat) as [Hlow|Hge].
        -- pose proof (Hbefore a qa Hlow Hqa) as Hlt.
           rewrite Heq in Hlt. now apply Qlt_irrefl in Hlt.
        -- destruct (decide (a < i0 + reps)%nat) as [Hin|Hout]; [lia|].
           pose proof (Hafter a qa ltac:(lia) Hqa) as Hlt.
           rewrite Heq in Hlt. now apply Qlt_irrefl in Hlt.
      * intros Ha. now apply (Hequal a).
Qed.

Lemma indexed_snd (x : list Q) : (imap (fun k v => (k, v)) x).*2 = x.
Proof.
  apply list_eq. intros k.
  rewrite list_lookup_fmap, indexed_lookup.
  now destruct (x !! k).
Qed.

Lemma sorted_values (x : list Q) :
  (sort_desc (imap (fun k v => (k, v)) x)).*2 ≡ₚ x.
Proof. now rewrite sort_desc_perm, indexed_snd. Qed.

Lemma mean_rank_lt (i r i' r' : nat) :
  (2 * i + r < 2 * i' + r')%nat -> (mean_rank i r < mean_rank i' r')%Q.
Proof.
  intros Hlt. unfold mean_rank.
  assert (Hq : (2 * inject_Z (Z.of_nat i) + inject_Z (Z.of_nat r)
                < 2 * inject_Z (Z.of_nat i') + inject_Z (Z.of_nat r'))%Q).
  { change 2%Q with (inject_Z 2).
    rewrite <- !inject_Z_mult, <- !inject_Z_plus, <- Zlt_Qlt. lia. }
  apply Qplus_lt_l. apply Qmult_lt_r; [reflexivity|].
  apply Qplus_lt_l. exact Hq.
Qed.

Lemma mean_rank_counts (i reps : nat) :
  (mean_rank i reps
   == inject_Z (Z.of_nat i) + (inject_Z (Z.of_nat reps) + 1) / 2)%Q.
Proof. unfold mean_rank. field. Qed.

(** The rank of an entry is the average rank of the group that starts
    after the larger entries and holds the equal ones. *)
Lemma rankdata_group (x : list Q) (r : nat) (v : Q) :
  x !! r = Some v ->
  rankdata x !! r = Some (mean_rank (count_above v x) (count_equal v x)).
Proof.
  intros Hr. destruct (sorted_position x r v Hr) as [p Hp].
  set (data := sort_desc (imap (fun k v => (k, v)) x)) in *.
  destruct (rank_sorted_groups data (sorted_nodup x) (sorted_bound x))
    as (_ & Hbelow & _).
  assert (Hlt : (p < length data)%nat) by (eapply lookup_lt_Some; exact Hp).
  destruct (Hbelow p (r, v) Hlt Hp) as (i0 & reps & Hrk & Hin & _ & Hgroup).
  cbn [fst] in Hrk.
  assert (Hi0 : (i0 < length data)%nat) by lia.
  destruct (lookup_lt_is_Some_2 data i0 Hi0) as [q0 Hq0].
  destruct (full_group_counts data i0 reps q0 (sort_desc_descending _)
              Hgroup Hq0) as [Habove Hequal].
  assert (Hv : (q0.2 == v)%Q).
  { destruct Hgroup as (_ & _ & Heq & _).
    exact (Heq p q0 (r, v) Hin Hq0 Hp). }
  unfold count_above in Habove. unfold count_equal in Hequal.
  unfold data in Habove, Hequal.
  rewrite (filter_length_perm (is_above q0.2) _ _ (sorted_values x))
    in Habove.
  rewrite (filter_length_perm (Qeq_bool q0.2) _ _ (sorted_values x))
    in Hequal.
  fold (count_above q0.2 x) in Habove. fold (count_equal q0.2 x) in Hequal.
  rewrite (count_above_compat _ _ x Hv) in Habove.
  rewrite (count_equal_compat _ _ x Hv) in Hequal.
  unfold rankdata. fold data. rewrite Hrk. now rewrite Habove, Hequal.
Qed.

(** X18.  [rankdata] ranks from the largest value down, with the mean
    rank for ties: the rank of an entry is the number of entries larger
    than it, plus half of one more than the number of entries equal to
    it (itself among them). *)
Theorem rankdata_counts (x : list Q) (r : nat) (v : Q) :
  x !! r = Some v ->
  exists rank : Q,
    rankdata x !! r = Some rank
    /\ (rank == inject_Z (Z.of_nat (count_above v x))
                + (inject_Z (Z.of_nat (count_equal v x)) + 1) / 2)%Q.
Proof.
  intros Hr. eexists. split; [exact (rankdata_group x r v Hr)|].
  apply mean_rank_counts.
Qed.

Lemma rankdata_counts_witness :
  exists rank : Q,
    rankdata [3; 7; 3; 1]%Q !! 2%nat = Some rank
    /\ (rank == inject_Z (Z.of_nat (count_above 3 [3; 7; 3; 1]%Q))
                + (inject_Z (Z.of_nat (count_equal 3 [3; 7; 3; 1]%Q)) + 1)
                  / 2)%Q.
Proof. apply (rankdata_counts [3; 7; 3; 1]%Q 2 3). reflexivity. Defined.

(** X19.  [rankdata] reverses the order of the values and respects ties:
    of two entries, the one with the larger value has the smaller rank,
    and entries with equal values have equal ranks. *)
Theorem rankdata_order (x : list Q) (a b : nat) (va vb : Q) :
  x !! a = Some va -> x !! b = Some vb ->
  exists ra rb : Q,
    rankdata x !! a = Some ra /\ rankdata x !! b = Some rb
    /\ ((va < vb)%Q -> (rb < ra)%Q)
    /\ ((va == vb)%Q -> (ra == rb)%Q).
Proof.
  intros Ha Hb. eexists _, _.
  split; [exact (rankdata_group x a va Ha)|].
  split; [exact (rankdata_group x b vb Hb)|].
  split.
  - intros Hlt. apply mean_rank_lt.
    pose proof (count_equal_pos x a va Ha) as Hpos.
    assert (Hsum : (count_above vb x + count_equal vb x
                    <= count_above va x)%nat).
    { unfold count_above, count_equal. apply filter_length_sum.
      - intros w Hw. apply is_above_lt in Hw. apply is_above_lt.
        eapply Qlt_trans; eassumption.
      - intros w Hw. apply Qeq_bool_iff in Hw. apply is_above_lt.
        now rewrite <- Hw.
      - intros w Hw. apply is_above_lt in Hw.
        destruct (Qeq_bool vb w) eqn:He; [|reflexivity].
        apply Qeq_bool_iff in He. rewrite He in Hw.
        now apply Qlt_irrefl in Hw. }
    pose proof (count_equal_pos x b vb Hb). lia.
  - intros Heq.
    rewrite (count_above_compat va vb x Heq),
            (count_equal_compat va vb x Heq).
    reflexivity.
Qed.

Lemma rankdata_order_witness :
  exists ra rb : Q,
    rankdata [3; 7; 3; 1]%Q !! 0%nat = Some ra
    /\ rankdata [3; 7; 3; 1]%Q !! 1%nat = Some rb
    /\ ((3 < 7)%Q -> (rb < ra)%Q)
    /\ ((3 == 7)%Q -> (ra == rb)%Q).
Proof.
  apply (rankdata_order [3; 7; 3; 1]%Q 0 1 3 7); reflexivity.
Defined.

(** ** Removing columns *)

Lemma without_positions_ext {A : Type} (idxs idxs' : list nat) (l : list A) :
  (forall j, j ∈ idxs <-> j ∈ idxs') ->
  forall k, without_positions k idxs l = without_positions k idxs' l.
Proof.
  intros Hsame. induction l as [|c l IH]; intros k; cbn [without_positions];
    [reflexivity|].
  rewrite IH.
  destruct (decide (k ∈ idxs)) as [Hin|Hout];
    destruct (decide (k ∈ idxs')) as [Hin'|Hout']; try reflexivity.
  - exfalso. now apply Hout', Hsame.
  - exfalso. now apply Hout, Hsame.
Qed.

Lemma without_positions_all {A : Type} (idxs : list nat) (l : list A) :
  forall k, (forall j, j ∈ idxs -> (j < k)%nat) ->
            without_positions k idxs l = l.
Proof.
  induction l as [|c l IH]; intros k Hlow; cbn [without_positions];
    [reflexivity|].
  destruct (decide (k ∈ idxs)) as [Hin|_].
  - apply Hlow in Hin. lia.
  - f_equal. apply IH. intros j Hj. apply Hlow in Hj. lia.
Qed.

Lemma without_positions_delete {A : Type} (idx : nat) (rest : list nat)
    (l : list A) :
  (forall j, j ∈ rest -> (j < idx)%nat) ->
  forall k, (k <= idx)%nat ->
            without_positions k rest (delete (idx - k)%nat l)
            = without_positions k (idx :: rest) l.
Proof.
  intros Hrest. induction l as [|c l IH]; intros k Hk.
  - reflexivity.
  - destruct (idx - k)%nat as [|d] eqn:Hd.
    + assert (k = idx) by lia. subst k.
      change (delete 0%nat (c :: l)) with l. cbn [without_positions].
      destruct (decide (idx ∈ idx :: rest)) as [_|Hout];
        [|exfalso; apply Hout, list_elem_of_here].
      rewrite !without_positions_all; [reflexivity| |].
      * intros j Hj. apply elem_of_cons in Hj as [->|Hj]; [lia|].
        apply Hrest in Hj. lia.
      * intros j Hj. now apply Hrest.
    + change (delete (S d) (c :: l)) with (c :: delete d l).
      cbn [without_positions].
      replace d with (idx - S k)%nat by lia.
      rewrite (IH (S k)) by lia.
      destruct (decide (k ∈ rest)) as [Hin|Hout];
        destruct (decide (k ∈ idx :: rest)) as [Hin'|Hout'];
        try reflexivity.
      * exfalso. apply Hout'. now apply list_elem_of_further.
      * exfalso. apply elem_of_cons in Hin' as [->|Hin']; [lia|contradiction].
Qed.

Lemma erase_positions_without {A : Type} (desc : list nat) :
  forall (n : nat) (l : list A),
    descending_below n desc ->
    erase_positions desc l = without_positions 0 desc l.
Proof.
  induction desc as [|idx rest IH]; intros n l Hd; cbn [erase_positions].
  - symmetry. apply without_positions_all. intros j Hj.
    now apply elem_of_nil in Hj.
  - inversion Hd as [|? ? ? Hlt Hrest]; subst.
    rewrite (IH idx _ Hrest).
    rewrite <- (without_positions_delete idx rest l); [|
      intros j Hj; exact (descending_below_elem _ _ _ Hrest Hj) | lia].
    now rewrite Nat.sub_0_r.
Qed.

Lemma unique_sorted (s : list nat) :
  StronglySorted Nat.le s ->
  StronglySorted lt (unique s) /\ forall j, j ∈ unique s <-> j ∈ s.
Proof.
  induction 1 as [|x s Hs IH Hall]; [split; [constructor | reflexivity]|].
  destruct IH as [IHs IHe]. cbn [unique].
  destruct s as [|y s]; [split; [repeat constructor | reflexivity]|].
  destruct (Nat.eqb_spec x y) as [->|Hne].
  - split; [exact IHs|]. intros j. rewrite IHe, !elem_of_cons. tauto.
  - split.
    + constructor; [exact IHs|].
      apply Forall_forall. intros j Hj. apply IHe in Hj.
      rewrite Forall_forall in Hall.
      pose proof (Hall y (list_elem_of_here _ _)) as Hxy.
      apply elem_of_cons in Hj as [->|Hj].
      * lia.
      * apply StronglySorted_inv in Hs as [_ Hy].
        rewrite Forall_forall in Hy. specialize (Hy j Hj). lia.
    + intros j. rewrite elem_of_cons, IHe, !elem_of_cons. tauto.
Qed.

Lemma removeColumns_spec (idxsToRemove : list nat) (m : MatrixXd) :
  Z.of_nat (cols m) < 2 ^ 64 ->
  Forall (fun j => (j < cols m)%nat) idxsToRemove ->
  removeColumns idxsToRemove m
  = Some (without_positions 0 idxsToRemove m).
Proof.
  intros Hsize Hbound. unfold removeColumns.
  destruct (unique_sorted (merge_sort Nat.le idxsToRemove))
    as [Hstrict Helem]; [apply StronglySorted_merge_sort; apply _|].
  assert (Hsame : forall j,
             j ∈ rev (unique (merge_sort Nat.le idxsToRemove))
             <-> j ∈ idxsToRemove).
  { intros j. rewrite list_elem_of_In, <- in_rev, <- list_elem_of_In, Helem.
    now rewrite merge_sort_Permutation. }
  assert (Hd : descending_below (length m)
                 (rev (unique (merge_sort Nat.le idxsToRemove)))).
  { apply rev_strict_descending; [exact Hstrict|].
    apply Forall_forall. intros j Hj. apply Helem in Hj.
    rewrite merge_sort_Permutation in Hj.
    rewrite Forall_forall in Hbound. now apply Hbound. }
  rewrite (unsafeRemoveColumns_spec _ m Hsize Hd).
  rewrite (erase_positions_without _ _ m Hd).
  f_equal. now apply without_positions_ext.
Qed.

(** X20.  [removeColumns] removes the listed columns whatever the order
    of the list and however often an index occurs in it: when every
    index is a column of the matrix, what is left are the columns at the
    other positions, in their order. *)
Theorem removeColumns_any_order (idxsToRemove : list nat) (m : MatrixXd) :
  Z.of_nat (cols m) < 2 ^ 64 ->
  Forall (fun j => (j < cols m)%nat) idxsToRemove ->
  removeColumns idxsToRemove m
  = Some (without_positions 0 idxsToRemove m).
Proof. exact (removeColumns_spec idxsToRemove m). Qed.

Lemma removeColumns_any_order_witness :
  removeColumns [2; 0; 2]%nat [[1]; [2]; [3]]%Q = Some [[2]]%Q.
Proof.
  apply (removeColumns_any_order [2; 0; 2]%nat [[1]; [2]; [3]]%Q).
  - reflexivity.
  - repeat constructor.
Defined.

Lemma unsafe_remove_loop_out_of_range (it : nat) (rest : list nat)
    (m : MatrixXd) :
  (cols m <= it)%nat -> Z.of_nat it < 2 ^ 63 ->
  unsafe_remove_loop (it :: rest) 1 m = None.
Proof.
  intros Hit Hsize. cbn [unsafe_remove_loop].
  assert (HnC : Ulong.sub (Ulong.sub (Z.of_nat (cols m)) (Z.of_nat it)) 1
                = 2 ^ 64 - (Z.of_nat it - Z.of_nat (cols m)) - 1).
  { unfold Ulong.sub, Ulong.wrap. rewrite Ulong_modulus_val.
    rewrite Zminus_mod_idemp_l.
    rewrite <- (Z_mod_plus_full _ 1 (2 ^ 64)).
    replace (Z.of_nat (cols m) - Z.of_nat it - 1 + 1 * 2 ^ 64)
      with (2 ^ 64 - (Z.of_nat it - Z.of_nat (cols m)) - 1) by lia.
    apply Z.mod_small.
    assert (2 ^ 64 = 2 * 2 ^ 63) by reflexivity.
    assert (0 < 2 ^ 63) by reflexivity. lia. }
  rewrite HnC.
  assert (H63 : 2 ^ 64 = 2 * 2 ^ 63) by reflexivity.
  destruct (Z.ltb_spec 0 (2 ^ 64 - (Z.of_nat it - Z.of_nat (cols m)) - 1))
    as [_|Hle]; [|lia].
  unfold shift_block.
  destruct (Nat.leb_spec
              (it + 1 + Z.to_nat (2 ^ 64 - (Z.of_nat it - Z.of_nat (cols m))
                                  - 1)) (length m)) as [Hle|_];
    [|reflexivity].
  unfold cols in *. lia.
Qed.

Lemma sorted_last_max (s : list nat) :
  StronglySorted lt s ->
  forall it, last s = Some it -> forall j, j ∈ s -> (j <= it)%nat.
Proof.
  induction 1 as [|x s Hs IH Hall]; intros it Hlast j Hj;
    [now apply elem_of_nil in Hj|].
  destruct s as [|y s].
  - cbn in Hlast. injection Hlast as <-.
    apply list_elem_of_singleton in Hj. lia.
  - change (last (x :: y :: s)) with (last (y :: s)) in Hlast.
    apply elem_of_cons in Hj as [->|Hj].
    + rewrite Forall_forall in Hall.
      assert (it ∈ y :: s).
      { apply last_Some in Hlast as [l' ->].
        apply elem_of_app. right. apply list_elem_of_here. }
      specialize (Hall it H). lia.
    + now apply (IH it).
Qed.

(** X21.  [removeColumns] with an index that is not a column of the
    matrix: the number of columns to move wraps around in unsigned
    arithmetic, and the block to move lies outside the matrix. *)
Theorem removeColumns_out_of_range (idxsToRemove : list nat) (m : MatrixXd) :
  (exists j, j ∈ idxsToRemove /\ (cols m <= j)%nat) ->
  Forall (fun j => Z.of_nat j < 2 ^ 63) idxsToRemove ->
  removeColumns idxsToRemove m = None.
Proof.
  intros (j & Hj & Hout) Hsize. unfold removeColumns.
  destruct (unique_sorted (merge_sort Nat.le idxsToRemove))
    as [Hstrict Helem]; [apply StronglySorted_merge_sort; apply _|].
  set (idxs := unique (merge_sort Nat.le idxsToRemove)) in *.
  assert (Hj' : j ∈ idxs)
    by (apply Helem; now rewrite merge_sort_Permutation).
  destruct (rev idxs) as [|it rest] eqn:Hrev.
  { apply (f_equal (@rev nat)) in Hrev. rewrite rev_involutive in Hrev.
    rewrite Hrev in Hj'. now apply elem_of_nil in Hj'. }
  assert (Hlast : last idxs = Some it).
  { apply (f_equal (@rev nat)) in Hrev. rewrite rev_involutive in Hrev.
    rewrite Hrev. cbn [rev]. apply last_snoc. }
  assert (Hit : it ∈ idxsToRemove).
  { rewrite <- (merge_sort_Permutation Nat.le idxsToRemove).
    apply Helem. apply last_Some in Hlast as [l' ->].
    apply elem_of_app. right. apply list_elem_of_here. }
  pose proof (sorted_last_max idxs Hstrict it Hlast j Hj') as Hmax.
  unfold unsafeRemoveColumns. rewrite Hrev.
  rewrite unsafe_remove_loop_out_of_range; [reflexivity | lia |].
  rewrite Forall_forall in Hsize. now apply Hsize.
Qed.

Lemma removeColumns_out_of_range_witness :
  removeColumns [0; 3]%nat [[1]; [2]; [3]]%Q = None.
Proof.
  apply (removeColumns_out_of_range [0; 3]%nat [[1]; [2]; [3]]%Q).
  - exists 3%nat. split; [|cbn; lia].
    apply list_elem_of_further, list_elem_of_here.
  - repeat constructor.
Defined.

(** ** The sign of the quantitative score *)

Lemma ln_nonpos (x : R) : (0 < x <= 1)%R -> (ln x <= 0)%R.
Proof.
  intros [Hpos Hle]. destruct (Rle_lt_or_eq_dec _ _ Hle) as [Hlt| ->].
  - pose proof (ln_increasing x 1 Hpos Hlt) as H. rewrite ln_1 in H. lra.
  - rewrite ln_1. lra.
Qed.

Lemma neg_log_nonnegative (arg : Q) :
  (arg <= 1)%Q -> nonnegative_score (neg_log arg).
Proof.
  intros Hle. unfold neg_log.
  destruct (0 ?= arg)%Q eqn:Hc; cbn [nonnegative_score]; try exact I.
  apply Qlt_alt in Hc.
  apply Qreals.Qlt_Rlt in Hc. apply Qreals.Qle_Rle in Hle.
  rewrite RMicromega.Q2R_0 in Hc. rewrite RMicromega.Q2R_1 in Hle.
  pose proof (ln_nonpos (Q2R arg) (conj Hc Hle)). lra.
Qed.

Lemma dadd_nonnegative (a b : double_val) :
  nonnegative_score a -> nonnegative_score b -> nonnegative_score (dadd a b).
Proof.
  destruct a as [x|], b as [y|]; cbn [dadd nonnegative_score]; try tauto.
  intros. lra.
Qed.

Section ScoreSignFacts.

Variable _gene_matrix : MatrixXd.

Lemma min_percentile_total (col : nat) (column : list Q) (geneset : list Z) :
  _gene_matrix !! col = Some column ->
  Forall (fun r => (Z.to_nat r < length column)%nat) geneset ->
  forall percentile,
    is_Some (min_percentile _gene_matrix col geneset percentile).
Proof.
  intros Hcol. induction geneset as [|gene_id rest IH]; intros Hall percentile;
    cbn [min_percentile]; [now eexists|].
  apply Forall_cons in Hall as [Hr Hall].
  destruct (lookup_lt_is_Some_2 column _ Hr) as [v Hv].
  unfold coeff. rewrite Hcol. cbn [mbind option_bind]. rewrite Hv.
  cbn [mbind option_bind]. now apply IH.
Qed.

Lemma score_loop_nonnegative (col : nat) (column : list Q)
    (genesets : list (list Z)) :
  _gene_matrix !! col = Some column ->
  Forall (Forall (fun r => (Z.to_nat r < length column)%nat)) genesets ->
  forall score,
    nonnegative_score score ->
    exists result,
      score_quantitative_single_loop _gene_matrix col genesets score
      = Some result
      /\ nonnegative_score result.
Proof.
  intros Hcol. induction genesets as [|geneset rest IH];
    intros Hall score Hscore; cbn [score_quantitative_single_loop].
  - now exists score.
  - apply Forall_cons in Hall as [Hgs Hall].
    destruct (min_percentile_total col column geneset Hcol Hgs 1%Q)
      as [p Hp].
    rewrite Hp. cbn [mbind option_bind].
    destruct (p ?= 1)%Q eqn:Hc; try now apply IH.
    apply IH; [exact Hall|].
    apply dadd_nonnegative; [exact Hscore|].
    apply neg_log_nonnegative.
    apply Qlt_alt in Hc.
    assert (Hpow : (0 <= (1 - p) ^ Z.of_nat (length geneset))%Q).
    { apply Qpower.Qpower_0_le. Lqa.lra. }
    Lqa.lra.
Qed.

(** X22.  [score_quantitative_single] never returns a negative score:
    when the rows of the genesets lie inside the matrix, the call returns
    a score that is at least 0, whatever the entries of the matrix are
    (a sum that is not finite is returned as 0). *)
Theorem score_quantitative_single_nonnegative (col : nat) (column : list Q)
    (genesets : list (list Z)) :
  _gene_matrix !! col = Some column ->
  Forall (Forall (fun r => (Z.to_nat r < length column)%nat)) genesets ->
  exists score : R,
    score_quantitative_single _gene_matrix col genesets = Some score
    /\ (0 <= score)%R.
Proof.
  intros Hcol Hall. unfold score_quantitative_single.
  destruct (score_loop_nonnegative col column genesets Hcol Hall (Finite 0))
    as (result & -> & Hresult); [cbn; lra|].
  cbn [fmap option_fmap option_map]. eexists. split; [reflexivity|].
  destruct result; cbn [finite_or_zero nonnegative_score] in *; lra.
Qed.

End ScoreSignFacts.

Lemma score_quantitative_single_nonnegative_witness :
  exists score : R,
    score_quantitative_single sample_ranked 0 [[0; 3]; [1]] = Some score
    /\ (0 <= score)%R.
Proof.
  apply (score_quantitative_single_nonnegative sample_ranked 0
           [1 # 4; 2 # 4; 3 # 4; 4 # 4]%Q [[0; 3]; [1]]).
  - reflexivity.
  - repeat constructor.
Defined.

(** ** Reading names *)

Lemma read_names_rows_plain (rows : list (list string)) :
  forall st,
    found_snp st = false -> snp_col st = O ->
    Forall (fun row : list string =>
              exists first,
                row !! O = Some first
                /\ (is_comment_cell first = true
                    \/ find_snp_label row O = None)) rows ->
    read_names_rows rows st
    = Some {| found_snp := false; snp_col := O;
              inserted := inserted st ++ data_cells O rows |}.
Proof.
  induction rows as [|row rows IH]; intros st Hfound Hcol Hrows;
    cbn [read_names_rows].
  - unfold data_cells. cbn. rewrite app_nil_r. destruct st; cbn in *.
    now subst.
  - apply Forall_cons in Hrows as [(first & Hfirst & Hrow) Hrows].
    unfold read_names_row, data_cells. rewrite omap_cons_eq.
    fold (data_cells O rows). rewrite Hfirst. cbn [mbind option_bind].
    destruct (is_comment_cell first) eqn:Hcomment.
    + now apply IH.
    + destruct Hrow as [Hc|Hlabel]; [discriminate|].
      rewrite Hfound, Hlabel, Hcol, Hfirst. cbn [negb mbind option_bind].
      rewrite IH by (try reflexivity; exact Hrows).
      cbn [inserted]. now rewrite <- app_assoc.
Qed.

Lemma read_names_rows_column (rows : list (list string)) :
  forall st,
    found_snp st = true ->
    Forall (fun row : list string =>
              exists first,
                row !! O = Some first
                /\ (is_comment_cell first = true
                    \/ is_Some (row !! snp_col st))) rows ->
    read_names_rows rows st
    = Some {| found_snp := true; snp_col := snp_col st;
              inserted := inserted st ++ data_cells (snp_col st) rows |}.
Proof.
  induction rows as [|row rows IH]; intros st Hfound Hrows;
    cbn [read_names_rows].
  - unfold data_cells. cbn. rewrite app_nil_r. destruct st; cbn in *.
    now subst.
  - apply Forall_cons in Hrows as [(first & Hfirst & Hrow) Hrows].
    unfold read_names_row, data_cells. rewrite omap_cons_eq.
    fold (data_cells (snp_col st) rows). rewrite Hfirst.
    cbn [mbind option_bind].
    destruct (is_comment_cell first) eqn:Hcomment.
    + now apply IH.
    + destruct Hrow as [Hc|[cell Hcell]]; [discriminate|].
      rewrite Hfound, Hcell. cbn [negb mbind option_bind].
      rewrite IH by (try reflexivity; exact Hrows).
      cbn [inserted snp_col]. now rewrite <- app_assoc.
Qed.

(** X23.  The loop of [read_names] on a file without a header line: when
    no line that is not a comment holds one of the labels [SNP], [snp],
    [name], [marker], the names are the first cells of these lines. *)
Theorem read_names_without_header (rows : list (list string)) :
  Forall (fun row : list string =>
            exists first,
              row !! O = Some first
              /\ (is_comment_cell first = true
                  \/ find_snp_label row O = None)) rows ->
  read_names_rows rows {| found_snp := false; snp_col := 0; inserted := [] |}
  = Some {| found_snp := false; snp_col := O;
            inserted := data_cells O rows |}.
Proof.
  intros Hrows.
  now rewrite (read_names_rows_plain rows
                 {| found_snp := false; snp_col := 0; inserted := [] |}
                 eq_refl eq_refl Hrows).
Qed.

Lemma read_names_without_header_witness :
  read_names_rows (map readNextRow ["#list"; "rs1"; "rs 2"]%string)
                  {| found_snp := false; snp_col := 0; inserted := [] |}
  = Some {| found_snp := false; snp_col := O;
            inserted := ["rs1"; "rs2"]%string |}.
Proof.
  apply (read_names_without_header
           (map readNextRow ["#list"; "rs1"; "rs 2"]%string)).
  repeat constructor; eexists; (split; [reflexivity|]);
    first [left; reflexivity | right; reflexivity].
Defined.

(** X24.  The loop of [read_names] on a file with a header: the first
    line that is not a comment and holds a label, at position [k], is
    not taken as a name; the lines before it give their first cells, the
    lines after it their cells at position [k]. *)
Theorem read_names_with_header (before after : list (list string))
    (header : list string) (k : nat) :
  Forall (fun row : list string =>
            exists first,
              row !! O = Some first
              /\ (is_comment_cell first = true
                  \/ find_snp_label row O = None)) before ->
  (exists first, header !! O = Some first /\ is_comment_cell first = false) ->
  find_snp_label header O = Some k ->
  Forall (fun row : list string =>
            exists first,
              row !! O = Some first
              /\ (is_comment_cell first = true \/ is_Some (row !! k)))
         after ->
  read_names_rows (before ++ header :: after)
                  {| found_snp := false; snp_col := 0; inserted := [] |}
  = Some {| found_snp := true; snp_col := k;
            inserted := data_cells O before ++ data_cells k after |}.
Proof.
  intros Hbefore (first & Hfirst & Hcomment) Hlabel Hafter.
  assert (Happ : forall rs rs' st,
             read_names_rows (rs ++ rs') st
             = (st' ← read_names_rows rs st; read_names_rows rs' st')).
  { intros rs. induction rs as [|row rs IH]; intros rs' st; [reflexivity|].
    cbn [app read_names_rows].
    destruct (read_names_row st row); cbn [mbind option_bind];
      [apply IH | reflexivity]. }
  rewrite Happ, (read_names_rows_plain before
                   {| found_snp := false; snp_col := 0; inserted := [] |}
                   eq_refl eq_refl Hbefore).
  cbn [mbind option_bind read_names_rows inserted app].
  unfold read_names_row at 1. rewrite Hfirst. cbn [mbind option_bind].
  rewrite Hcomment. cbn [found_snp negb]. rewrite Hlabel.
  cbn [mbind option_bind inserted].
  now rewrite (read_names_rows_column after
                 {| found_snp := true; snp_col := k;
                    inserted := data_cells O before |} eq_refl Hafter).
Qed.

Lemma read_names_with_header_witness :
  read_names_rows
    (map readNextRow ["# a list"; "chr" ++ String "009" "SNP";
                      "1" ++ String "009" "rs1";
                      "2" ++ String "009" "rs2"]%string)
    {| found_snp := false; snp_col := 0; inserted := [] |}
  = Some {| found_snp := true; snp_col := 1;
            inserted := ["rs1"; "rs2"]%string |}.
Proof.
  apply (read_names_with_header
           [readNextRow "# a list"]
           (map readNextRow ["1" ++ String "009" "rs1";
                             "2" ++ String "009" "rs2"]%string)
           (readNextRow ("chr" ++ String "009" "SNP")) 1).
  - repeat constructor. eexists. split; [reflexivity|]. left. reflexivity.
  - eexists. split; reflexivity.
  - reflexivity.
  - repeat constructor; eexists; (split; [reflexivity|]); right; now eexists.
Defined.

(** ** The way through the constructor *)

Lemma report_missing_conditions_passes (condition_names : NameSet.t)
    (col_names : list string) :
  (forall n, n ∈ condition_names -> n ∈ col_names) ->
  report_missing_conditions condition_names col_names = Continue tt.
Proof.
  intros Hall. unfold report_missing_conditions.
  destruct (NameSet.size condition_names =? 0); [reflexivity|].
  destruct (NameSet.set_difference condition_names
              (NameSet.of_list col_names)) as [|x missing] eqn:Hdiff;
    [reflexivity|].
  assert (Hx : x ∈ NameSet.set_difference condition_names
                     (NameSet.of_list col_names))
    by (rewrite Hdiff; apply list_elem_of_here).
  apply NameSet_set_difference_elem in Hx as [Hin Hout].
  exfalso. apply Hout. apply NameSet_of_list_elem. now apply Hall.
Qed.

(** X25.  When the files load and every name of the conditions file is a
    column of the matrix, the constructor passes the check of the
    conditions and goes on with the loaded data. *)
Theorem snpsea_runs_analysis (files : input_files) (l : loaded) :
  read_files files = Continue l ->
  (forall n, n ∈ _condition_names l -> n ∈ _col_names l) ->
  forall (Outputs : Type) (analysis : loaded -> run Outputs),
    snpsea analysis files = analysis l.
Proof.
  intros Hread Hall Outputs analysis. unfold snpsea.
  rewrite Hread. cbn [run_bind].
  now rewrite (report_missing_conditions_passes _ _ Hall).
Qed.

Lemma snpsea_runs_analysis_witness :
  _condition_names sample_covered_loaded = ["c1"%string]
  /\ report_missing_conditions (_condition_names sample_covered_loaded)
                               (_col_names sample_covered_loaded)
     = Continue tt
  /\ snpsea (fun l => Continue (_col_names l)) sample_covered_files
     = Continue (_col_names sample_covered_loaded).
Proof.
  split; [reflexivity|]. split; [vm_compute; reflexivity|].
  apply (snpsea_runs_analysis sample_covered_files sample_covered_loaded).
  - vm_compute. reflexivity.
  - intros n Hn. apply list_elem_of_singleton in Hn. subst n.
    apply list_elem_of_further, list_elem_of_here.
Defined.

Lemma read_names_nonempty (filename : string) (content : option (list string))
    (names : NameSet.t) :
  read_names filename content = Continue names -> names <> [].
Proof.
  unfold read_names. destruct content as [cells|]; [|discriminate].
  destruct (NameSet.size (NameSet.of_list cells) =? 0) eqn:Hsize;
    [discriminate|].
  intros [= <-] Hnil. rewrite Hnil in Hsize. discriminate.
Qed.

(** What [read_files] has put into the members when it returns. *)
Lemma read_files_spec (files : input_files) (l : loaded) :
  read_files files = Continue l ->
  _null_snp_names l <> []
  /\ (_condition_names l = [] <-> condition_file files = ""%string)
  /\ (exists snp_rows,
        snp_intervals_content files = Some snp_rows
        /\ read_bed_intervals (snp_intervals_file files) (Some snp_rows)
           = Continue (_snp_intervals l))
  /\ (exists gct,
        gene_matrix_content files = Some gct
        /\ String.prefix "#1.2" (gct_magic gct) = true
        /\ 0 < gct_rows gct /\ 0 < gct_cols gct
        /\ _row_names l = gct_row_names gct
        /\ _col_names l = gct_col_names gct
        /\ _gene_matrix l = gct_data gct)
  /\ (exists gene_rows,
        gene_intervals_content files = Some gene_rows
        /\ (_nrows l, _gene_interval_tree l)
           = read_bed_interval_tree (_row_names l) gene_rows).
Proof.
  unfold read_files. intros Hread.
  destruct (read_names (null_snps_file files) (null_snps_content files))
    as [nulls|] eqn:Hnull; cbn [run_bind] in Hread; [|discriminate].
  destruct (0 <? Z.of_nat (String.length (condition_file files)))
    eqn:Hfile.
  - destruct (read_names (condition_file files) (condition_content files))
      as [conds|] eqn:Hcond; cbn [run_bind] in Hread; [|discriminate].
    destruct (snp_intervals_content files) as [snp_rows|] eqn:Hsnp;
      cbn [read_bed_intervals run_bind] in Hread; [|discriminate].
    destruct (gene_matrix_content files) as [gct|] eqn:Hgct;
      cbn [read_gct] in Hread; [|discriminate].
    destruct (String.prefix "#1.2" (gct_magic gct)) eqn:Hmagic;
      cbn [negb] in Hread; [|discriminate].
    destruct ((gct_rows gct <=? 0) || (gct_cols gct <=? 0)) eqn:Hdims;
      cbn [run_bind] in Hread; [discriminate|].
    destruct (gene_intervals_content files) as [gene_rows|] eqn:Hgenes;
      cbn [read_gene_intervals run_bind] in Hread; [|discriminate].
    injection Hread as <-. cbn.
    apply orb_false_elim in Hdims as [Hr Hc].
    apply Z.leb_gt in Hr, Hc.
    split; [exact (read_names_nonempty _ _ _ Hnull)|].
    split.
    { split.
      - intros Hnil. exfalso.
        exact (read_names_nonempty _ _ _ Hcond Hnil).
      - intros Hempty. rewrite Hempty in Hfile. discriminate. }
    split; [now exists snp_rows|].
    split; [exists gct; repeat split; auto|].
    exists gene_rows. split; [reflexivity|].
    unfold read_bed_interval_tree. reflexivity.
  - cbn [run_bind] in Hread.
    destruct (snp_intervals_content files) as [snp_rows|] eqn:Hsnp;
      cbn [read_bed_intervals run_bind] in Hread; [|discriminate].
    destruct (gene_matrix_content files) as [gct|] eqn:Hgct;
      cbn [read_gct] in Hread; [|discriminate].
    destruct (String.prefix "#1.2" (gct_magic gct)) eqn:Hmagic;
      cbn [negb] in Hread; [|discriminate].
    destruct ((gct_rows gct <=? 0) || (gct_cols gct <=? 0)) eqn:Hdims;
      cbn [run_bind] in Hread; [discriminate|].
    destruct (gene_intervals_content files) as [gene_rows|] eqn:Hgenes;
      cbn [read_gene_intervals run_bind] in Hread; [|discriminate].
    injection Hread as <-. cbn.
    apply orb_false_elim in Hdims as [Hr Hc].
    apply Z.leb_gt in Hr, Hc.
    split; [exact (read_names_nonempty _ _ _ Hnull)|].
    split.
    { split; [|reflexivity]. intros _.
      destruct (condition_file files); [reflexivity|].
      cbn [String.length] in Hfile. apply Z.ltb_ge in Hfile. lia. }
    split; [now exists snp_rows|].
    split; [exists gct; repeat split; auto|].
    exists gene_rows. split; [reflexivity|].
    unfold read_bed_interval_tree. reflexivity.
Qed.

(** X26.  What the constructor has in hand once all files are read: the
    list of null SNPs is not empty; the conditions are empty exactly when
    no conditions file was named; the matrix comes from a GCT file whose
    first line starts with [#1.2] and whose second line gives positive
    numbers of rows and columns; and [_nrows] and the trees come from the
    gene intervals of the rows of the matrix. *)
Theorem read_files_loaded (files : input_files) (l : loaded) :
  read_files files = Continue l ->
  _null_snp_names l <> []
  /\ (_condition_names l = [] <-> condition_file files = ""%string)
  /\ (exists snp_rows,
        snp_intervals_content files = Some snp_rows
        /\ read_bed_intervals (snp_intervals_file files) (Some snp_rows)
           = Continue (_snp_intervals l))
  /\ (exists gct,
        gene_matrix_content files = Some gct
        /\ String.prefix "#1.2" (gct_magic gct) = true
        /\ 0 < gct_rows gct /\ 0 < gct_cols gct
        /\ _row_names l = gct_row_names gct
        /\ _col_names l = gct_col_names gct
        /\ _gene_matrix l = gct_data gct)
  /\ (exists gene_rows,
        gene_intervals_content files = Some gene_rows
        /\ (_nrows l, _gene_interval_tree l)
           = read_bed_interval_tree (_row_names l) gene_rows).
Proof. exact (read_files_spec files l). Qed.

Lemma read_files_loaded_witness :
  _null_snp_names sample_binary_loaded <> []
  /\ (_condition_names sample_binary_loaded = []
      <-> condition_file sample_binary_files = ""%string).
Proof.
  destruct (read_files_loaded sample_binary_files sample_binary_loaded)
    as (Hnull & Hcond & _).
  - vm_compute. reflexivity.
  - split; [exact Hnull | exact Hcond].
Defined.

(** ** Random SNP sets *)

Lemma name_lt_trans (x y z : string) :
  name_lt x y -> name_lt y z -> name_lt x z.
Proof.
  unfold name_lt. intros Hxy Hyz.
  apply OrderedTypeEx.String_as_OT.cmp_lt.
  eapply OrderedTypeEx.String_as_OT.lt_trans;
    apply OrderedTypeEx.String_as_OT.cmp_lt; eassumption.
Qed.

Lemma name_lt_irrefl (x : string) : ~ name_lt x x.
Proof.
  unfold name_lt. intros Hlt.
  pose proof (String.compare_antisym x x) as Ha.
  rewrite Hlt in Ha. discriminate.
Qed.

Lemma NameSet_insert_sorted (x : string) (s : NameSet.t) :
  StronglySorted name_lt s -> StronglySorted name_lt (NameSet.insert x s).
Proof.
  induction 1 as [|y s Hs IH Hall]; cbn [NameSet.insert].
  - repeat constructor.
  - destruct (String.compare x y) eqn:Hc.
    + now constructor.
    + constructor; [now constructor|].
      constructor; [exact Hc|].
      eapply Forall_impl; [exact Hall|].
      intros z Hz. cbn in Hz. eapply name_lt_trans; [exact Hc | exact Hz].
    + constructor; [exact IH|].
      apply Forall_forall. intros z Hz.
      apply NameSet_insert_elem in Hz as [->|Hz].
      * unfold name_lt. rewrite String.compare_antisym, Hc. reflexivity.
      * rewrite Forall_forall in Hall. now apply Hall.
Qed.

Lemma NameSet_sorted_NoDup (s : NameSet.t) :
  StronglySorted name_lt s -> NoDup s.
Proof.
  induction 1 as [|y s Hs IH Hall]; [constructor|].
  constructor; [|exact IH].
  intros Hin. rewrite Forall_forall in Hall.
  exact (name_lt_irrefl y (Hall y Hin)).
Qed.

Section RandomSnpsFacts.

Context {G : Type} `{UniformSource G}.

Variable _snp_intervals : gmap string genomic_interval.
Variable _gene_interval_tree : gmap string IntervalTree.
Variable _null_snp_names : NameSet.t.
Variable slop : Z.

Local Abbreviation eligible' :=
  (eligible _snp_intervals _gene_interval_tree _null_snp_names slop).
Local Abbreviation loop :=
  (random_snps_loop _snp_intervals _gene_interval_tree _null_snp_names).

(** What one round does to the set of names. *)
Lemma random_snps_loop_result (n : Z) (fuel : nat) :
  forall (names : NameSet.t) (g : G) (result : NameSet.t),
    NameSet.size names <= Ulong.wrap n ->
    (forall snp, snp ∈ names -> eligible' snp) ->
    (loop fuel n slop names g).1 = Done result ->
    NameSet.size result = Ulong.wrap n
    /\ forall snp, snp ∈ result -> eligible' snp.
Proof.
  induction fuel as [|fuel IH]; intros names g result Hsize Hnames;
    cbn [random_snps_loop].
  - destruct (Z.ltb_spec (NameSet.size names) (Ulong.wrap n)) as [Hlt|Hge];
      cbn [fst]; [discriminate|].
    intros [= <-]. split; [lia | exact Hnames].
  - destruct (Z.ltb_spec (NameSet.size names) (Ulong.wrap n)) as [Hlt|Hge].
    2:{ cbn [fst]. intros [= <-]. split; [lia | exact Hnames]. }
    cbn zeta.
    destruct (uniform_int 0 _ g) as [r g'].
    destruct (_null_snp_names !! Z.to_nat r) as [snp|] eqn:Hsnp;
      [|cbn [fst]; discriminate].
    destruct (decide (_snp_intervals !! snp = None)) as [Hnone|Hsome];
      [now apply IH|].
    destruct (Z.eqb_spec
                (Z.of_nat (length (snp_geneset _snp_intervals
                                     _gene_interval_tree snp slop))) 0)
      as [Hzero|Hpos]; [now apply IH|].
    apply IH.
    + pose proof (NameSet_insert_length snp names). unfold NameSet.size in *.
      lia.
    + intros x Hx. apply NameSet_insert_elem in Hx as [->|Hx];
        [|now apply Hnames].
      split; [eapply list_elem_of_lookup_2; exact Hsnp|].
      split; [now apply not_eq_None_Some|].
      intros Hnil. rewrite Hnil in Hpos. now apply Hpos.
Qed.

(** X27.  Whenever [random_snps] returns, the set it has filled holds
    exactly [n] names (as an unsigned number), and every one of them is a
    null SNP that has an interval and overlaps at least one gene. *)
Theorem random_snps_result (fuel : nat) (n : Z) (g : G)
    (names : NameSet.t) :
  (random_snps _snp_intervals _gene_interval_tree _null_snp_names
               fuel n slop g).1 = Done names ->
  NameSet.size names = Ulong.wrap n
  /\ forall snp, snp ∈ names ->
                 eligible _snp_intervals _gene_interval_tree _null_snp_names
                          slop snp.
Proof.
  unfold random_snps. apply random_snps_loop_result.
  - pose proof (Ulong_wrap_range n).
    change (NameSet.size NameSet.empty) with 0. lia.
  - intros snp Hsnp. now apply elem_of_nil in Hsnp.
Qed.

Hypothesis source_in_range : uniform_in_range G.
Hypothesis null_snps_size :
  0 < Z.of_nat (length _null_snp_names) < 2 ^ 64.

Lemma random_snps_loop_starved (n : Z) (pool : list string) (fuel : nat) :
  (forall snp, eligible' snp -> snp ∈ pool) ->
  Z.of_nat (length pool) < Ulong.wrap n ->
  forall (names : NameSet.t) (g : G),
    StronglySorted name_lt names ->
    (forall snp, snp ∈ names -> eligible' snp) ->
    (loop fuel n slop names g).1 = MoreRounds.
Proof.
  intros Hpool Hcount.
  induction fuel as [|fuel IH]; intros names g Hsorted Hnames;
    cbn [random_snps_loop];
    (assert (Hsize : NameSet.size names < Ulong.wrap n);
     [assert (Hle : (length names <= length pool)%nat);
      [apply submseteq_length, NoDup_submseteq;
       [now apply NameSet_sorted_NoDup
       |intros x Hx; apply Hpool; now apply Hnames]
      |unfold NameSet.size; lia]
     |]);
    apply Z.ltb_lt in Hsize; rewrite Hsize; [reflexivity|].
  cbn zeta.
  assert (Hbound : Ulong.sub (Z.of_nat (length _null_snp_names)) 1
                   = Z.of_nat (length _null_snp_names) - 1).
  { unfold Ulong.sub. apply Ulong_wrap_small. rewrite Ulong_modulus_val. lia. }
  rewrite Hbound.
  pose proof (source_in_range 0 (Z.of_nat (length _null_snp_names) - 1) g
                ltac:(lia)) as Hr.
  destruct (uniform_int 0 _ g) as [r g']. cbn [fst] in Hr.
  destruct (_null_snp_names !! Z.to_nat r) as [snp|] eqn:Hsnp.
  2:{ apply lookup_ge_None in Hsnp. lia. }
  destruct (decide (_snp_intervals !! snp = None)) as [Hnone|Hsome];
    [now apply IH|].
  destruct (Z.eqb_spec
              (Z.of_nat (length (snp_geneset _snp_intervals
                                   _gene_interval_tree snp slop))) 0)
    as [Hzero|Hpos]; [now apply IH|].
  apply IH.
  - now apply NameSet_insert_sorted.
  - intros x Hx. apply NameSet_insert_elem in Hx as [->|Hx];
      [|now apply Hnames].
    split; [eapply list_elem_of_lookup_2; exact Hsnp|].
    split; [now apply not_eq_None_Some|].
    intros Hnil. rewrite Hnil in Hpos. now apply Hpos.
Qed.

(** X28.  [random_snps] never returns when it is asked for more names
    than there are null SNPs to pick: if the null SNPs that have an
    interval and overlap a gene are among fewer than [n] names (as an
    unsigned number, so also for a negative [n]), the loop is still
    running after any number of rounds. *)
Theorem random_snps_starved (n : Z) (pool : list string) :
  (forall snp,
      eligible _snp_intervals _gene_interval_tree _null_snp_names slop snp ->
      snp ∈ pool) ->
  Z.of_nat (length pool) < Ulong.wrap n ->
  forall (fuel : nat) (g : G),
    (random_snps _snp_intervals _gene_interval_tree _null_snp_names
                 fuel n slop g).1 = MoreRounds.
Proof.
  intros Hpool Hcount fuel g. unfold random_snps.
  apply (random_snps_loop_starved n pool fuel Hpool Hcount).
  - constructor.
  - intros snp Hsnp. now apply elem_of_nil in Hsnp.
Qed.

End RandomSnpsFacts.

Lemma random_snps_result_witness :
  NameSet.size ["rs1"%string] = Ulong.wrap 1
  /\ forall snp, snp ∈ ["rs1"%string] ->
                 eligible sample_snp_intervals sample_gene_tree
                          ["rs1"%string] 1000 snp.
Proof.
  apply (random_snps_result sample_snp_intervals sample_gene_tree
           ["rs1"%string] 1000 3 1 42 ["rs1"%string]).
  vm_compute. reflexivity.
Defined.

Lemma sample_null_snp_starved (snp : string) :
  eligible sample_snp_intervals sample_gene_tree ["rs1"%string] 0 snp ->
  snp ∈ @nil string.
Proof.
  intros (Hin & _ & Hgenes). apply list_elem_of_singleton in Hin. subst snp.
  exfalso. apply Hgenes. vm_compute. reflexivity.
Qed.

Lemma random_snps_starved_witness :
  (random_snps sample_snp_intervals sample_gene_tree ["rs1"%string]
               1000 1 0 42).1 = MoreRounds.
Proof.
  apply (random_snps_starved sample_snp_intervals sample_gene_tree
           ["rs1"%string] 0 lcg_in_range) with (pool := []).
  - split; reflexivity.
  - exact sample_null_snp_starved.
  - reflexivity.
Defined.

Section RandomGenesetsFacts.

Context {G : Type} `{UniformSource G}.

Variable _snp_intervals : gmap string genomic_interval.
Variable _gene_interval_tree : gmap string IntervalTree.
Variable _null_snp_names : NameSet.t.
Variable slop : Z.

(** X29.  Whenever [random_genesets] returns, it returns exactly [n]
    genesets (as an unsigned number), none of them empty: they are the
    genesets of [n] different null SNPs, in the ascending order of the
    names of the SNPs. *)
Theorem random_genesets_result (fuel : nat) (n : Z) (g : G)
    (drawn : list (list Z)) :
  (random_genesets _snp_intervals _gene_interval_tree _null_snp_names
                   fuel n slop g).1 = Done drawn ->
  Z.of_nat (length drawn) = Ulong.wrap n
  /\ Forall (fun geneset => geneset <> []) drawn
  /\ exists snps : NameSet.t,
       (random_snps _snp_intervals _gene_interval_tree _null_snp_names
                    fuel n slop g).1 = Done snps
       /\ drawn = map (fun snp => snp_geneset _snp_intervals
                                              _gene_interval_tree snp slop)
                      snps
       /\ Forall (eligible _snp_intervals _gene_interval_tree
                           _null_snp_names slop) snps.
Proof.
  unfold random_genesets.
  destruct (random_snps _snp_intervals _gene_interval_tree _null_snp_names
                        fuel n slop g) as [[snps| |] g'] eqn:Hrun;
    cbn [fst]; try discriminate.
  intros [= <-].
  destruct (random_snps_loop_result _snp_intervals _gene_interval_tree
              _null_snp_names slop n fuel NameSet.empty g snps)
    as [Hsize Helig].
  - pose proof (Ulong_wrap_range n).
    change (NameSet.size NameSet.empty) with 0. lia.
  - intros snp Hsnp. now apply elem_of_nil in Hsnp.
  - unfold random_snps in Hrun. now rewrite Hrun.
  - assert (Hall : Forall (eligible _snp_intervals _gene_interval_tree
                             _null_snp_names slop) snps)
      by (apply Forall_forall; exact Helig).
    assert (Hkeep :
              List.filter (fun geneset => 0 <? Z.of_nat (length geneset))
                (map (fun snp => snp_geneset _snp_intervals
                                   _gene_interval_tree snp slop) snps)
              = map (fun snp => snp_geneset _snp_intervals
                                  _gene_interval_tree snp slop) snps).
    { clear Hsize Helig Hrun. induction Hall as [|snp rest Hsnp _ IH];
        [reflexivity|].
      cbn [map List.filter]. rewrite IH.
      destruct Hsnp as (_ & _ & Hne).
      destruct (snp_geneset _snp_intervals _gene_interval_tree snp slop);
        [contradiction | reflexivity]. }
    rewrite Hkeep. split; [|split].
    + rewrite length_map. exact Hsize.
    + apply Forall_forall. intros gs Hgs.
      apply list_elem_of_fmap in Hgs as (snp & -> & Hsnp).
      now destruct (Helig snp Hsnp) as (_ & _ & Hne).
    + exists snps. split; [reflexivity|]. split; [reflexivity | exact Hall].
Qed.

End RandomGenesetsFacts.

Lemma random_genesets_result_witness :
  Z.of_nat (length [[7]]) = Ulong.wrap 1
  /\ Forall (fun geneset : list Z => geneset <> []) [[7]].
Proof.
  destruct (random_genesets_result sample_snp_intervals sample_gene_tree
              ["rs1"%string] 1000 3 1 42 [[7]]) as (Hlen & Hne & _).
  - vm_compute. reflexivity.
  - split; [exact Hlen | exact Hne].
Defined.

(** ** An empty bin under the scheduler *)

Section SchedulerAborts.

Context {G : Type} `{UniformSource G}.

Variable call_score : scorer -> nat -> list (list Z) -> Q.
Variable _geneset_bins : gmap Z (list (list Z)).
Variable _user_geneset_sizes : list Z.
Variable _col_names : list string.

Hypothesis empty_bin :
  exists s, s ∈ _user_geneset_sizes /\ bin_of _geneset_bins s = [].

Lemma draw_matched_aborts (st : sched_state G) :
  exists g',
    draw_matched _geneset_bins _user_geneset_sizes st
    = (OutOfRange, {| generator := g'; stream := stream st |}).
Proof.
  unfold draw_matched, matched_genesets.
  pose proof (matched_genesets_from_empty_bin _geneset_bins
                _user_geneset_sizes empty_bin [] (generator st)) as Hrun.
  destruct (matched_genesets_from _ _ _ _) as [r g']. cbn [fst] in Hrun.
  subst r. now exists g'.
Qed.

Lemma run_batch_aborts sf col us (count : nat) observed
    (st : sched_state G) :
  (0 < count)%nat ->
  exists g',
    run_batch call_score _geneset_bins _user_geneset_sizes sf col us count
              observed st
    = (OutOfRange, {| generator := g'; stream := stream st |}).
Proof.
  intros Hcount. destruct count as [|count]; [lia|].
  cbn [run_batch]. unfold sched_bind.
  destruct (draw_matched_aborts st) as [g' ->]. now exists g'.
Qed.

Lemma calculate_column_aborts sf genesets min_observations max_iterations
    replicates replicate col (st : sched_state G) :
  1 <= max_iterations < 2 ^ 63 ->
  Qle_bool (call_score sf col genesets) 0 = false ->
  exists g',
    calculate_column call_score _geneset_bins _user_geneset_sizes _col_names
                     sf genesets min_observations max_iterations replicates
                     replicate col st
    = (OutOfRange, {| generator := g'; stream := stream st |}).
Proof.
  intros Hrange Hscore. unfold calculate_column. rewrite Hscore.
  destruct (iterations_first_batch max_iterations Hrange) as (rest & -> & _).
  cbn [run_batches]. unfold sched_bind.
  destruct (run_batch_aborts sf col (call_score sf col genesets)
              (Z.to_nat 100) 0 st ltac:(lia)) as [g' ->].
  now exists g'.
Qed.

Lemma calculate_column_untested sf genesets min_observations max_iterations
    replicates replicate col n (st : sched_state G) :
  Qle_bool (call_score sf col genesets) 0 = true ->
  _col_names !! col = Some n ->
  calculate_column call_score _geneset_bins _user_geneset_sizes _col_names
                   sf genesets min_observations max_iterations replicates
                   replicate col st
  = (Ok tt, {| generator := generator st;
               stream := stream st ++ [untested_row replicates replicate n] |}).
Proof.
  intros Hscore Hname. unfold calculate_column. rewrite Hscore.
  unfold sched_bind, col_name_at. rewrite Hname. reflexivity.
Qed.

Lemma calculate_columns_abort sf genesets min_observations max_iterations
    replicates replicate (c : nat) :
  1 <= max_iterations < 2 ^ 63 ->
  (c <= length _col_names)%nat ->
  (forall col, (col < c)%nat ->
               Qle_bool (call_score sf col genesets) 0 = true) ->
  Qle_bool (call_score sf c genesets) 0 = false ->
  forall (k a more : nat) (st : sched_state G),
    (a + k = c)%nat ->
    exists g',
      calculate_columns
        (calculate_column call_score _geneset_bins _user_geneset_sizes
           _col_names sf genesets min_observations max_iterations replicates
           replicate)
        (seq a (k + S more)) st
      = (OutOfRange,
         {| generator := g';
            stream := stream st
                      ++ map (untested_row replicates replicate)
                             (take k (drop a _col_names)) |}).
Proof.
  intros Hrange Hnames Hzero Hpos.
  induction k as [|k IH]; intros a more st Hc.
  - cbn [Nat.add seq calculate_columns take map]. unfold sched_bind.
    replace a with c by lia.
    destruct (calculate_column_aborts sf genesets min_observations
                max_iterations replicates replicate c st Hrange Hpos)
      as [g' ->].
    exists g'. now rewrite app_nil_r.
  - cbn [Nat.add seq calculate_columns]. unfold sched_bind.
    destruct (lookup_lt_is_Some_2 _col_names a) as [n Hn]; [lia|].
    rewrite (calculate_column_untested sf genesets min_observations
               max_iterations replicates replicate a n st
               (Hzero a ltac:(lia)) Hn).
    destruct (IH (S a) more
                {| generator := generator st;
                   stream := stream st
                             ++ [untested_row replicates replicate n] |})
      as [g' ->]; [lia|].
    exists g'. cbn [stream]. rewrite <- app_assoc.
    rewrite (drop_S _col_names n a Hn). reflexivity.
Qed.

End SchedulerAborts.

(** X30.  With an empty bin among the sizes of the user's genesets,
    [calculate_pvalues] ends in the exception at the first column on
    which the user's SNPs score above 0: the columns before it get their
    rows with p-value 1 and no nulls tested, and nothing is written for
    this column or any later one. *)
Theorem empty_bin_aborts_at_first_scored_column {G : Type}
    `{UniformSource G}
    (call_score : scorer -> nat -> list (list Z) -> Q)
    (_geneset_bins : gmap Z (list (list Z))) (_user_geneset_sizes : list Z)
    (_col_names : list string) (_binary_gene_matrix : bool)
    (score_method : string) (genesets : list (list Z))
    (min_observations max_iterations replicates replicate : Z)
    (ncols c : nat) (st : sched_state G) :
  (exists s, s ∈ _user_geneset_sizes /\ bin_of _geneset_bins s = []) ->
  1 <= max_iterations < 2 ^ 63 ->
  (c < ncols)%nat -> (c <= length _col_names)%nat ->
  (forall col, (col < c)%nat ->
     Qle_bool (call_score
                 (select_score_function score_method _binary_gene_matrix)
                 col genesets) 0 = true) ->
  Qle_bool (call_score
              (select_score_function score_method _binary_gene_matrix)
              c genesets) 0 = false ->
  exists g',
    calculate_pvalues call_score _geneset_bins _user_geneset_sizes _col_names
                      _binary_gene_matrix score_method genesets
                      min_observations max_iterations replicates replicate
                      ncols st
    = (OutOfRange,
       {| generator := g';
          stream := stream st
                    ++ map (untested_row replicates replicate)
                           (take c _col_names) |}).
Proof.
  intros Hbin Hrange Hc Hnames Hzero Hpos. unfold calculate_pvalues.
  replace ncols with (c + S (ncols - S c))%nat by lia.
  destruct (calculate_columns_abort call_score _geneset_bins
              _user_geneset_sizes _col_names Hbin
              (select_score_function score_method _binary_gene_matrix)
              genesets min_observations max_iterations replicates replicate
              c Hrange Hnames Hzero Hpos c 0%nat (ncols - S c)%nat st eq_refl)
    as [g' Hrun].
  exists g'. exact Hrun.
Qed.

Lemma empty_bin_aborts_at_first_scored_column_witness :
  exists g',
    calculate_pvalues sample_score sample_bins [1; 2] ["c0"%string] false
                      "single" [[0]] 25 1000 1 0 1
                      {| generator := 42; stream := [] |}
    = (OutOfRange,
       {| generator := g';
          stream := [] ++ map (untested_row 1 0) (take 0 ["c0"%string]) |}).
Proof.
  apply (empty_bin_aborts_at_first_scored_column sample_score sample_bins
           [1; 2] ["c0"%string] false "single" [[0]] 25 1000 1 0 1 0
           {| generator := 42; stream := [] |}).
  - exists 2. split; [|reflexivity].
    apply list_elem_of_further, list_elem_of_here.
  - split; [lia | reflexivity].
  - lia.
  - cbn. lia.
  - intros col Hcol. lia.
  - reflexivity.
Defined.

(** ** Binary mode: the cache and the row count *)

Lemma NameSet_fold_sorted (l : list string) :
  forall s : NameSet.t,
    StronglySorted name_lt s ->
    StronglySorted name_lt (fold_left (fun s x => NameSet.insert x s) l s).
Proof.
  induction l as [|x l IH]; intros s Hs; cbn [fold_left]; [exact Hs|].
  apply IH. now apply NameSet_insert_sorted.
Qed.

Lemma NameSet_of_list_NoDup (l : list string) : NoDup (NameSet.of_list l).
Proof.
  apply NameSet_sorted_NoDup. unfold NameSet.of_list.
  apply NameSet_fold_sorted. constructor.
Qed.

Lemma NoDup_list_filter {A : Type} (f : A -> bool) (l : list A) :
  NoDup l -> NoDup (List.filter f l).
Proof.
  induction 1 as [|x l Hx Hl IH]; cbn [List.filter]; [constructor|].
  destruct (f x); [|exact IH].
  constructor; [|exact IH].
  intros Hin. apply Hx.
  apply list_elem_of_In, filter_In in Hin as [Hin _].
  now apply list_elem_of_In.
Qed.

(** [_nrows] is the number of matrix rows less the number of the distinct
    row names that no row of the BED file has. *)
Lemma read_bed_interval_tree_count (row_names : list string)
    (bed : list BEDRow) :
  Z.of_nat (length row_names) < 2 ^ 32 ->
  exists missing_genes : list string,
    NoDup missing_genes
    /\ (forall x, x ∈ missing_genes
                  <-> x ∈ row_names
                      /\ forall row, row ∈ bed -> name row <> x)
    /\ (read_bed_interval_tree row_names bed).1
       = Z.of_nat (length row_names) - Z.of_nat (length missing_genes).
Proof.
  intros Hlen. unfold read_bed_interval_tree.
  set (st := fold_left (bed_step row_names) bed _).
  exists (NameSet.set_difference (row_names_set row_names) (bed_genes st)).
  split; [|split].
  - unfold NameSet.set_difference, row_names_set.
    apply NoDup_list_filter, NameSet_of_list_NoDup.
  - intros x. rewrite NameSet_set_difference_elem. unfold row_names_set.
    rewrite NameSet_of_list_elem. subst st. rewrite bed_genes_fold.
    cbn [bed_genes NameSet.empty]. rewrite elem_of_nil. split.
    + intros [Hx Hno]. split; [exact Hx|]. intros row Hrow Hn.
      apply Hno. right. split; [exact Hx|]. exists row. tauto.
    + intros [Hx Hno]. split; [exact Hx|].
      intros [[]|(_ & row & Hrow & Hn)]. exact (Hno row Hrow Hn).
  - cbn [fst].
    assert (Hle : (length (NameSet.set_difference
                             (row_names_set row_names) (bed_genes st))
                   <= length row_names)%nat).
    { unfold NameSet.set_difference, row_names_set.
      pose proof (NameSet_of_list_length row_names).
      pose proof (filter_length_le
                    (fun x => NameSet.count x (bed_genes st) =? 0)
                    (NameSet.of_list row_names)).
      lia. }
    assert (2 ^ 32 = 4294967296) by reflexivity.
    unfold NameSet.size, Ulong.sub. rewrite Ulong_wrap_small
      by (rewrite Ulong_modulus_val; lia).
    unfold uint_wrap. apply Z.mod_small. lia.
Qed.

(** C8 (as the code has it).  Let the files load, with fewer than [2^32]
    rows in the matrix, and let column 0 hold only zeros and ones.  Then
    [_nrows] is the number of rows of the matrix less the number of the
    distinct row names that no row of the gene interval file has; and,
    when [_nrows] is not 0, the constructor keeps the matrix as loaded
    and caches, for every column [c], [sum[c]] = the sum of the entries
    of column [c], which is the number of nonzero rows when that column
    too holds only zeros and ones, and [prob[c] = sum[c] / _nrows]. *)
Theorem binary_mode_cache (norm : list Q -> Q) (files : input_files)
    (l : loaded) (col0 : VectorXd) :
  read_files files = Continue l ->
  Z.of_nat (length (_row_names l)) < 2 ^ 32 ->
  _gene_matrix l !! O = Some col0 ->
  is_binary col0 = true ->
  exists (gene_rows : list BEDRow) (missing_genes : list string),
    gene_intervals_content files = Some gene_rows
    /\ NoDup missing_genes
    /\ (forall x, x ∈ missing_genes
                  <-> x ∈ _row_names l
                      /\ forall row, row ∈ gene_rows -> name row <> x)
    /\ _nrows l = Z.of_nat (length (_row_names l))
                  - Z.of_nat (length missing_genes)
    /\ (_nrows l <> 0 ->
        exists sums probs,
          prepare_matrix norm l
          = Some (BinaryMatrix (_gene_matrix l)
                    {| _binary_sums := sums; _binary_probs := Some probs |})
          /\ length sums = cols (_gene_matrix l)
          /\ length probs = cols (_gene_matrix l)
          /\ forall c col,
              _gene_matrix l !! c = Some col ->
              sums !! c = Some (Qsum col)
              /\ probs !! c = Some (Qsum col / inject_Z (_nrows l))%Q
              /\ (is_binary col = true ->
                  (Qsum col == inject_Z (count_nonzero col))%Q)).
Proof.
  intros Hread Hsize Hcol0 Hbin.
  destruct (read_files_spec files l Hread)
    as (_ & _ & _ & _ & gene_rows & Hgenes & Htree).
  destruct (read_bed_interval_tree_count (_row_names l) gene_rows Hsize)
    as (missing_genes & Hnodup & Hmissing & Hcount).
  exists gene_rows, missing_genes.
  split; [exact Hgenes|]. split; [exact Hnodup|]. split; [exact Hmissing|].
  split.
  - rewrite <- Hcount, <- Htree. reflexivity.
  - intros Hnrows. exact (binary_cache_spec norm l col0 Hcol0 Hbin Hnrows).
Qed.

Lemma binary_mode_cache_witness :
  exists (gene_rows : list BEDRow) (missing_genes : list string),
    gene_intervals_content sample_binary_files = Some gene_rows
    /\ NoDup missing_genes
    /\ (forall x, x ∈ missing_genes
                  <-> x ∈ _row_names sample_binary_loaded
                      /\ forall row, row ∈ gene_rows -> name row <> x)
    /\ _nrows sample_binary_loaded
       = Z.of_nat (length (_row_names sample_binary_loaded))
         - Z.of_nat (length missing_genes)
    /\ (_nrows sample_binary_loaded <> 0 ->
        exists sums probs,
          prepare_matrix (fun _ => 1%Q) sample_binary_loaded
          = Some (BinaryMatrix (_gene_matrix sample_binary_loaded)
                    {| _binary_sums := sums; _binary_probs := Some probs |})
          /\ length sums = cols (_gene_matrix sample_binary_loaded)
          /\ length probs = cols (_gene_matrix sample_binary_loaded)
          /\ forall c col,
              _gene_matrix sample_binary_loaded !! c = Some col ->
              sums !! c = Some (Qsum col)
              /\ probs !! c
                 = Some (Qsum col
                         / inject_Z (_nrows sample_binary_loaded))%Q
              /\ (is_binary col = true ->
                  (Qsum col == inject_Z (count_nonzero col))%Q)).
Proof.
  apply (binary_mode_cache (fun _ => 1%Q) sample_binary_files
           sample_binary_loaded [0; 1]%Q).
  - vm_compute. reflexivity.
  - reflexivity.
  - reflexivity.
  - reflexivity.
Defined.
